(** * draw_mountain: binary decoding, polyline simplification, projection

    A shallow embedding of the geometry pipeline of the overlay builders
    ([scripts/build_jeju_overlay_data.py],
    [scripts/build_seoul_overlay_from_shp.py] and
    [scripts/build_region_overlays_from_shp.py]) and the proofs of its
    testable properties.

    Conventions of the embedding:
    - a Python [bytes] value is a [list byte];
    - a Python [float] is an IEEE binary64 value, Rocq's primitive [float];
    - a Python [int] is a [Z]; list positions and lengths are [nat];
    - a raised exception is the [Raise] branch of [result]. *)

From Stdlib Require Import ZArith List Floats Lia Bool String.
From Stdlib.Strings Require Import Byte.
From stdpp Require Import base list.
Import ListNotations.

Open Scope Z_scope.

(** ** Exceptions and the error monad *)

(** The exceptions the modelled functions raise.  A [RuntimeError] is
    identified by the place that raises it (and the value its message
    prints); the other constructors are the built-in exceptions of the
    Python operations the code uses. *)
Inductive exn : Type :=
| InvalidGeoPackageBlob             (* "Invalid GeoPackage geometry blob" *)
| UnsupportedEnvelopeCode (code : Z) (* "Unsupported envelope code: .." *)
| InvalidWkbByteOrder               (* "Invalid WKB byte order" *)
| UnsupportedBaseGeometryType (base_type : Z)
| UnexpectedEofInDbfFields          (* "Unexpected EOF while reading DBF fields" *)
| DbfFieldContNotFound              (* "DBF field CONT not found" *)
| InvalidShapefileHeader            (* "Invalid shapefile header" *)
| UnsupportedShapefileType (shape_type : Z)
| IndexError                        (* subscript out of range *)
| StructError                       (* struct.unpack on a short buffer *)
| ZeroDivisionError
| OverflowError
| ValueError
| OutOfFuel.   (* the model's step budget is exhausted: no Python exception;
                  the totality lemmas show the top-level functions never
                  return it *)

Inductive result (A : Type) : Type :=
| Ok (a : A)
| Raise (e : exn).
Arguments Ok {A} a.
Arguments Raise {A} e.

#[global] Instance result_ret : MRet result := @Ok.
#[global] Instance result_bind : MBind result :=
  fun A B (k : A -> result B) (r : result A) =>
    match r with
    | Ok a => k a
    | Raise e => Raise e
    end.

Definition is_ok {A : Type} (r : result A) : bool :=
  match r with Ok _ => true | Raise _ => false end.

(** ** Bytes *)

Abbreviation bytes := (list byte).

Definition byte_val (b : byte) : Z := Z.of_N (Byte.to_N b).

(** [data[i]] on a [bytes] value: the integer value of the byte. *)
Definition byte_at (data : bytes) (i : nat) : result Z :=
  match data !! i with
  | Some b => Ok (byte_val b)
  | None => Raise IndexError
  end.

(** [data[i:j]] for non-negative [i <= j]: slicing never raises. *)
Definition slice (data : bytes) (i j : nat) : bytes :=
  take (j - i) (drop i data).

(** The unsigned value of a little-endian byte string. *)
Fixpoint le_val (bs : bytes) : Z :=
  match bs with
  | [] => 0
  | b :: rest => byte_val b + 256 * le_val rest
  end.

Definition be_val (bs : bytes) : Z := le_val (rev bs).

(** Two's complement reading of a [w]-bit unsigned value. *)
Definition to_signed (w : Z) (v : Z) : Z :=
  if v <? 2 ^ (w - 1) then v else v - 2 ^ w.

(** ** GeoPackage geometry extractor ([build_jeju_overlay_data.py]) *)

Definition GP_MAGIC : list N := [71%N; 80%N].   (* b"GP" *)

(** The dict [{0: 0, 1: 32, 2: 48, 3: 48, 4: 64}] and its [.get]. *)
Definition envelope_table (code : Z) : option nat :=
  match code with
  | 0 => Some 0%nat
  | 1 => Some 32%nat
  | 2 => Some 48%nat
  | 3 => Some 48%nat
  | 4 => Some 64%nat
  | _ => None
  end.

Definition _gpkg_blob_to_wkb (blob : bytes) : result bytes :=
  if (length blob <? 8)%nat
     || negb (bool_decide (Byte.to_N <$> slice blob 0 2 = GP_MAGIC))
  then Raise InvalidGeoPackageBlob
  else
    flags ← byte_at blob 3;
    let envelope_code := Z.land (Z.shiftr flags 1) 7 in
    match envelope_table envelope_code with
    | None => Raise (UnsupportedEnvelopeCode envelope_code)
    | Some envelope_bytes => Ok (drop (8 + envelope_bytes) blob)
    end.

(** Bits 1 to 3 of the flags byte, read as a number. *)
Definition flag_bits_1_3 (flags : Z) : Z :=
  Z.b2z (Z.testbit flags 1) + 2 * Z.b2z (Z.testbit flags 2)
  + 4 * Z.b2z (Z.testbit flags 3).


(** ** Python floats and lists *)

(** A point is a Python tuple [(x, y)] of two floats. *)
Definition point : Type := float * float.

(** [x / y] on floats raises on a zero divisor (of either sign). *)
Definition py_div (x y : float) : result float :=
  if (y =? 0)%float then Raise ZeroDivisionError else Ok (x / y)%float.

(** ** The map projection ([build_jeju_overlay_data.py])

    The transverse Mercator series of the Korea 2000 unified coordinate
    system.  The arithmetic is binary64; the C library's [sin], [cos],
    [tan] and [pow], whose results the language does not fix, are the
    variables of the section.  [libm_pow] stands for the call of [pow]
    together with the check of [errno] that follows it. *)
Module Projection.
#[local] Set Warnings "-inexact-float".

Section Libm.
Local Open Scope float_scope.

Variable libm_sin libm_cos libm_tan : float -> float.
Variable libm_pow : float -> float -> result float.

(** CPython's wrapper [math_1] of a one-argument C function that cannot
    overflow: a NaN from a number and an infinity from a finite number are
    domain errors. *)
Definition math_1 (func : float -> float) (x : float) : result float :=
  let r := func x in
  if is_nan r && negb (is_nan x) then Raise ValueError
  else if is_infinity r && is_finite x then Raise ValueError
  else Ok r.

Definition math_sin : float -> result float := math_1 libm_sin.
Definition math_cos : float -> result float := math_1 libm_cos.
Definition math_tan : float -> result float := math_1 libm_tan.
Definition math_sqrt : float -> result float := math_1 PrimFloat.sqrt.

(** [math.radians(x)] is [x * (pi / 180.0)] on doubles. *)
Definition math_radians (x : float) : float :=
  x * (3.141592653589793 / 180).

(** [x ** k] for a float [x] and a positive [int] literal [k] (CPython's
    [float_pow]): NaN, the infinities, the zeros and 1 are settled before
    the C library is called, on the absolute value of [x]. *)
Definition float_pow (iv : float) (k : Z) : result float :=
  let iw_is_odd := Z.odd k in
  if is_nan iv then Ok iv
  else if is_infinity iv then Ok (if iw_is_odd then iv else abs iv)
  else if iv =? 0 then Ok (if iw_is_odd then iv else 0)
  else
    let negate_result := (iv <? 0) && iw_is_odd in
    let iv := if iv <? 0 then - iv else iv in
    if iv =? 1 then Ok (if negate_result then -1 else 1)
    else
      ix ← libm_pow iv (of_uint63 (Uint63.of_Z k));
      Ok (if negate_result then - ix else ix).

(** Korea 2000 / Unified Coordinate System parameters. *)
Definition A : float := 6378137.0.
Definition F : float := 1.0 / 298.257222101.
Definition E2 : float := 2 * F - F * F.
Definition EP2 : float := E2 / (1.0 - E2).
Definition K0 : float := 0.9996.
Definition LAT0 : float := math_radians 38.0.
Definition LON0 : float := math_radians 127.5.
Definition FALSE_EASTING : float := 1000000.0.
Definition FALSE_NORTHING : float := 2000000.0.

Definition _meridional_arc (phi : float) : result float :=
  let e4 := E2 * E2 in
  let e6 := e4 * E2 in
  sin2 ← math_sin (2 * phi);
  sin4 ← math_sin (4 * phi);
  sin6 ← math_sin (6 * phi);
  Ok (A * (
        (1 - E2 / 4 - 3 * e4 / 64 - 5 * e6 / 256) * phi
        - (3 * E2 / 8 + 3 * e4 / 32 + 45 * e6 / 1024) * sin2
        + (15 * e4 / 256 + 45 * e6 / 1024) * sin4
        - (35 * e6 / 3072) * sin6)).

(** The module-level constant, computed once when the module is loaded. *)
Definition M0 : result float := _meridional_arc LAT0.

Definition _lon_lat_to_unified (lon_deg lat_deg : float)
  : result (float * float) :=
  m0 ← M0;
  let phi := math_radians lat_deg in
  let lam := math_radians lon_deg in
  sin_phi ← math_sin phi;
  cos_phi ← math_cos phi;
  tan_phi ← math_tan phi;

  root ← math_sqrt (1.0 - E2 * sin_phi * sin_phi);
  n ← py_div A root;
  let t := tan_phi * tan_phi in
  let c := EP2 * cos_phi * cos_phi in
  let a_term := cos_phi * (lam - LON0) in
  m ← _meridional_arc phi;

  a3 ← float_pow a_term 3;
  a5 ← float_pow a_term 5;
  let x := FALSE_EASTING + K0 * n * (
      a_term
      + (1 - t + c) * a3 / 6
      + (5 - 18 * t + t * t + 72 * c - 58 * EP2) * a5 / 120) in
  a4 ← float_pow a_term 4;
  a6 ← float_pow a_term 6;
  let y := FALSE_NORTHING + K0 * (
      m
      - m0
      + n
      * tan_phi
      * (
        (a_term * a_term) / 2
        + (5 - t + 9 * c + 4 * c * c) * a4 / 24
        + (61 - 58 * t + t * t + 600 * c - 330 * EP2) * a6 / 720)) in
  Ok (x, y).

End Libm.

(** A float that is a zero of either sign or a NaN: what a product with a
    zero can be. *)
Definition zero_or_nan (x : float) : Prop :=
  match Prim2SF x with
  | S754_zero _ | S754_nan => True
  | _ => False
  end.

(** Two floats agree within the tolerance [1e-6]. *)
Definition close_to (x y : float) : bool := (abs (x - y) <=? 1e-6)%float.

(** A C library for the examples: the correctly rounded sines of the
    origin latitude and of its multiples by 2, 4 and 6, its cosine and its
    tangent; NaN (a domain error) elsewhere. *)
Definition table_sin (x : float) : float :=
  (if x =? 0.6632251157578453 then 0.6156614753256583
   else if x =? 1.3264502315156905 then 0.9702957262759965
   else if x =? 2.652900463031381 then 0.4694715627858907
   else if x =? 3.9793506945470716 then -0.7431448254773944
   else nan)%float.

Definition table_cos (x : float) : float :=
  (if x =? 0.6632251157578453 then 0.7880107536067219 else nan)%float.

Definition table_tan (x : float) : float :=
  (if x =? 0.6632251157578453 then 0.7812856265067174 else nan)%float.

Definition table_pow (x y : float) : result float := Raise ValueError.

End Projection.

(** The builtins [min(a, b)] and [max(a, b)]: the first argument wins unless
    the second is strictly better. *)
Definition py_min (a b : float) : float := if (b <? a)%float then b else a.
Definition py_max (a b : float) : float := if (a <? b)%float then b else a.

(** [p != q] on two point tuples.  The points of a list are distinct
    objects (the readers build a fresh tuple of fresh floats for each), so
    the comparison is by value. *)
Definition point_neq (p q : point) : bool :=
  negb ((p.1 =? q.1)%float && (p.2 =? q.2)%float).

(** [l[i]] for a non-negative index. *)
Definition get {A : Type} (l : list A) (i : nat) : result A :=
  match l !! i with
  | Some x => Ok x
  | None => Raise IndexError
  end.

(** [l[-1]]. *)
Definition get_last {A : Type} (l : list A) : result A :=
  match last l with
  | Some x => Ok x
  | None => Raise IndexError
  end.

(** [[pt for idx, pt in enumerate(points) if keep[idx]]], for a [keep] as
    long as [points]. *)
Fixpoint select {A : Type} (keep : list bool) (points : list A)
    {struct points} : list A :=
  match points, keep with
  | pt :: points', b :: keep' =>
      if b then pt :: select keep' points' else select keep' points'
  | _, _ => []
  end.

(** ** Exact simplification ([_simplify_line]) *)

Section ExactSimplifier.

(** The C library's [pow], with the check of [errno] that follows its call
    (see [Projection.float_pow]). *)
Variable libm_pow : float -> float -> result float.

(** [x ** 2] on a float: CPython's [float_pow] with the exponent 2. *)
Definition py_sq (x : float) : result float :=
  Projection.float_pow libm_pow x 2.

Definition _distance_sq_point_to_segment (p a b : point) : result float :=
  let '(px, py) := p in
  let '(ax, ay) := a in
  let '(bx, by_) := b in
  let dx := (bx - ax)%float in
  let dy := (by_ - ay)%float in
  if (dx =? 0)%float && (dy =? 0)%float then
    u ← py_sq (px - ax)%float;
    v ← py_sq (py - ay)%float;
    Ok (u + v)%float
  else
    t ← py_div ((px - ax) * dx + (py - ay) * dy)%float (dx * dx + dy * dy)%float;
    let t := py_max 0%float (py_min 1%float t) in
    let qx := (ax + t * dx)%float in
    let qy := (ay + t * dy)%float in
    u ← py_sq (px - qx)%float;
    v ← py_sq (py - qy)%float;
    Ok (u + v)%float.

(** The inner [for k in range(i + 1, j)] loop: [count] iterations from [k].
    The sentinel [max_idx = -1] is [None]. *)
Fixpoint scan_range (points : list point) (a b : point) (k count : nat)
    (max_dist_sq : float) (max_idx : option nat)
  : result (float * option nat) :=
  match count with
  | O => Ok (max_dist_sq, max_idx)
  | S count' =>
      pk ← get points k;
      dist_sq ← _distance_sq_point_to_segment pk a b;
      if (max_dist_sq <? dist_sq)%float
      then scan_range points a b (S k) count' dist_sq (Some k)
      else scan_range points a b (S k) count' max_dist_sq max_idx
  end.

(** One turn of the [while stack:] loop on the popped range [(i, j)]:
    the new [keep] and the ranges pushed (the top of the stack first). *)
Definition simplify_step (points : list point) (tol_sq : float)
    (keep : list bool) (i j : nat) : result (list bool * list (nat * nat)) :=
  a ← get points i;
  b ← get points j;
  '(max_dist_sq, max_idx) ←
    scan_range points a b (i + 1) (j - (i + 1)) (-1)%float None;
  match max_idx with
  | Some max_idx =>
      if (tol_sq <? max_dist_sq)%float
      then Ok (<[max_idx := true]> keep, [(max_idx, j); (i, max_idx)])
      else Ok (keep, [])
  | None => Ok (keep, [])
  end.

(** The [while stack:] loop.  The head of [stack] is the top of the Python
    list (its last element). *)
Fixpoint simplify_loop (fuel : nat) (points : list point) (tol_sq : float)
    (keep : list bool) (stack : list (nat * nat)) : result (list bool) :=
  match stack with
  | [] => Ok keep
  | (i, j) :: stack' =>
      match fuel with
      | O => Raise OutOfFuel
      | S fuel' =>
          '(keep', pushed) ← simplify_step points tol_sq keep i j;
          simplify_loop fuel' points tol_sq keep' (pushed ++ stack')
      end
  end.

(** The [keep] flags at the end of [_simplify_line], for more than 2
    points. *)
Definition simplify_keep (points : list point) (tolerance : float)
  : result (list bool) :=
  let n := length points in
  let tol_sq := (tolerance * tolerance)%float in
  let keep := <[(n - 1)%nat := true]> (<[0%nat := true]> (replicate n false)) in
  simplify_loop (2 * n) points tol_sq keep [(0, n - 1)]%nat.

Definition _simplify_line (points : list point) (tolerance : float)
  : result (list point) :=
  if (length points <=? 2)%nat then Ok points
  else
    keep ← simplify_keep points tolerance;
    Ok (select keep points).

End ExactSimplifier.

(** A C library for the examples: a [pow] that is correctly rounded at the
    exponent 2, where the power is the rounded product and an infinite
    result of finite operands is a range error; a domain error at the other
    exponents. *)
Definition square_pow (x y : float) : result float :=
  if (y =? 2)%float then
    let r := (x * x)%float in
    if is_infinity r && negb (is_infinity x) then Raise OverflowError
    else Ok r
  else Raise ValueError.

(** ** Fast simplification ([_simplify_line_fast]) *)

(** The squared distance [dx * dx + dy * dy] between two points. *)
Definition spacing_dist_sq (last p : point) : float :=
  let dx := (p.1 - last.1)%float in
  let dy := (p.2 - last.2)%float in
  (dx * dx + dy * dy)%float.

(** The loop over [points[1:-1]]: the points appended to [simplified]. *)
Fixpoint spacing_scan (spacing_sq : float) (last : point)
    (interior : list point) : list point :=
  match interior with
  | [] => []
  | p :: rest =>
      if (spacing_sq <=? spacing_dist_sq last p)%float
      then p :: spacing_scan spacing_sq p rest
      else spacing_scan spacing_sq last rest
  end.

(** [points[1:-1]]. *)
Definition interior {A : Type} (points : list A) : list A :=
  take (length points - 2) (drop 1 points).

(** [simplified] after the spacing pass and the append of the last point,
    for more than 2 points. *)
Definition spacing_filter (points : list point) (min_spacing : float)
  : result (list point) :=
  let spacing_sq := (min_spacing * min_spacing)%float in
  first ← get points 0;
  let simplified := first :: spacing_scan spacing_sq first (interior points) in
  s_last ← get_last simplified;
  p_last ← get_last points;
  Ok (if point_neq s_last p_last then simplified ++ [p_last] else simplified).

(** [int(math.ceil(a / b))] on two ints: true division raises on a zero
    divisor.  For operands below 2^53 (list lengths) the rounded quotient
    has the ceiling of the exact one. *)
Definition py_ceil_div (a b : Z) : result Z :=
  if b =? 0 then Raise ZeroDivisionError else Ok (- ((- a) / b)).

(** [range(start, stop, step)] for a positive [step]. *)
Fixpoint range_from (start step count : nat) : list nat :=
  match count with
  | O => []
  | S count' => start :: range_from (start + step) step count'
  end.

Definition py_range (start stop step : nat) : list nat :=
  range_from start step ((stop - start + (step - 1)) / step)%nat.

(** [[l[i] for i in idxs]]. *)
Fixpoint gather {A : Type} (l : list A) (idxs : list nat) : result (list A) :=
  match idxs with
  | [] => Ok []
  | i :: idxs' =>
      x ← get l i;
      rest ← gather l idxs';
      Ok (x :: rest)
  end.

Definition _simplify_line_fast (points : list point) (min_spacing : float)
    (max_points : Z) : result (list point) :=
  if (length points <=? 2)%nat then Ok points
  else
    simplified ← spacing_filter points min_spacing;
    if Z.of_nat (length simplified) <=? max_points then Ok simplified
    else
      step ← py_ceil_div (Z.of_nat (length simplified) - 2) (max_points - 2);
      let step := if step <? 1 then 1 else step in
      first ← get simplified 0;
      sampled ← gather simplified
                  (py_range 1 (length simplified - 1) (Z.to_nat step));
      let trimmed := first :: sampled in
      t_last ← get_last trimmed;
      s_last ← get_last simplified;
      Ok (if point_neq t_last s_last then trimmed ++ [s_last] else trimmed).

(** ** Specification-side definitions for the exact simplifier *)

Section ExactSimplifierSpec.

Variable libm_pow : float -> float -> result float.

(** *** The distance of the specification

    The point of the segment [(a, b)] nearest to [p] is
    [q = a + t (b - a)] at the clamped projection parameter
    [t = clamp(((p - a) . (b - a)) / |b - a|^2, 0, 1)]; the distance is that
    of [p] to [q], and that of [p] to [a] when [b - a] is the zero vector.
    The arithmetic is that of Python floats: a division raises on a zero
    divisor and a square is [** 2]. *)

Definition vec_sub (p q : point) : point :=
  ((p.1 - q.1)%float, (p.2 - q.2)%float).

Definition vec_dot (u v : point) : float :=
  (u.1 * v.1 + u.2 * v.2)%float.

Definition vec_is_zero (u : point) : bool :=
  (u.1 =? 0)%float && (u.2 =? 0)%float.

(** [|u|^2]. *)
Definition vec_norm_sq (u : point) : result float :=
  x2 ← Projection.float_pow libm_pow u.1 2;
  y2 ← Projection.float_pow libm_pow u.2 2;
  Ok (x2 + y2)%float.

(** [clamp(t, lo, hi)]: [t] itself strictly between the ends, [lo] from
    [lo] down and [hi] from [hi] up; a [t] that is no number counts as not
    below [hi]. *)
Definition clamp (t lo hi : float) : float :=
  if (t <? hi)%float then (if (lo <? t)%float then t else lo) else hi.

Definition spec_distance_sq (p a b : point) : result float :=
  let ab := vec_sub b a in
  if vec_is_zero ab then vec_norm_sq (vec_sub p a)
  else
    t ← py_div (vec_dot (vec_sub p a) ab) (vec_dot ab ab);
    let t := clamp t 0 1 in
    let q := ((a.1 + t * ab.1)%float, (a.2 + t * ab.2)%float) in
    vec_norm_sq (vec_sub p q).

(** *** The work list as a recursion *)

(** The distances of the points of [mid] to the segment [(a, b)], in the
    order the inner loop computes them; the first exception wins. *)
Fixpoint dists (a b : point) (mid : list point) : result (list float) :=
  match mid with
  | [] => Ok []
  | p :: mid' =>
      d ← _distance_sq_point_to_segment libm_pow p a b;
      ds ← dists a b mid';
      Ok (d :: ds)
  end.

(** The inner loop on the distances alone: the running maximum and the
    position (counted from [k]) of the first distance that reaches it. *)
Fixpoint scan_floats (ds : list float) (k : nat) (max_dist_sq : float)
    (max_idx : option nat) : float * option nat :=
  match ds with
  | [] => (max_dist_sq, max_idx)
  | d :: ds' =>
      if (max_dist_sq <? d)%float
      then scan_floats ds' (S k) d (Some k)
      else scan_floats ds' (S k) max_dist_sq max_idx
  end.

(** The running maximum alone. *)
Fixpoint run_max (m : float) (ds : list float) : float :=
  match ds with
  | [] => m
  | d :: ds' => run_max (if (m <? d)%float then d else m) ds'
  end.

(** The recursion the work list of [_simplify_line] unfolds: the [keep]
    flags of the points [mid] strictly between two kept points [a] and [b].
    As the loop pops the right half first, its exceptions come first. *)
Fixpoint simplify_mask (fuel : nat) (tol_sq : float) (a : point)
    (mid : list point) (b : point) : result (list bool) :=
  match fuel with
  | O => Raise OutOfFuel
  | S fuel' =>
      ds ← dists a b mid;
      let '(max_dist_sq, max_idx) := scan_floats ds 0 (-1)%float None in
      match max_idx with
      | Some s =>
          if (tol_sq <? max_dist_sq)%float then
            ps ← get mid s;
            right ← simplify_mask fuel' tol_sq ps (drop (S s) mid) b;
            left ← simplify_mask fuel' tol_sq a (take s mid) ps;
            Ok (left ++ true :: right)
          else Ok (replicate (length mid) false)
      | None => Ok (replicate (length mid) false)
      end
  end.

(** [keep] with the flags of [mask] set from position [pos] on. *)
Fixpoint overlay (keep : list bool) (pos : nat) (mask : list bool)
  : list bool :=
  match mask with
  | [] => keep
  | m :: mask' =>
      overlay (if m then <[pos := true]> keep else keep) (S pos) mask'
  end.

(** [within_tolerance tol_sq points keep]: [points] starts and ends with a
    kept point, and every run of discarded points lies between two kept
    points [a] and [b] such that the squared distance of each point of the
    run to the segment [(a, b)], the distance of the specification, is
    computed and does not exceed [tol_sq]. *)
Inductive within_tolerance (tol_sq : float)
  : list point -> list bool -> Prop :=
| wt_last (a : point) : within_tolerance tol_sq [a] [true]
| wt_run (a : point) (mid : list point) (b : point)
         (rest : list point) (keep : list bool) :
    Forall (fun p => exists d, spec_distance_sq p a b = Ok d
                               /\ (tol_sq <? d)%float = false) mid ->
    within_tolerance tol_sq (b :: rest) (true :: keep) ->
    within_tolerance tol_sq (a :: mid ++ b :: rest)
      (true :: replicate (length mid) false ++ true :: keep).

(** [enclosed_within tol_sq points keep k]: the discarded point at position
    [k] lies between two kept points, at positions [i < k < j] with nothing
    kept in between (so they are neighbours in the output), and its squared
    distance to the segment they span is computed and does not exceed
    [tol_sq]. *)
Definition enclosed_within (tol_sq : float) (points : list point)
    (keep : list bool) (k : nat) : Prop :=
  exists (i j : nat) (p_i p_j p_k : point) (d : float),
    (i < k < j)%nat
    /\ keep !! i = Some true /\ keep !! j = Some true
    /\ (forall t, (i < t < j)%nat -> keep !! t = Some false)
    /\ points !! i = Some p_i /\ points !! j = Some p_j
    /\ points !! k = Some p_k
    /\ spec_distance_sq p_k p_i p_j = Ok d
    /\ (tol_sq <? d)%float = false.

End ExactSimplifierSpec.

(** ** [struct.unpack] *)

(** The [n] bytes at [offset]: [struct.unpack_from] raises [struct.error]
    when fewer are left. *)
Definition unpack_bytes (n : nat) (data : bytes) (offset : nat)
  : result bytes :=
  let bs := take n (drop offset data) in
  if (length bs =? n)%nat then Ok bs else Raise StructError.

(** Formats [<I], [>I], [<H] (unsigned) by the number of bytes. *)
Definition unpack_uint (little : bool) (n : nat) (data : bytes) (offset : nat)
  : result Z :=
  bs ← unpack_bytes n data offset;
  Ok (if little then le_val bs else be_val bs).

(** Formats [<i] and [>i] (signed 32 bits). *)
Definition unpack_int32 (little : bool) (data : bytes) (offset : nat)
  : result Z :=
  v ← unpack_uint little 4 data offset;
  Ok (to_signed 32 v).

(** The binary64 value of a 64-bit pattern: sign, 11 bits of biased
    exponent, 52 bits of fraction. *)
Definition double_of_bits (v : Z) : float :=
  let sign := Z.testbit v 63 in
  let e := Z.land (Z.shiftr v 52) 2047 in
  let m := Z.land v (2 ^ 52 - 1) in
  SF2Prim
    (if e =? 0 then
       if m =? 0 then S754_zero sign else S754_finite sign (Z.to_pos m) (-1074)
     else if e =? 2047 then
       if m =? 0 then S754_infinity sign else S754_nan
     else S754_finite sign (Z.to_pos (m + 2 ^ 52)) (e - 1075)).

(** Formats [<d] and [>d]. *)
Definition unpack_double (little : bool) (data : bytes) (offset : nat)
  : result float :=
  v ← unpack_uint little 8 data offset;
  Ok (double_of_bits v).

(** ** WKB polyline decoder ([build_jeju_overlay_data.py]) *)

(** The loop [for _ in range(n)] of the LineString branch. *)
Fixpoint parse_points (little has_z has_m : bool) (data : bytes) (n : nat)
    (offset : nat) (points : list point) : result (list point * nat) :=
  match n with
  | O => Ok (points, offset)
  | S n' =>
      x ← unpack_double little data offset;
      y ← unpack_double little data (offset + 8);
      let offset := (offset + 16)%nat in
      let offset := if has_z then (offset + 8)%nat else offset in
      let offset := if has_m then (offset + 8)%nat else offset in
      parse_points little has_z has_m data n' offset (points ++ [(x, y)])
  end.

(** The loop [for _ in range(n)] of the MultiLineString branch; [parse] is
    the recursive call at an offset. *)
Fixpoint parse_children (parse : nat -> result (list (list point) * nat))
    (n : nat) (offset : nat) (lines : list (list point))
  : result (list (list point) * nat) :=
  match n with
  | O => Ok (lines, offset)
  | S n' =>
      '(child, offset') ← parse offset;
      parse_children parse n' offset' (lines ++ child)
  end.

(** [_parse_lines_from_wkb] with a bound [fuel] on the depth of the
    recursion. *)
Fixpoint parse_lines_from_wkb (fuel : nat) (data : bytes) (offset : nat)
  : result (list (list point) * nat) :=
  match fuel with
  | O => Raise OutOfFuel
  | S fuel' =>
      byte_order ← byte_at data offset;
      if negb ((byte_order =? 0) || (byte_order =? 1))
      then Raise InvalidWkbByteOrder
      else
        let little := byte_order =? 1 in
        let offset := (offset + 1)%nat in
        geom_type ← unpack_uint little 4 data offset;
        let offset := (offset + 4)%nat in
        let '(base_type, has_z, has_m) :=
          if 3000 <=? geom_type then (geom_type - 3000, true, true)
          else if 2000 <=? geom_type then (geom_type - 2000, false, true)
          else if 1000 <=? geom_type then (geom_type - 1000, true, false)
          else (geom_type, false, false) in
        if base_type =? 2 then
          n ← unpack_uint little 4 data offset;
          let offset := (offset + 4)%nat in
          '(points, offset) ←
            parse_points little has_z has_m data (Z.to_nat n) offset [];
          Ok ([points], offset)
        else if base_type =? 5 then
          n ← unpack_uint little 4 data offset;
          let offset := (offset + 4)%nat in
          parse_children (parse_lines_from_wkb fuel' data) (Z.to_nat n)
            offset []
        else Raise (UnsupportedBaseGeometryType base_type)
  end.

(** Every level of the recursion reads at least 9 bytes, so the length of
    the data bounds its depth. *)
Definition _parse_lines_from_wkb (data : bytes) (offset : nat)
  : result (list (list point) * nat) :=
  parse_lines_from_wkb (S (length data)) data offset.

(** ** Specification-side definitions for WKB: the encoding *)

Definition byte_of_Z (v : Z) : byte :=
  match Byte.of_N (Z.to_N v) with
  | Some b => b
  | None => x00
  end.

(** The [n] bytes of [v], least significant first. *)
Fixpoint le_bytes (n : nat) (v : Z) : bytes :=
  match n with
  | O => []
  | S n' => byte_of_Z (v mod 256) :: le_bytes n' (v / 256)
  end.

Definition pack_uint (little : bool) (n : nat) (v : Z) : bytes :=
  if little then le_bytes n v else rev (le_bytes n v).

(** The coordinate dimensions of a geometry: the thousands of its type
    code. *)
Inductive wkb_dim : Type := XY | XYZ | XYM | XYZM.

Definition dim_code (d : wkb_dim) : Z :=
  match d with XY => 0 | XYZ => 1000 | XYM => 2000 | XYZM => 3000 end.

(** The number of ordinates after [x] and [y]. *)
Definition dim_extra (d : wkb_dim) : nat :=
  match d with XY => 0 | XYZ => 1 | XYM => 1 | XYZM => 2 end%nat.

(** The flags [has_z] and [has_m] the decoder derives from the type code. *)
Definition dim_has_z (d : wkb_dim) : bool :=
  match d with XYZ | XYZM => true | _ => false end.
Definition dim_has_m (d : wkb_dim) : bool :=
  match d with XYM | XYZM => true | _ => false end.

(** A vertex on the wire: the bit patterns of [x] and [y] and the bytes of
    the further ordinates. *)
Record wkb_vertex : Type := Vertex {
  vertex_x : Z;
  vertex_y : Z;
  vertex_extra : bytes
}.

Record wkb_linestring : Type := LineString {
  ls_little : bool;
  ls_dim : wkb_dim;
  ls_vertices : list wkb_vertex
}.

Inductive wkb_geometry : Type :=
| GLineString (ls : wkb_linestring)
| GMultiLineString (little : bool) (dim : wkb_dim)
                   (children : list wkb_linestring).

Definition valid_vertex (d : wkb_dim) (v : wkb_vertex) : Prop :=
  0 <= vertex_x v < 2 ^ 64 /\ 0 <= vertex_y v < 2 ^ 64
  /\ length (vertex_extra v) = (8 * dim_extra d)%nat.

Definition valid_linestring (ls : wkb_linestring) : Prop :=
  Z.of_nat (length (ls_vertices ls)) < 2 ^ 32
  /\ Forall (valid_vertex (ls_dim ls)) (ls_vertices ls).

Definition valid_geometry (g : wkb_geometry) : Prop :=
  match g with
  | GLineString ls => valid_linestring ls
  | GMultiLineString _ _ children =>
      Z.of_nat (length children) < 2 ^ 32 /\ Forall valid_linestring children
  end.

Definition byte_order_mark (little : bool) : byte :=
  if little then x01 else x00.

Definition encode_vertex (little : bool) (v : wkb_vertex) : bytes :=
  pack_uint little 8 (vertex_x v) ++ pack_uint little 8 (vertex_y v)
  ++ vertex_extra v.

Definition encode_linestring (ls : wkb_linestring) : bytes :=
  byte_order_mark (ls_little ls)
  :: pack_uint (ls_little ls) 4 (2 + dim_code (ls_dim ls))
  ++ pack_uint (ls_little ls) 4 (Z.of_nat (length (ls_vertices ls)))
  ++ concat (encode_vertex (ls_little ls) <$> ls_vertices ls).

Definition encode_geometry (g : wkb_geometry) : bytes :=
  match g with
  | GLineString ls => encode_linestring ls
  | GMultiLineString little dim children =>
      byte_order_mark little
      :: pack_uint little 4 (5 + dim_code dim)
      ++ pack_uint little 4 (Z.of_nat (length children))
      ++ concat (encode_linestring <$> children)
  end.

(** The polyline a LineString stands for, and the polylines of a
    geometry. *)
Definition vertex_point (v : wkb_vertex) : point :=
  (double_of_bits (vertex_x v), double_of_bits (vertex_y v)).

Definition linestring_points (ls : wkb_linestring) : list point :=
  vertex_point <$> ls_vertices ls.

Definition geometry_lines (g : wkb_geometry) : list (list point) :=
  match g with
  | GLineString ls => [linestring_points ls]
  | GMultiLineString _ _ children => linestring_points <$> children
  end.

(** ** Shapefile polyline reader ([build_seoul_overlay_from_shp.py],
    [build_region_overlays_from_shp.py]: the two copies differ in their
    messages only) *)

(** [struct.unpack(fmt, buffer)]: the buffer must have exactly the size of
    the format. *)
Definition unpack_exact (n : nat) (bs : bytes) : result bytes :=
  if (length bs =? n)%nat then Ok bs else Raise StructError.

(** [struct.unpack("<i", bs)[0]]. *)
Definition unpack_le_int32 (bs : bytes) : result Z :=
  bs ← unpack_exact 4 bs;
  Ok (to_signed 32 (le_val bs)).

(** The [n] values of [struct.unpack("<{n}i", bs)] read off [bs]. *)
Fixpoint le_int32s (n : nat) (bs : bytes) : list Z :=
  match n with
  | O => []
  | S n' => to_signed 32 (le_val (take 4 bs)) :: le_int32s n' (drop 4 bs)
  end.

(** [list(struct.unpack(f"<{num_parts}i", content[44 : 44 + 4 * num_parts]))]:
    a negative count is not a format. *)
Definition read_parts (content : bytes) (num_parts : Z) : result (list Z) :=
  if num_parts <? 0 then Raise StructError
  else
    let n := Z.to_nat num_parts in
    bs ← unpack_exact (4 * n) (slice content 44 (44 + 4 * n));
    Ok (le_int32s n bs).

(** [struct.unpack("<2d", bs)]. *)
Definition unpack_le_2d (bs : bytes) : result point :=
  bs ← unpack_exact 16 bs;
  Ok (double_of_bits (le_val (take 8 bs)),
      double_of_bits (le_val (drop 8 bs))).

(** The loop [for i in range(num_points)], [count] turns from [i]. *)
Fixpoint read_points (content : bytes) (points_off : nat) (i count : nat)
    (points : list point) : result (list point) :=
  match count with
  | O => Ok points
  | S count' =>
      p ← unpack_le_2d (slice content (points_off + i * 16)
                                      (points_off + (i + 1) * 16));
      read_points content points_off (S i) count' (points ++ [p])
  end.

(** A bound of a slice [l[start:end]] on a list of length [n]: negative
    bounds count from the end, and all are clamped to [0..n]. *)
Definition slice_bound (n : nat) (i : Z) : nat :=
  if i <? 0 then Z.to_nat (Z.max 0 (i + Z.of_nat n))
  else Z.to_nat (Z.min i (Z.of_nat n)).

(** [l[start:end]]. *)
Definition py_slice {A : Type} (l : list A) (start end_ : Z) : list A :=
  let s := slice_bound (length l) start in
  let e := slice_bound (length l) end_ in
  take (e - s) (drop s l).

(** The loop [for i, start in enumerate(parts)]. *)
Fixpoint split_parts (points : list point) (num_points : Z) (parts : list Z)
  : list (list point) :=
  match parts with
  | [] => []
  | start :: rest =>
      let end_ := match rest with
                  | next :: _ => next
                  | [] => num_points
                  end in
      let line := py_slice points start end_ in
      (if (2 <=? length line)%nat then [line] else [])
      ++ split_parts points num_points rest
  end.

(** The body of the record loop from [rec_shape_type] on: the polylines
    appended to [shapes] for a record of content [content]. *)
Definition parse_shp_record (content : bytes) : result (list (list point)) :=
  rec_shape_type ← unpack_le_int32 (slice content 0 4);
  if rec_shape_type =? 0 then Ok []
  else if negb ((rec_shape_type =? 3) || (rec_shape_type =? 13)
                || (rec_shape_type =? 23)) then Ok []
  else
    num_parts ← unpack_le_int32 (slice content 36 40);
    num_points ← unpack_le_int32 (slice content 40 44);
    parts ← read_parts content num_parts;
    let points_off := (44 + 4 * Z.to_nat num_parts)%nat in
    points ← read_points content points_off 0 (Z.to_nat num_points) [];
    Ok (split_parts points num_points parts).

(** The bytes a read of [size] bytes at position [pos] gets, and the new
    position: at most [size] bytes, all that is left for the size [-1]. *)
Definition file_window (file : bytes) (pos : nat) (size : Z) : bytes * nat :=
  let bs := if size <? 0 then drop pos file
            else take (Z.to_nat size) (drop pos file) in
  (bs, (pos + length bs)%nat).

(** [f.read(size)] on a file opened with [open(path, "rb")]: a buffered
    reader refuses a size below [-1] with [ValueError]. *)
Definition file_read (file : bytes) (pos : nat) (size : Z)
  : result (bytes * nat) :=
  if size <? -1 then Raise ValueError else Ok (file_window file pos size).

(** The [while True:] loop over the records, from position [pos]. *)
Fixpoint read_shp_records (fuel : nat) (file : bytes) (pos : nat)
    (shapes : list (list (list point))) : result (list (list (list point))) :=
  match fuel with
  | O => Raise OutOfFuel
  | S fuel' =>
      '(rec_header, pos) ← file_read file pos 8;
      if (length rec_header <? 8)%nat then Ok shapes
      else
        let content_len_words := to_signed 32 (be_val (drop 4 rec_header)) in
        let content_bytes := content_len_words * 2 in
        '(content, pos) ← file_read file pos content_bytes;
        if Z.of_nat (length content) <? content_bytes then Ok shapes
        else
          lines ← parse_shp_record content;
          read_shp_records fuel' file pos (shapes ++ [lines])
  end.

Definition read_shp_polylines (file : bytes)
  : result ((float * float * float * float) * list (list (list point))) :=
  '(header, pos) ← file_read file 0 100;
  if (length header <? 100)%nat then Raise InvalidShapefileHeader
  else
    shape_type ← unpack_le_int32 (slice header 32 36);
    if negb ((shape_type =? 3) || (shape_type =? 13) || (shape_type =? 23))
    then Raise (UnsupportedShapefileType shape_type)
    else
      let bound k := double_of_bits (le_val (slice header (36 + 8 * k)
                                                          (44 + 8 * k))) in
      shapes ← read_shp_records (S (length file)) file pos [];
      Ok ((bound 0%nat, bound 1%nat, bound 2%nat, bound 3%nat), shapes).

(** ** Specification-side definitions for the shapefile reader *)

(** The part-start indices of consecutive segments: the running count of
    points before each. *)
Fixpoint part_starts {A : Type} (from : nat) (segments : list (list A))
  : list Z :=
  match segments with
  | [] => []
  | seg :: rest => Z.of_nat from :: part_starts (from + length seg) rest
  end.

(** A point on the wire: the bit patterns of [x] and [y]. *)
Definition encode_xy (p : Z * Z) : bytes :=
  pack_uint true 8 p.1 ++ pack_uint true 8 p.2.

Definition xy_point (p : Z * Z) : point :=
  (double_of_bits p.1, double_of_bits p.2).

(** The content of a PolyLine record: shape type, bounding box (32 bytes),
    numParts, numPoints, the part starts, the points, and whatever follows
    them (the Z and M blocks of types 13 and 23). *)
Definition encode_shp_record (shape_type : Z) (box : bytes)
    (segments : list (list (Z * Z))) (extra : bytes) : bytes :=
  pack_uint true 4 shape_type ++ box
  ++ pack_uint true 4 (Z.of_nat (length segments))
  ++ pack_uint true 4 (Z.of_nat (length (concat segments)))
  ++ concat (pack_uint true 4 <$> part_starts 0 segments)
  ++ concat (encode_xy <$> concat segments)
  ++ extra.

(** ** DBF attribute reader ([read_dbf_contours], the same in both
    shapefile scripts) *)

(** [bs.decode("ascii", "ignore")]: the bytes below 128; a [str] of ASCII
    characters is kept as its bytes. *)
Definition ascii_ignore (bs : bytes) : bytes :=
  List.filter (fun b => byte_val b <? 128) bs.

(** [bs.split(b"\x00", 1)[0]]: the bytes before the first NUL. *)
Fixpoint before_nul (bs : bytes) : bytes :=
  match bs with
  | [] => []
  | b :: rest => if byte_val b =? 0 then [] else b :: before_nul rest
  end.

(** The ASCII characters [str.strip()] removes: tab, line feed, vertical
    tab, form feed, carriage return, the separators 28 to 31, space. *)
Definition is_space (b : byte) : bool :=
  let v := byte_val b in
  ((9 <=? v) && (v <=? 13)) || ((28 <=? v) && (v <=? 32)).

Fixpoint lstrip (s : bytes) : bytes :=
  match s with
  | [] => []
  | b :: rest => if is_space b then lstrip rest else s
  end.

Definition strip (s : bytes) : bytes := rev (lstrip (rev (lstrip s))).

(** [s.upper()] on ASCII characters. *)
Definition upper_val (b : byte) : Z :=
  let v := byte_val b in
  if (97 <=? v) && (v <=? 122) then v - 32 else v.

(** [name.upper() == "CONT"]. *)
Definition is_cont (name : bytes) : bool :=
  bool_decide (upper_val <$> name = [67; 79; 78; 84]).

(** A field descriptor [(name, field_type, field_len, decimals)]. *)
Definition dbf_field : Type := bytes * Z * Z * Z.

(** [next((i for i, fd in enumerate(fields) if ...), None)], counting from
    [i]. *)
Fixpoint find_cont (fields : list dbf_field) (i : nat) : option nat :=
  match fields with
  | [] => None
  | (name, _, _, _) :: rest =>
      if is_cont name then Some i else find_cont rest (S i)
  end.

(** The [while True:] loop over the field descriptors, from position
    [pos]. *)
Fixpoint read_fields (fuel : nat) (file : bytes) (pos : nat)
    (fields : list dbf_field) : result (list dbf_field) :=
  match fuel with
  | O => Raise OutOfFuel
  | S fuel' =>
      '(desc, pos) ← file_read file pos 32;
      if (length desc =? 0)%nat then Raise UnexpectedEofInDbfFields
      else
        first ← byte_at desc 0;
        if first =? 13 then Ok fields
        else
          let name := ascii_ignore (before_nul (slice desc 0 11)) in
          field_type ← byte_at desc 11;
          field_len ← byte_at desc 16;
          decimals ← byte_at desc 17;
          read_fields fuel' file pos
            (fields ++ [(name, field_type, field_len, decimals)])
  end.

(** The loop [for idx, (_, _, flen, _) in enumerate(fields)] over one
    record: the text of the field [cont_idx]. *)
Fixpoint field_walk (rec : bytes) (cont_idx : nat) (fields : list dbf_field)
    (idx pos : nat) (cont_raw : bytes) : bytes :=
  match fields with
  | [] => cont_raw
  | (_, _, flen, _) :: rest =>
      let txt := strip (ascii_ignore
                          (slice rec pos (pos + Z.to_nat flen))) in
      field_walk rec cont_idx rest (S idx) (pos + Z.to_nat flen)
        (if (idx =? cont_idx)%nat then txt else cont_raw)
  end.

Section Dbf.

(** [int(round(float(s)))] on the text [s], from Python's builtins:
    [ValueError] for a text that is no number (or a NaN), another
    exception such as [OverflowError] for an infinity. *)
Variable int_round_float : bytes -> result Z.

(** The value appended for a record that is not deleted: the [try] block
    and its [except ValueError]. *)
Definition record_value (fields : list dbf_field) (cont_idx : nat)
    (rec : bytes) : result Z :=
  let cont_raw := field_walk rec cont_idx fields 0 1 [] in
  match int_round_float cont_raw with
  | Ok v => Ok v
  | Raise ValueError => Ok 0
  | Raise e => Raise e
  end.

(** The loop [for _ in range(num_records)], from position [pos]. *)
Fixpoint read_records (n : nat) (file : bytes) (pos : nat)
    (record_len : Z) (fields : list dbf_field) (cont_idx : nat)
    (contours : list Z) : result (list Z) :=
  match n with
  | O => Ok contours
  | S n' =>
      '(rec, pos) ← file_read file pos record_len;
      if Z.of_nat (length rec) <? record_len then Ok contours
      else
        first ← byte_at rec 0;
        if first =? 42 then
          read_records n' file pos record_len fields cont_idx
            (contours ++ [0])
        else
          v ← record_value fields cont_idx rec;
          read_records n' file pos record_len fields cont_idx
            (contours ++ [v])
  end.

Definition read_dbf_contours (file : bytes) : result (list Z) :=
  '(header, _) ← file_read file 0 32;
  num_records ← (bs ← unpack_exact 4 (slice header 4 8); Ok (le_val bs));
  header_len ← (bs ← unpack_exact 2 (slice header 8 10); Ok (le_val bs));
  record_len ← (bs ← unpack_exact 2 (slice header 10 12); Ok (le_val bs));
  fields ← read_fields (S (length file)) file 32 [];
  match find_cont fields 0 with
  | None => Raise DbfFieldContNotFound
  | Some cont_idx =>
      read_records (Z.to_nat num_records) file (Z.to_nat header_len)
        record_len fields cont_idx []
  end.

End Dbf.

(** A conversion for the examples: unsigned decimal integers, on which it
    agrees with [int(round(float(s)))]; [ValueError] otherwise. *)
Fixpoint digits_value (s : bytes) (acc : Z) : result Z :=
  match s with
  | [] => Ok acc
  | b :: rest =>
      let v := byte_val b in
      if (48 <=? v) && (v <=? 57) then digits_value rest (10 * acc + (v - 48))
      else Raise ValueError
  end.

Definition decimal_value (s : bytes) : result Z :=
  match s with
  | [] => Raise ValueError
  | _ => digits_value s 0
  end.

(** A conversion for the examples that fails on the text "999": an
    [OverflowError] there, [decimal_value] elsewhere. *)
Definition decimal_value_but_999 (s : bytes) : result Z :=
  if bool_decide (Byte.to_N <$> s = [57; 57; 57]%N) then Raise OverflowError
  else decimal_value s.

(** ** Specification-side definitions for the DBF reader *)

(** The bytes of the record slot [k]: [record_len] bytes from
    [header_len + k * record_len]. *)
Definition record_slot (file : bytes) (header_len record_len k : nat)
  : bytes :=
  slice file (header_len + k * record_len) (header_len + (k + 1) * record_len).

(** The slot [k] lies within the file. *)
Definition slot_full (file : bytes) (header_len record_len k : nat) : Prop :=
  (header_len + (k + 1) * record_len <= length file)%nat.

(** What the reader returns for the record in [slot]: 0 when its first byte
    is the deletion marker, the value of the field CONT otherwise. *)
Definition slot_value (int_round_float : bytes -> result Z)
    (fields : list dbf_field) (cont_idx : nat) (slot : bytes) (v : Z)
  : Prop :=
  exists first,
    byte_at slot 0 = Ok first
    /\ (first = 42 -> v = 0)
    /\ (first <> 42 ->
        record_value int_round_float fields cont_idx slot = Ok v).

(** A DBF file for the examples: one numeric field [cont] of width 4 and
    three records, " 120", a deleted " 999" and " 140". *)
Definition example_dbf : bytes :=
  (* header: version, date, 3 records, header of 65 bytes, records of 5 *)
  [x03; x7e; x0b; x04; x03; x00; x00; x00; x41; x00; x05; x00]
  ++ repeat x00 20
  (* descriptor: name "cont", type N, width 4, no decimals *)
  ++ [x63; x6f; x6e; x74; x00; x00; x00; x00; x00; x00; x00; x4e;
      x00; x00; x00; x00; x04; x00] ++ repeat x00 14
  ++ [x0d]
  ++ [x20; x20; x31; x32; x30]
  ++ [x2a; x20; x39; x39; x39]
  ++ [x20; x20; x31; x34; x30].

(** ** The callers of the decoders and simplifiers

    The builders proper, from the bytes of their input files (or the rows
    of their queries) to the value they serialise.  What stays outside is
    the file system, the SQLite queries and the JSON text. *)

(** [[f(x) for x in l]] for an [f] that may raise: the first exception
    wins. *)
Fixpoint mapM {A B : Type} (f : A -> result B) (l : list A)
  : result (list B) :=
  match l with
  | [] => Ok []
  | x :: l' =>
      y ← f x;
      ys ← mapM f l';
      Ok (y :: ys)
  end.

(** A bounding box [(min_x, min_y, max_x, max_y)]. *)
Definition bounds : Type := float * float * float * float.

Module Overlay.

(** An entry of the contour list: the dict with the keys ["elev"],
    ["major"] and ["line"]. *)
Record contour : Type := Contour {
  elev : Z;
  major : bool;
  line : list point
}.

Section Round.

(** The builtin [round(x, ndigits)] on a float. *)
Variable round : float -> Z -> float.

(** [_round_line(line, digits)]; the inner two-element lists are pairs. *)
Definition _round_line (line : list point) (digits : Z) : list point :=
  (fun p : point => (round p.1 digits, round p.2 digits)) <$> line.

End Round.

(** [if len(contours) < len(shapes): contours.extend([0] * (..))]. *)
Definition pad_contours (contours : list Z) (shapes : nat) : list Z :=
  if (length contours <? shapes)%nat
  then contours ++ replicate (shapes - length contours) 0
  else contours.

End Overlay.

(** *** [build_jeju_overlay_data.py] *)
Module Jeju.
Import Overlay.

(** The body of the two loops of [compute_bounds]. *)
Definition bounds_step (acc : bounds) (p : point) : bounds :=
  let '(min_x, min_y, max_x, max_y) := acc in
  let '(x, y) := p in
  (py_min min_x x, py_min min_y y, py_max max_x x, py_max max_y y).

(** [compute_bounds(lines)]; [None] is the [RuntimeError] "No coordinates
    available for bounds". *)
Definition compute_bounds (lines : list (list point)) : option bounds :=
  let '(min_x, min_y, max_x, max_y) :=
    foldl (fun acc line => foldl bounds_step acc line)
      (infinity, infinity, neg_infinity, neg_infinity) lines in
  if (min_x =? infinity)%float then None
  else Some (min_x, min_y, max_x, max_y).

Definition _expand_bounds (b : bounds) (margin : float) : bounds :=
  let '(min_x, min_y, max_x, max_y) := b in
  (min_x - margin, min_y - margin, max_x + margin, max_y + margin)%float.

Section Rows.

Variable libm_sin libm_cos libm_tan : float -> float.
Variable libm_pow : float -> float -> result float.

(** The type of the values of the column CONT and [int(round(float(v)))]
    on them. *)
Variable value : Type.
Variable int_round_float : value -> result Z.

(** [load_route_lines] from the geometry blob of the fetched row on. *)
Definition load_route_lines (blob : bytes)
  : result (list (list (float * float))) :=
  wkb ← _gpkg_blob_to_wkb blob;
  '(lines_ll, _) ← _parse_lines_from_wkb wkb 0;
  mapM (mapM (fun p : point =>
                Projection._lon_lat_to_unified libm_sin libm_cos libm_tan
                  libm_pow p.1 p.2)) lines_ll.

(** The loop [for line in lines] of [load_contours]. *)
Fixpoint row_lines (lines : list (list point)) (elev_int : Z)
    (is_major : bool) (tolerance : float) (contours : list contour)
  : result (list contour) :=
  match lines with
  | [] => Ok contours
  | line :: rest =>
      if (length line <? 2)%nat
      then row_lines rest elev_int is_major tolerance contours
      else
        simplified ← _simplify_line libm_pow line tolerance;
        if (length simplified <? 2)%nat
        then row_lines rest elev_int is_major tolerance contours
        else row_lines rest elev_int is_major tolerance
               (contours ++ [Contour elev_int is_major simplified])
  end.

(** The loop [for geom_blob, elev in rows] of [load_contours]. *)
Fixpoint rows_loop (rows : list (bytes * value))
    (simplify_minor simplify_major : float) (contours : list contour)
  : result (list contour) :=
  match rows with
  | [] => Ok contours
  | (geom_blob, elev) :: rest =>
      wkb ← _gpkg_blob_to_wkb geom_blob;
      '(lines, _) ← _parse_lines_from_wkb wkb 0;
      elev_int ← int_round_float elev;
      let is_major := elev_int mod 100 =? 0 in
      let tolerance := if is_major then simplify_major else simplify_minor in
      contours ← row_lines lines elev_int is_major tolerance contours;
      rows_loop rest simplify_minor simplify_major contours
  end.

(** [load_contours] on the rows its query returns. *)
Definition load_contours (rows : list (bytes * value))
    (simplify_minor simplify_major : float) : result (list contour) :=
  rows_loop rows simplify_minor simplify_major [].

End Rows.
End Jeju.

(** *** [build_seoul_overlay_from_shp.py] *)
Module Seoul.
Import Overlay.

Section Build.

Variable libm_pow : float -> float -> result float.
Variable int_round_float : bytes -> result Z.
Variable round : float -> Z -> float.

Variable elev_step major_step : Z.
Variable major_tolerance minor_tolerance bounds_padding : float.

(** The loop [for line in lines] of [build_overlay]. *)
Fixpoint shape_lines (lines : list (list point)) (elev : Z)
    (is_major : bool) (tolerance : float) (output_lines : list contour)
  : result (list contour) :=
  match lines with
  | [] => Ok output_lines
  | line :: rest =>
      simplified ← _simplify_line libm_pow line tolerance;
      if (length simplified <? 2)%nat
      then shape_lines rest elev is_major tolerance output_lines
      else shape_lines rest elev is_major tolerance
             (output_lines
              ++ [Contour elev is_major (_round_line round simplified 2)])
  end.

(** The loop [for idx, lines in enumerate(shapes)], from [idx]. *)
Fixpoint shapes_loop (shapes : list (list (list point))) (idx : nat)
    (contours : list Z) (output_lines : list contour)
  : result (list contour) :=
  match shapes with
  | [] => Ok output_lines
  | lines :: rest =>
      elev ← get contours idx;
      if (0 <? elev_step) && negb (elev mod elev_step =? 0)
      then shapes_loop rest (S idx) contours output_lines
      else
        let is_major := (0 <? major_step) && (elev mod major_step =? 0) in
        let tolerance :=
          if is_major then major_tolerance else minor_tolerance in
        output_lines ← shape_lines lines elev is_major tolerance output_lines;
        shapes_loop rest (S idx) contours output_lines
  end.

(** [build_overlay] from the bytes of the two files to the bounds and the
    contours of the dict it writes. *)
Definition build_overlay (shp dbf : bytes)
  : result (list float * list contour) :=
  '(bounds, shapes) ← read_shp_polylines shp;
  contours ← read_dbf_contours int_round_float dbf;
  let contours := pad_contours contours (length shapes) in
  output_lines ← shapes_loop shapes 0 contours [];
  let '(min_x, min_y, max_x, max_y) := bounds in
  Ok ([round (min_x - bounds_padding) 2; round (min_y - bounds_padding) 2;
       round (max_x + bounds_padding) 2; round (max_y + bounds_padding) 2]%float,
      output_lines).

End Build.
End Seoul.

(** *** [build_region_overlays_from_shp.py] *)
Module Region.
Import Overlay.

Definition _merge_bounds (a : option bounds) (b : bounds) : bounds :=
  match a with
  | None => b
  | Some (a0, a1, a2, a3) =>
      let '(b0, b1, b2, b3) := b in
      (py_min a0 b0, py_min a1 b1, py_max a2 b2, py_max a3 b3)
  end.

Section Build.

Variable int_round_float : bytes -> result Z.
Variable round : float -> Z -> float.

(** The loop [for line in lines] of [build_region]. *)
Fixpoint shape_lines (lines : list (list point)) (elev : Z)
    (is_major : bool) (min_spacing : float) (max_points : Z)
    (all_lines : list contour) : result (list contour) :=
  match lines with
  | [] => Ok all_lines
  | line :: rest =>
      simplified ← _simplify_line_fast line min_spacing max_points;
      if (length simplified <? 2)%nat
      then shape_lines rest elev is_major min_spacing max_points all_lines
      else shape_lines rest elev is_major min_spacing max_points
             (all_lines
              ++ [Contour elev is_major (_round_line round simplified 2)])
  end.

(** The loop [for idx, lines in enumerate(shapes)], from [idx]. *)
Fixpoint shapes_loop (shapes : list (list (list point))) (idx : nat)
    (contours : list Z) (all_lines : list contour)
  : result (list contour) :=
  match shapes with
  | [] => Ok all_lines
  | lines :: rest =>
      elev ← get contours idx;
      if negb (elev mod 20 =? 0)
      then shapes_loop rest (S idx) contours all_lines
      else
        let is_major := elev mod 100 =? 0 in
        let min_spacing := (if is_major then 22 else 32)%float in
        let max_points := if is_major then 150 else 110 in
        all_lines ← shape_lines lines elev is_major min_spacing max_points
                      all_lines;
        shapes_loop rest (S idx) contours all_lines
  end.

(** The loop [for code in codes], on the shapefile and the attribute file
    of each code. *)
Fixpoint codes_loop (files : list (bytes * bytes))
    (merged_bounds : option bounds) (all_lines : list contour)
  : result (option bounds * list contour) :=
  match files with
  | [] => Ok (merged_bounds, all_lines)
  | (shp, dbf) :: rest =>
      '(bounds, shapes) ← read_shp_polylines shp;
      contours ← read_dbf_contours int_round_float dbf;
      let contours := pad_contours contours (length shapes) in
      let merged_bounds := Some (_merge_bounds merged_bounds bounds) in
      all_lines ← shapes_loop shapes 0 contours all_lines;
      codes_loop rest merged_bounds all_lines
  end.

(** [build_region] from the files of the region's codes to the bounds and
    the contours of the dict it writes; [Ok None] is the [RuntimeError]
    "No bounds parsed for region". *)
Definition build_region (files : list (bytes * bytes))
  : result (option (list float * list contour)) :=
  '(merged_bounds, all_lines) ← codes_loop files None [];
  match merged_bounds with
  | None => Ok None
  | Some (min_x, min_y, max_x, max_y) =>
      Ok (Some ([round (min_x - 2000) 2; round (min_y - 2000) 2;
                 round (max_x + 2000) 2; round (max_y + 2000) 2]%float,
                all_lines))
  end.

End Build.
End Region.

(** ** Specification-side definitions for the callers *)

(** A box holds a point: no coordinate of the point is beyond a bound. *)
Definition box_holds (b : bounds) (p : point) : Prop :=
  let '(min_x, min_y, max_x, max_y) := b in
  (p.1 <? min_x)%float = false /\ (p.2 <? min_y)%float = false
  /\ (max_x <? p.1)%float = false /\ (max_y <? p.2)%float = false.

(** A box holds another. *)
Definition box_within (inner outer : bounds) : Prop :=
  let '(i0, i1, i2, i3) := inner in
  let '(o0, o1, o2, o3) := outer in
  (i0 <? o0)%float = false /\ (i1 <? o1)%float = false
  /\ (o2 <? i2)%float = false /\ (o3 <? i3)%float = false.

(** The 100 bytes of a shapefile header: 32 bytes, the shape type, the four
    bounds (as bit patterns) and 32 more bytes. *)
Definition encode_shp_header (pre : bytes) (shape_type : Z)
    (box : Z * Z * Z * Z) (post : bytes) : bytes :=
  let '(b0, b1, b2, b3) := box in
  pre ++ pack_uint true 4 shape_type
  ++ pack_uint true 8 b0 ++ pack_uint true 8 b1
  ++ pack_uint true 8 b2 ++ pack_uint true 8 b3 ++ post.

(** A record of a shapefile: its number, the length of its content in
    16-bit words (both big-endian) and the content. *)
Definition encode_shp_frame (number : Z) (content : bytes) : bytes :=
  pack_uint false 4 number
  ++ pack_uint false 4 (Z.of_nat (length content) / 2)
  ++ content.

(** A decoded float that is not below zero: a zero of either sign, a NaN,
    or a number or an infinity whose sign bit is clear. *)
Definition not_negative (x : spec_float) : Prop :=
  match x with
  | S754_zero _ | S754_nan => True
  | S754_infinity s | S754_finite s _ _ => s = false
  end.

(** The shape of a list the two passes return on a line from [a] to [b]:
    it starts with [a], ends with [b] or a point equal to it, and has a
    second point when [a] and [b] differ. *)
Definition fast_shape_of (a b : point) (l : list point) : Prop :=
  exists body p_last,
    l = a :: body
    /\ last l = Some p_last
    /\ (p_last = b \/ point_neq p_last b = false)
    /\ (point_neq a b = true -> body <> []).

(** A record content that fits a frame: a whole number of 16-bit words,
    fewer than [2^31]. *)
Definition shp_framed (content : bytes) : Prop :=
  Z.of_nat (length content) mod 2 = 0
  /\ Z.of_nat (length content) / 2 < 2 ^ 31.

(** What may follow the last whole record of a shapefile: fewer than the 8
    bytes of a record header, or a header with less content than it
    declares. *)
Definition shp_truncated (tail : bytes) : Prop :=
  (length tail < 8)%nat
  \/ exists number words partial,
       tail = pack_uint false 4 number ++ pack_uint false 4 words ++ partial
       /\ 0 <= words < 2 ^ 31
       /\ Z.of_nat (length partial) < 2 * words.

(** The lines a builder simplifies, each with the elevation of its shape:
    the shape [idx] has the entry [idx] of the attribute list, 0 when the
    list is too short, and its lines count when [keep] holds of it. *)
Fixpoint selected_lines (keep : Z -> bool)
    (shapes : list (list (list point))) (idx : nat) (contours : list Z)
  : list (Z * list point) :=
  match shapes with
  | [] => []
  | lines :: rest =>
      let elev := default 0 (contours !! idx) in
      (if keep elev then (fun line => (elev, line)) <$> lines else [])
      ++ selected_lines keep rest (S idx) contours
  end.

(** A shapefile for the examples: a header of type 3 with the bounds
    (0, 0, 1, 1), a record with the line from (0, 0) to (1, 1), a null
    shape, and three stray bytes. *)
Definition example_shp : bytes :=
  let one := 0x3FF0000000000000 in
  encode_shp_header (repeat x00 32) 3 (0, 0, one, one) (repeat x00 32)
  ++ encode_shp_frame 1
       (encode_shp_record 3 (repeat x00 32) [[(0, 0); (one, one)]] [])
  ++ encode_shp_frame 2 [x00; x00; x00; x00]
  ++ [x00; x00; x00].

(** A rounding for the examples, right on the floats that have no more
    than [ndigits] decimals: the identity. *)
Definition round_exact (x : float) (ndigits : Z) : float := x.

(** The contour [build_region] writes for a line of a shape of elevation
    [e]: flagged major on a multiple of 100, the line simplified within a
    spacing of 22 and a budget of 150 points when major, 32 and 110
    otherwise, and rounded. *)
Definition region_contour_of (round : float -> Z -> float) (e : Z)
    (line : list point) (c : Overlay.contour) : Prop :=
  let is_major := e mod 100 =? 0 in
  Overlay.elev c = e /\ Overlay.major c = is_major
  /\ exists simplified,
       _simplify_line_fast line (if is_major then 22 else 32)%float
         (if is_major then 150 else 110) = Ok simplified
       /\ Overlay.line c = Overlay._round_line round simplified 2
       /\ (2 <= length simplified)%nat
       /\ Z.of_nat (length simplified) <= (if is_major then 150 else 110).

(** A contour of [build_region] comes from a line of a shape of one of the
    files, with the elevation of the record of that shape (0 when the
    attribute file has none), a multiple of 20. *)
Definition region_contour_from (int_round_float : bytes -> result Z)
    (round : float -> Z -> float) (files : list (bytes * bytes))
    (c : Overlay.contour) : Prop :=
  exists shp dbf box shapes vals idx lines line,
    (shp, dbf) ∈ files
    /\ read_shp_polylines shp = Ok (box, shapes)
    /\ read_dbf_contours int_round_float dbf = Ok vals
    /\ shapes !! idx = Some lines
    /\ line ∈ lines
    /\ default 0 (vals !! idx) mod 20 = 0
    /\ region_contour_of round (default 0 (vals !! idx)) line c.

(** The contour [load_contours] appends for a line of a row of elevation
    [sel.1]: major on a multiple of 100, simplified with the tolerance of
    its class. *)
Definition jeju_contour_of (libm_pow : float -> float -> result float)
    (simplify_minor simplify_major : float)
    (sel : Z * list point) (c : Overlay.contour) : Prop :=
  Overlay.elev c = sel.1
  /\ Overlay.major c = (sel.1 mod 100 =? 0)
  /\ _simplify_line libm_pow sel.2
       (if sel.1 mod 100 =? 0 then simplify_major else simplify_minor)
     = Ok (Overlay.line c).

(** The lines of a decoded row [(lines, elev)] that [load_contours]
    simplifies, those of at least 2 points, each with the elevation. *)
Definition row_selected (d : list (list point) * Z) : list (Z * list point) :=
  (fun line => (d.2, line))
  <$> List.filter (fun line : list point => (2 <=? length line)%nat) d.1.

(** The C library of the examples with the equator added: the sine, the
    cosine and the tangent of 0. *)
Definition equator_sin (x : float) : float :=
  if (x =? 0)%float then 0%float else Projection.table_sin x.
Definition equator_cos (x : float) : float :=
  if (x =? 0)%float then 1%float else Projection.table_cos x.
Definition equator_tan (x : float) : float :=
  if (x =? 0)%float then 0%float else Projection.table_tan x.

(** * Properties *)

(** ** GeoPackage geometry extractor *)

Lemma envelope_code_bits (f : byte) :
  Z.land (Z.shiftr (byte_val f) 1) 7 = flag_bits_1_3 (byte_val f).
Proof. destruct f; reflexivity. Qed.

Lemma magic_decide (blob : bytes) :
  Byte.to_N <$> slice blob 0 2 = GP_MAGIC <-> take 2 blob = [x47; x50].
Proof.
  unfold slice, GP_MAGIC. rewrite drop_0. simpl.
  destruct blob as [|a [|b rest]]; simpl; try (split; discriminate).
  rewrite take_0. split.
  - intros H. injection H as Ha Hb.
    apply (f_equal Byte.of_N) in Ha, Hb.
    rewrite Byte.of_to_N in Ha, Hb. simpl in Ha, Hb. congruence.
  - intros H. injection H as -> ->. reflexivity.
Qed.

(** C5. [_gpkg_blob_to_wkb] raises exactly when the blob is shorter than 8
    bytes, or does not start with the magic [GP], or bits 1 to 3 of its flags
    byte (the byte at position 3) encode 5, 6 or 7; otherwise the result is
    the blob without its header of 8 bytes and its envelope, of 0 bytes
    for the code 0, 32 for 1, 48 for 2 and for 3, and 64 for 4.  The codes
    5 to 7 are reported in the exception. *)
Theorem gpkg_blob_to_wkb_spec (blob : bytes) :
  (is_ok (_gpkg_blob_to_wkb blob) = false <->
     (length blob < 8)%nat \/ take 2 blob <> [x47; x50] \/
     exists flags, blob !! 3%nat = Some flags /\
                   5 <= flag_bits_1_3 (byte_val flags) <= 7)
  /\ (forall flags,
        (8 <= length blob)%nat -> take 2 blob = [x47; x50] ->
        blob !! 3%nat = Some flags ->
        (flag_bits_1_3 (byte_val flags) = 0 ->
         _gpkg_blob_to_wkb blob = Ok (drop (8 + 0) blob))
        /\ (flag_bits_1_3 (byte_val flags) = 1 ->
            _gpkg_blob_to_wkb blob = Ok (drop (8 + 32) blob))
        /\ (flag_bits_1_3 (byte_val flags) = 2 ->
            _gpkg_blob_to_wkb blob = Ok (drop (8 + 48) blob))
        /\ (flag_bits_1_3 (byte_val flags) = 3 ->
            _gpkg_blob_to_wkb blob = Ok (drop (8 + 48) blob))
        /\ (flag_bits_1_3 (byte_val flags) = 4 ->
            _gpkg_blob_to_wkb blob = Ok (drop (8 + 64) blob))
        /\ (5 <= flag_bits_1_3 (byte_val flags) <= 7 ->
            _gpkg_blob_to_wkb blob
            = Raise (UnsupportedEnvelopeCode
                       (flag_bits_1_3 (byte_val flags))))).
Proof.
  unfold _gpkg_blob_to_wkb.
  destruct (Nat.ltb_spec (length blob) 8) as [Hlen|Hlen]; simpl.
  { split; [split; auto | intros; lia]. }
  destruct (bool_decide_reflect (Byte.to_N <$> slice blob 0 2 = GP_MAGIC))
    as [Hm|Hm]; simpl; rewrite magic_decide in Hm.
  2:{ split; [split; auto | intros; contradiction]. }
  destruct (lookup_lt_is_Some_2 blob 3%nat ltac:(lia)) as [f Hf].
  unfold byte_at. rewrite Hf. cbn [mbind result_bind].
  rewrite envelope_code_bits.
  assert (Hrange : 0 <= flag_bits_1_3 (byte_val f) <= 7).
  { unfold flag_bits_1_3.
    destruct (Z.testbit _ 1), (Z.testbit _ 2), (Z.testbit _ 3); simpl; lia. }
  set (c := flag_bits_1_3 (byte_val f)) in *.
  split.
  - assert (Hc : c = 0 \/ c = 1 \/ c = 2 \/ c = 3 \/ c = 4 \/ 5 <= c <= 7)
      by lia.
    split.
    + intros Hfail. right; right. exists f. split; [done|].
      destruct Hc as [-> | [-> | [-> | [-> | [-> | Hc]]]]];
        simpl in Hfail; try discriminate; exact Hc.
    + intros [Hl | [Hb | (f' & Hf' & Hc')]]; [lia | contradiction |].
      assert (f' = f) by congruence. subst f'. fold c in Hc'.
      assert (Hc7 : c = 5 \/ c = 6 \/ c = 7) by lia.
      destruct Hc7 as [-> | [-> | ->]]; reflexivity.
  - intros f' _ _ Hf'.
    assert (f' = f) by congruence. subst f'. fold c.
    repeat split; try (intros ->; reflexivity).
    intros Hc.
    assert (Hc7 : c = 5 \/ c = 6 \/ c = 7) by lia.
    destruct Hc7 as [-> | [-> | ->]]; reflexivity.
Qed.

(** The extractor on blobs of each envelope code: the flags [0x00], [0x03],
    [0x04], [0x06] and [0x09] carry the codes 0 to 4, [0x0b] the code 5. *)
Lemma gpkg_blob_to_wkb_witness :
  let blob flags envelope :=
    [x47; x50; x00; flags; x00; x00; x00; x00]
      ++ repeat x00 envelope ++ [x01; x02] in
  _gpkg_blob_to_wkb (blob x00 0%nat) = Ok [x01; x02]
  /\ _gpkg_blob_to_wkb (blob x03 32%nat) = Ok [x01; x02]
  /\ _gpkg_blob_to_wkb (blob x04 48%nat) = Ok [x01; x02]
  /\ _gpkg_blob_to_wkb (blob x06 48%nat) = Ok [x01; x02]
  /\ _gpkg_blob_to_wkb (blob x09 64%nat) = Ok [x01; x02]
  /\ _gpkg_blob_to_wkb (blob x0b 64%nat) = Raise (UnsupportedEnvelopeCode 5).
Proof.
  intros blob.
  pose proof (fun flags n H8 Hgp H3 =>
                proj2 (gpkg_blob_to_wkb_spec (blob flags n)) flags H8 Hgp H3)
    as Hspec.
  destruct (Hspec x00 0%nat) as (H0 & _);
    [simpl; lia | reflexivity | reflexivity |].
  destruct (Hspec x03 32%nat) as (_ & H1 & _);
    [simpl; lia | reflexivity | reflexivity |].
  destruct (Hspec x04 48%nat) as (_ & _ & H2 & _);
    [simpl; lia | reflexivity | reflexivity |].
  destruct (Hspec x06 48%nat) as (_ & _ & _ & H3 & _);
    [simpl; lia | reflexivity | reflexivity |].
  destruct (Hspec x09 64%nat) as (_ & _ & _ & _ & H4 & _);
    [simpl; lia | reflexivity | reflexivity |].
  destruct (Hspec x0b 64%nat) as (_ & _ & _ & _ & _ & H5);
    [simpl; lia | reflexivity | reflexivity |].
  split; [exact (H0 eq_refl)|]. split; [exact (H1 eq_refl)|].
  split; [exact (H2 eq_refl)|]. split; [exact (H3 eq_refl)|].
  split; [exact (H4 eq_refl)|].
  apply H5. vm_compute. split; discriminate.
Defined.

(** ** The order of binary64 floats

    The facts on [<] the simplifier's proofs need, from the specification
    of the primitive floats ([SFcompare] on their decoded form).  A NaN is
    below, above and equal to nothing. *)

Ltac sf_signs :=
  repeat match goal with s : bool |- _ => destruct s end;
  simpl; try discriminate; try reflexivity; try congruence.

Ltac sf_compare :=
  repeat match goal with
  | |- context [Z.compare ?a ?b] => destruct (Z.compare_spec a b)
  | H : context [Z.compare ?a ?b] |- _ => destruct (Z.compare_spec a b)
  | |- context [PosDef.Pos.compare_cont Eq ?a ?b] =>
      change (PosDef.Pos.compare_cont Eq a b) with (Pos.compare a b);
      destruct (Pos.compare_spec a b)
  | H : context [PosDef.Pos.compare_cont Eq ?a ?b] |- _ =>
      change (PosDef.Pos.compare_cont Eq a b) with (Pos.compare a b) in H;
      destruct (Pos.compare_spec a b)
  end; simpl in *; try discriminate; try reflexivity; try lia.

Lemma SFltb_trans (a b c : spec_float) :
  SFltb a b = true -> SFltb b c = true -> SFltb a c = true.
Proof.
  unfold SFltb, SFcompare.
  destruct a as [sa|sa| |sa ma ea], b as [sb|sb| |sb mb eb],
    c as [sc|sc| |sc mc ec]; sf_signs; intros; sf_compare.
Qed.

Lemma SFltb_irrefl (a : spec_float) : SFltb a a = false.
Proof.
  unfold SFltb, SFcompare.
  destruct a as [sa|sa| |sa ma ea]; sf_signs; sf_compare.
Qed.

(** Two floats that both take part in a true comparison are comparable. *)
Lemma SFltb_below (x a b z : spec_float) :
  SFltb x a = true -> SFltb b z = true -> SFltb b a = false ->
  SFltb a z = true.
Proof.
  unfold SFltb, SFcompare.
  destruct a as [sa|sa| |sa ma ea], b as [sb|sb| |sb mb eb],
    z as [sc|sc| |sc mc ec], x as [sx|sx| |sx mx ex];
    sf_signs; intros; sf_compare.
Qed.

Lemma SFltb_above (x m t d : spec_float) :
  SFltb x m = true -> SFltb t d = true -> SFltb m d = false ->
  SFltb t m = true.
Proof.
  unfold SFltb, SFcompare.
  destruct m as [sa|sa| |sa ma ea], t as [sb|sb| |sb mb eb],
    d as [sc|sc| |sc mc ec], x as [sx|sx| |sx mx ex];
    sf_signs; intros; sf_compare.
Qed.

(** A product of a float with itself is a NaN or has the sign bit clear. *)
Lemma SFmul_square_sign (t : spec_float) :
  match SF64mul t t with
  | S754_zero s | S754_infinity s | S754_finite s _ _ => s = false
  | S754_nan => True
  end.
Proof.
  unfold SF64mul, SFmul.
  destruct t as [s|s| |s m e]; try (destruct s; reflexivity); [exact I|].
  replace (xorb s s) with false by (destruct s; reflexivity).
  unfold binary_round_aux.
  destruct (shr_fexp prec emax (Z.pos (m * m)) (e + e) loc_Exact) as [mrs' e'].
  destruct (shr_fexp prec emax _ e' loc_Exact) as [mrs'' e''].
  destruct (shr_m mrs''); [reflexivity | | exact I].
  destruct (e'' <=? emax - prec); reflexivity.
Qed.

Lemma float_ltb_trans (a b c : float) :
  (a <? b)%float = true -> (b <? c)%float = true -> (a <? c)%float = true.
Proof. rewrite !ltb_spec. apply SFltb_trans. Qed.

Lemma float_ltb_irrefl (a : float) : (a <? a)%float = false.
Proof. rewrite ltb_spec. apply SFltb_irrefl. Qed.

Lemma float_ltb_below (x a b z : float) :
  (x <? a)%float = true -> (b <? z)%float = true ->
  (b <? a)%float = false -> (a <? z)%float = true.
Proof. rewrite !ltb_spec. apply SFltb_below. Qed.

Lemma float_ltb_above (x m t d : float) :
  (x <? m)%float = true -> (t <? d)%float = true ->
  (m <? d)%float = false -> (t <? m)%float = true.
Proof. rewrite !ltb_spec. apply SFltb_above. Qed.

(** Whatever exceeds a square [t * t] exceeds [-1], the initial
    [max_dist_sq]. *)
Lemma float_square_above_init (t d : float) :
  (t * t <? d)%float = true -> (-1 <? d)%float = true.
Proof.
  rewrite !ltb_spec, mul_spec.
  pose proof (SFmul_square_sign (Prim2SF t)) as Hs.
  change (Prim2SF (-1)) with (S754_finite true 4503599627370496 (-52)).
  destruct (SF64mul (Prim2SF t) (Prim2SF t)) as [s|s| |s m e];
    try subst s; unfold SFltb, SFcompare;
    destruct (Prim2SF d) as [sd|sd| |sd md ed]; sf_signs; sf_compare.
Qed.

(** The square of a float is that of its opposite: the squared tolerance
    does not see the sign of the tolerance. *)
Lemma SFmul_opp (x : spec_float) :
  SF64mul (SFopp x) (SFopp x) = SF64mul x x.
Proof.
  unfold SF64mul, SFmul, SFopp.
  destruct x as [s|s| |s m e]; try reflexivity; by destruct s.
Qed.

Lemma float_square_opp (t : float) : (- t * - t = t * t)%float.
Proof.
  apply Prim2SF_inj. rewrite !mul_spec, opp_spec. apply SFmul_opp.
Qed.

Lemma SFeqb_refl_of_eq (x y : spec_float) :
  SFeqb x y = true -> SFeqb x x = true.
Proof.
  unfold SFeqb, SFcompare.
  destruct x as [sa|sa| |sa ma ea], y as [sb|sb| |sb mb eb];
    sf_signs; intros; sf_compare.
Qed.

(** A float equal to some float is not a NaN: it is equal to itself. *)
Lemma float_eqb_refl_of_eq (x y : float) :
  (x =? y)%float = true -> (x =? x)%float = true.
Proof. rewrite !FloatAxioms.eqb_spec. apply SFeqb_refl_of_eq. Qed.

(** ** The error monad *)

Ltac rsimpl := cbn [mbind result_bind mret result_ret] in *.

Lemma bind_Ok_inv {A B : Type} (r : result A) (k : A -> result B) (y : B) :
  (x ← r; k x) = Ok y -> exists x, r = Ok x /\ k x = Ok y.
Proof. destruct r as [x|e]; rsimpl; [eauto | discriminate]. Qed.

Lemma get_Ok {A : Type} (l : list A) (i : nat) (x : A) :
  get l i = Ok x <-> l !! i = Some x.
Proof.
  unfold get. destruct (l !! i); split; intros H; try congruence; discriminate.
Qed.

Lemma get_lookup {A : Type} (l : list A) (i : nat) (x : A) :
  l !! i = Some x -> get l i = Ok x.
Proof. apply get_Ok. Qed.

(** ** Exact simplification: the loop and its recursive reading *)

Section ExactSimplifierProofs.

Variable libm_pow : float -> float -> result float.

Open Scope nat_scope.

Lemma scan_range_dists (points : list point) (a b : point) (count : nat) :
  forall k m idx,
    k + count <= length points ->
    scan_range libm_pow points a b k count m idx =
      (ds ← dists libm_pow a b (take count (drop k points));
       Ok (scan_floats ds k m idx)).
Proof.
  induction count as [|count IH]; intros k m idx Hlen.
  - rewrite take_0. reflexivity.
  - destruct (lookup_lt_is_Some_2 points k ltac:(lia)) as [pk Hpk].
    rewrite (drop_S _ _ _ Hpk). cbn [take firstn scan_range dists].
    rewrite (get_lookup _ _ _ Hpk). rsimpl.
    destruct (_distance_sq_point_to_segment libm_pow pk a b) as [d|e]; rsimpl;
      [|reflexivity].
    destruct (m <? d)%float eqn:Hlt; rewrite IH by lia;
      destruct (dists libm_pow a b _) as [ds|e]; rsimpl; try reflexivity;
      cbn [scan_floats]; rewrite Hlt; reflexivity.
Qed.

Lemma scan_floats_shift (ds : list float) (k : nat) :
  forall k0 m idx,
    scan_floats ds (k + k0) m (Nat.add k <$> idx) =
      ((scan_floats ds k0 m idx).1, Nat.add k <$> (scan_floats ds k0 m idx).2).
Proof.
  induction ds as [|d ds IH]; intros k0 m idx; cbn [scan_floats].
  - reflexivity.
  - destruct (m <? d)%float.
    + rewrite <- IH. rewrite Nat.add_succ_r. reflexivity.
    + rewrite <- IH. rewrite Nat.add_succ_r. reflexivity.
Qed.

Lemma dists_length (a b : point) (mid : list point) (ds : list float) :
  dists libm_pow a b mid = Ok ds -> length ds = length mid.
Proof.
  revert ds. induction mid as [|p mid IH]; intros ds H; cbn [dists] in H.
  - injection H as <-. reflexivity.
  - apply bind_Ok_inv in H as (d & _ & H).
    apply bind_Ok_inv in H as (ds' & Hds & H). injection H as <-.
    simpl. f_equal. auto.
Qed.

Lemma dists_lookup (a b : point) (mid : list point) (ds : list float) :
  dists libm_pow a b mid = Ok ds ->
  forall k p, mid !! k = Some p ->
    exists d, ds !! k = Some d /\ _distance_sq_point_to_segment libm_pow p a b = Ok d.
Proof.
  revert ds. induction mid as [|q mid IH]; intros ds H k p Hk.
  - discriminate.
  - cbn [dists] in H.
    apply bind_Ok_inv in H as (d & Hd & H).
    apply bind_Ok_inv in H as (ds' & Hds & H). injection H as <-.
    destruct k as [|k]; simpl in *.
    + injection Hk as <-. eauto.
    + eapply IH; eauto.
Qed.

Lemma scan_floats_bound (ds : list float) :
  forall k m idx m' s,
    scan_floats ds k m idx = (m', Some s) ->
    idx = Some s \/ k <= s < k + length ds.
Proof.
  induction ds as [|d ds IH]; intros k m idx m' s H; cbn [scan_floats] in H.
  - injection H as _ ->. auto.
  - destruct (m <? d)%float; apply IH in H as [H|H]; simpl.
    + injection H as <-. right. lia.
    + right. lia.
    + auto.
    + right. lia.
Qed.

(** *** The flags written over [keep] *)

Lemma overlay_length (mask : list bool) :
  forall keep pos, length (overlay keep pos mask) = length keep.
Proof.
  induction mask as [|m mask IH]; intros keep pos; cbn [overlay]; [done|].
  rewrite IH. destruct m; [apply length_insert | done].
Qed.

Lemma overlay_app (l r : list bool) :
  forall keep pos,
    overlay keep pos (l ++ r) = overlay (overlay keep pos l) (pos + length l) r.
Proof.
  induction l as [|m l IH]; intros keep pos; cbn [overlay app length].
  - rewrite Nat.add_0_r. reflexivity.
  - rewrite IH. f_equal. lia.
Qed.

Lemma overlay_false (n : nat) :
  forall keep pos, overlay keep pos (replicate n false) = keep.
Proof. induction n as [|n IH]; intros keep pos; simpl; auto. Qed.

Lemma insert_true_comm (keep : list bool) (i j : nat) :
  <[i := true]> (<[j := true]> keep) = <[j := true]> (<[i := true]> keep).
Proof.
  destruct (decide (i = j)) as [->|Hne]; [done|].
  apply list_insert_insert_ne. done.
Qed.

Lemma overlay_insert (mask : list bool) (s : nat) :
  forall keep pos,
    overlay (<[s := true]> keep) pos mask = <[s := true]> (overlay keep pos mask).
Proof.
  induction mask as [|m mask IH]; intros keep pos; cbn [overlay]; [done|].
  destruct m; [|apply IH].
  rewrite insert_true_comm. apply IH.
Qed.

Lemma overlay_comm (m1 m2 : list bool) :
  forall keep p1 p2,
    overlay (overlay keep p1 m1) p2 m2 = overlay (overlay keep p2 m2) p1 m1.
Proof.
  induction m1 as [|m m1 IH]; intros keep p1 p2; cbn [overlay]; [done|].
  destruct m; [|apply IH].
  rewrite IH. f_equal. apply overlay_insert.
Qed.

Lemma overlay_fill (mask : list bool) :
  forall pre post,
    overlay (pre ++ replicate (length mask) false ++ post) (length pre) mask
    = pre ++ mask ++ post.
Proof.
  induction mask as [|m mask IH]; intros pre post; cbn [overlay]; [done|].
  cbn [length replicate app].
  assert (Hins : (if m then <[length pre := true]>
                              (pre ++ false :: replicate (length mask) false ++ post)
                  else pre ++ false :: replicate (length mask) false ++ post)
                 = (pre ++ [m]) ++ replicate (length mask) false ++ post).
  { rewrite <- app_assoc. cbn [app]. destruct m; [|done].
    rewrite insert_app_r_alt by lia. rewrite Nat.sub_diag. done. }
  rewrite Hins.
  replace (S (length pre)) with (length (pre ++ [m]))
    by (rewrite length_app; simpl; lia).
  rewrite IH. rewrite <- app_assoc. done.
Qed.

(** *** The recursive reading does not depend on its budget *)

Lemma simplify_mask_fuel (tol_sq : float) (f : nat) :
  forall g a mid b,
    length mid < f -> length mid < g ->
    simplify_mask libm_pow f tol_sq a mid b = simplify_mask libm_pow g tol_sq a mid b.
Proof.
  induction f as [|f IH]; intros g a mid b Hf Hg; [lia|].
  destruct g as [|g]; [lia|]. cbn [simplify_mask].
  destruct (dists libm_pow a b mid) as [ds|e] eqn:Hds; rsimpl; [|done].
  destruct (scan_floats ds 0 (-1)%float None) as [m [s|]] eqn:Hscan; [|done].
  destruct (tol_sq <? m)%float; [|done].
  apply scan_floats_bound in Hscan as [Hscan|Hs]; [discriminate|].
  apply dists_length in Hds.
  destruct (lookup_lt_is_Some_2 mid s ltac:(lia)) as [ps Hps].
  rewrite (get_lookup _ _ _ Hps). rsimpl.
  rewrite (IH g ps (drop (S s) mid) b)
    by (rewrite length_drop; lia).
  rewrite (IH g a (take s mid) ps)
    by (rewrite length_take; lia).
  reflexivity.
Qed.

Lemma simplify_mask_length (tol_sq : float) (f : nat) :
  forall a mid b mask,
    simplify_mask libm_pow f tol_sq a mid b = Ok mask -> length mask = length mid.
Proof.
  induction f as [|f IH]; intros a mid b mask H; [discriminate|].
  cbn [simplify_mask] in H.
  apply bind_Ok_inv in H as (ds & Hds & H).
  destruct (scan_floats ds 0 (-1)%float None) as [m [s|]] eqn:Hscan.
  2:{ injection H as <-. apply length_replicate. }
  destruct (tol_sq <? m)%float.
  2:{ injection H as <-. apply length_replicate. }
  apply bind_Ok_inv in H as (ps & Hps & H).
  apply bind_Ok_inv in H as (right & Hr & H).
  apply bind_Ok_inv in H as (left & Hl & H). injection H as <-.
  apply IH in Hr, Hl. apply get_Ok in Hps.
  apply lookup_lt_Some in Hps.
  rewrite length_app. cbn [length]. rewrite Hr, Hl.
  rewrite length_drop, length_take. lia.
Qed.

(** *** The loop computes the recursive reading *)

(** The points strictly between positions [i] and [j]. *)
Abbreviation between points i j := (take (j - (i + 1)) (drop (i + 1) points)).

Lemma between_split (points : list point) (i j s : nat) (ps : point) :
  j <= length points -> (between points i j) !! s = Some ps ->
  points !! (i + 1 + s) = Some ps
  /\ take s (between points i j) = between points i (i + 1 + s)
  /\ drop (S s) (between points i j) = between points (i + 1 + s) j.
Proof.
  intros Hj Hs.
  apply lookup_take_Some in Hs as [Hs Hlt]. rewrite lookup_drop in Hs.
  split; [exact Hs|]. split.
  - rewrite take_take. f_equal. lia.
  - replace (j - (i + 1)) with (S s + (j - (i + 1 + s + 1))) by lia.
    rewrite <- take_drop_commute, drop_drop. f_equal. f_equal. lia.
Qed.

Lemma simplify_step_dists (points : list point) (tol_sq : float)
    (keep : list bool) (i j : nat) (a b : point) :
  i < j < length points -> points !! i = Some a -> points !! j = Some b ->
  simplify_step libm_pow points tol_sq keep i j =
    (ds ← dists libm_pow a b (between points i j);
     let '(m, idx) := scan_floats ds 0 (-1)%float None in
     match idx with
     | Some s =>
         if (tol_sq <? m)%float
         then Ok (<[i + 1 + s := true]> keep, [(i + 1 + s, j); (i, i + 1 + s)])
         else Ok (keep, [])
     | None => Ok (keep, [])
     end).
Proof.
  intros Hij Ha Hb. unfold simplify_step.
  rewrite (get_lookup _ _ _ Ha), (get_lookup _ _ _ Hb). rsimpl.
  rewrite scan_range_dists by lia.
  destruct (dists libm_pow a b (between points i j)) as [ds|e]; rsimpl; [|done].
  replace (scan_floats ds (i + 1) (-1)%float None)
    with (scan_floats ds (i + 1 + 0) (-1)%float (Nat.add (i + 1) <$> None))
    by (rewrite Nat.add_0_r; reflexivity).
  rewrite scan_floats_shift.
  destruct (scan_floats ds 0 (-1)%float None) as [m [s|]]; reflexivity.
Qed.

Lemma simplify_loop_range (points : list point) (tol_sq : float) (d : nat) :
  forall i j keep rest a b,
    j - i <= d -> i < j < length points ->
    points !! i = Some a -> points !! j = Some b ->
    exists F0, F0 <= 2 * (j - i) - 1 /\ forall F',
      simplify_loop libm_pow (F0 + F') points tol_sq keep ((i, j) :: rest) =
        (mask ← simplify_mask libm_pow (j - i) tol_sq a (between points i j) b;
         simplify_loop libm_pow F' points tol_sq (overlay keep (i + 1) mask) rest).
Proof.
  induction d as [|d IH]; intros i j keep rest a b Hd Hij Ha Hb; [lia|].
  pose proof (simplify_step_dists points tol_sq keep i j a b Hij Ha Hb) as Hstep.
  destruct (j - i) as [|f] eqn:Hf; [lia|].
  cbn [simplify_mask].
  destruct (dists libm_pow a b (between points i j)) as [ds|e] eqn:Hds; rsimpl.
  2:{ exists 1. split; [lia|]. intros F'. cbn [Nat.add simplify_loop].
      rewrite Hstep. reflexivity. }
  destruct (scan_floats ds 0 (-1)%float None) as [m [s|]] eqn:Hscan.
  2:{ exists 1. split; [lia|]. intros F'. cbn [Nat.add simplify_loop].
      rewrite Hstep. rsimpl. rewrite overlay_false. reflexivity. }
  destruct (tol_sq <? m)%float eqn:Htol.
  2:{ exists 1. split; [lia|]. intros F'. cbn [Nat.add simplify_loop].
      rewrite Hstep. rsimpl. rewrite overlay_false. reflexivity. }
  apply scan_floats_bound in Hscan as [Hscan|Hs]; [discriminate|].
  pose proof (dists_length _ _ _ _ Hds) as Hlen.
  rewrite length_take, length_drop in Hlen.
  destruct (lookup_lt_is_Some_2 (between points i j) s) as [ps Hps].
  { rewrite length_take, length_drop. lia. }
  rewrite (get_lookup _ _ _ Hps). rsimpl.
  destruct (between_split points i j s ps ltac:(lia) Hps) as (Hx & Htake & Hdrop).
  rewrite Htake, Hdrop. set (x := i + 1 + s) in *.
  destruct (IH x j (<[x := true]> keep) ((i, x) :: rest) ps b
              ltac:(lia) ltac:(lia) Hx Hb) as (F1 & HF1 & Hright).
  rewrite (simplify_mask_fuel tol_sq f (j - x) ps (between points x j) b)
    by (rewrite length_take, length_drop; lia).
  rewrite (simplify_mask_fuel tol_sq f (x - i) a (between points i x) ps)
    by (rewrite length_take, length_drop; lia).
  destruct (simplify_mask libm_pow (j - x) tol_sq ps (between points x j) b)
    as [right|e] eqn:Hmr; rsimpl.
  2:{ exists (1 + F1). split; [lia|]. intros F'.
      cbn [Nat.add simplify_loop]. rewrite Hstep. rsimpl. cbn [app].
      apply Hright. }
  destruct (IH i x (overlay (<[x := true]> keep) (x + 1) right) rest a ps
              ltac:(lia) ltac:(lia) Ha Hx) as (F2 & HF2 & Hleft).
  exists (1 + F1 + F2). split; [lia|]. intros F'.
  replace (1 + F1 + F2 + F') with (S (F1 + (F2 + F'))) by lia.
  cbn [simplify_loop]. rewrite Hstep. rsimpl.
  cbn [app]. rewrite Hright. rsimpl. rewrite Hleft.
  destruct (simplify_mask libm_pow (x - i) tol_sq a (between points i x) ps)
    as [left|e] eqn:Hml; rsimpl; [|reflexivity].
  f_equal.
  apply simplify_mask_length in Hml.
  rewrite length_take, length_drop in Hml.
  rewrite overlay_app. cbn [overlay].
  replace (i + 1 + length left) with x by lia.
  replace (S x) with (x + 1) by lia.
  rewrite <- overlay_insert. apply overlay_comm.
Qed.

(** *** Selecting by flags *)

Lemma select_app {A : Type} (k1 k2 : list bool) (l1 l2 : list A) :
  length k1 = length l1 ->
  select (k1 ++ k2) (l1 ++ l2) = select k1 l1 ++ select k2 l2.
Proof.
  revert k1. induction l1 as [|x l1 IH]; intros [|b k1] Hlen;
    try discriminate; cbn [app select].
  - destruct l2; reflexivity.
  - injection Hlen as Hlen. rewrite IH by done. destruct b; reflexivity.
Qed.

Lemma select_false {A : Type} (l : list A) :
  forall n, select (replicate n false) l = [].
Proof. induction l as [|x l IH]; intros [|n]; simpl; auto. Qed.

Lemma select_true {A : Type} (l : list A) :
  select (replicate (length l) true) l = l.
Proof. induction l as [|x l IH]; simpl; [done|]. by rewrite IH. Qed.

Lemma select_sublist {A : Type} (l : list A) :
  forall keep, select keep l `sublist_of` l.
Proof.
  induction l as [|x l IH]; intros [|b keep]; cbn [select];
    try apply sublist_nil_l.
  destruct b; [apply sublist_skip | apply sublist_cons]; apply IH.
Qed.

Lemma Forall_select {A : Type} (P : A -> Prop) (l : list A) :
  forall keep, Forall P l -> Forall P (select keep l).
Proof.
  intros keep H. revert keep. induction H as [|x l Hx H IH]; intros [|b keep]; cbn [select];
    try constructor.
  destruct b; [constructor|]; auto.
Qed.

Lemma select_length_eq {A B : Type} (keep : list bool) :
  forall (l1 : list A) (l2 : list B),
    length l1 = length l2 ->
    length (select keep l1) = length (select keep l2).
Proof.
  induction keep as [|k keep IH]; intros [|x l1] [|y l2] H;
    try discriminate; cbn [select]; try reflexivity.
  injection H as H. destruct k; cbn [length]; auto.
Qed.

Lemma select_middle {A : Type} (l r : list A) (x : A) :
  get (l ++ x :: r) (length l) = Ok x
  /\ take (length l) (l ++ x :: r) = l
  /\ drop (S (length l)) (l ++ x :: r) = r.
Proof.
  split; [|split].
  - apply get_lookup. by apply list_lookup_middle.
  - apply take_app_length.
  - rewrite cons_middle, app_assoc. apply drop_app_length'.
    rewrite length_app. simpl. lia.
Qed.

(** *** The running maximum *)

Lemma run_max_ge (ds : list float) :
  forall m, m = run_max m ds \/ (m <? run_max m ds)%float = true.
Proof.
  induction ds as [|d ds IH]; intros m; cbn [run_max]; [auto|].
  destruct (m <? d)%float eqn:Hlt; [|apply IH].
  right. destruct (IH d) as [<-|H]; [done|].
  eapply float_ltb_trans; eauto.
Qed.

Lemma run_max_ub (ds : list float) :
  forall m, Forall (fun d => (run_max m ds <? d)%float = false) ds.
Proof.
  induction ds as [|d ds IH]; intros m; cbn [run_max]; constructor; [|apply IH].
  set (m1 := if (m <? d)%float then d else m).
  assert (H1 : (m1 <? d)%float = false).
  { subst m1. destruct (m <? d)%float eqn:Hlt; [apply float_ltb_irrefl|done]. }
  destruct (run_max_ge ds m1) as [<-|H]; [done|].
  destruct (run_max m1 ds <? d)%float eqn:Hd; [|done].
  rewrite (float_ltb_trans _ _ _ H Hd) in H1. discriminate.
Qed.

(** What the inner loop returns: either nothing beat the initial maximum,
    or the maximum is the first distance to beat all those before it, and
    none after it is larger. *)
Lemma scan_floats_char (ds : list float) :
  forall k m idx m' idx',
    scan_floats ds k m idx = (m', idx') ->
    (m' = m /\ idx' = idx /\ Forall (fun d => (m <? d)%float = false) ds)
    \/ (exists l r, ds = l ++ m' :: r /\ idx' = Some (k + length l)
                    /\ (run_max m l <? m')%float = true
                    /\ Forall (fun d => (m' <? d)%float = false) r).
Proof.
  induction ds as [|d ds IH]; intros k m idx m' idx' H; cbn [scan_floats] in H.
  - injection H as <- <-. left. auto.
  - destruct (m <? d)%float eqn:Hlt; apply IH in H.
    + right. destruct H as [(-> & -> & Hub)|(l & r & -> & -> & Hmax & Hub)].
      * exists [], ds. cbn [app length run_max]. rewrite Nat.add_0_r.
        repeat split; auto.
      * exists (d :: l), r. cbn [app length run_max]. rewrite Hlt.
        repeat split; auto; f_equal; lia.
    + destruct H as [(-> & -> & Hub)|(l & r & -> & -> & Hmax & Hub)].
      * left. auto.
      * right. exists (d :: l), r. cbn [app length run_max]. rewrite Hlt.
        repeat split; auto; f_equal; lia.
Qed.

Lemma scan_floats_stay (ds : list float) :
  forall k m idx,
    Forall (fun d => (m <? d)%float = false) ds ->
    scan_floats ds k m idx = (m, idx).
Proof.
  induction ds as [|d ds IH]; intros k m idx H; cbn [scan_floats]; [done|].
  inversion H as [|? ? Hd Hds]; subst. rewrite Hd. auto.
Qed.

(** Scanning a part of the distances before the maximum stays below it. *)
Lemma scan_floats_below (bound m' : float) (l : list float) :
  (bound <? m')%float = true ->
  Forall (fun d => (bound <? d)%float = false) l ->
  forall rest k c idx,
    (c <? m')%float = true ->
    exists c' idx',
      scan_floats (l ++ rest) k c idx = scan_floats rest (k + length l) c' idx'
      /\ (c' <? m')%float = true.
Proof.
  intros Hbound Hub. induction Hub as [|d l Hd Hub IH]; intros rest k c idx Hc.
  - exists c, idx. cbn [app length]. rewrite Nat.add_0_r. auto.
  - cbn [app scan_floats length]. rewrite Nat.add_succ_r.
    destruct (c <? d)%float eqn:Hlt.
    + apply IH. exact (float_ltb_below c d bound m' Hlt Hbound Hd).
    + apply IH. done.
Qed.

(** The maximum of the distances is still the first maximum of any
    selection of them that retains it. *)
Lemma scan_floats_select (m m' : float) (l r : list float)
    (kl kr : list bool) (k : nat) (idx : option nat) :
  (run_max m l <? m')%float = true ->
  Forall (fun d => (m' <? d)%float = false) r ->
  scan_floats (select kl l ++ m' :: select kr r) k m idx
  = (m', Some (k + length (select kl l))).
Proof.
  intros Hmax Hub.
  assert (Hm : (m <? m')%float = true).
  { destruct (run_max_ge l m) as [Heq|Hlt]; [by rewrite Heq|].
    eapply float_ltb_trans; eauto. }
  destruct (scan_floats_below (run_max m l) m' (select kl l) Hmax
              (Forall_select _ _ _ (run_max_ub l m))
              (m' :: select kr r) k m idx Hm) as (c' & idx' & -> & Hc').
  cbn [scan_floats]. rewrite Hc'.
  apply scan_floats_stay. by apply Forall_select.
Qed.

(** *** Distances of a selection *)

Lemma dists_select (a b : point) (mid : list point) :
  forall ds keep,
    dists libm_pow a b mid = Ok ds ->
    dists libm_pow a b (select keep mid) = Ok (select keep ds).
Proof.
  induction mid as [|p mid IH]; intros ds keep H; cbn [dists] in H.
  - injection H as <-. reflexivity.
  - apply bind_Ok_inv in H as (d & Hd & H).
    apply bind_Ok_inv in H as (ds' & Hds & H). injection H as <-.
    destruct keep as [|[] keep]; cbn [select dists]; [done| |by apply IH].
    rewrite Hd. rsimpl. rewrite (IH _ _ Hds). reflexivity.
Qed.

Lemma dists_Forall (P : float -> Prop) (a b : point) (mid : list point) :
  forall ds,
    dists libm_pow a b mid = Ok ds -> Forall P ds ->
    Forall (fun p => exists d, _distance_sq_point_to_segment libm_pow p a b = Ok d
                               /\ P d) mid.
Proof.
  induction mid as [|p mid IH]; intros ds H HP; cbn [dists] in H; [done|].
  apply bind_Ok_inv in H as (d & Hd & H).
  apply bind_Ok_inv in H as (ds' & Hds & H). injection H as <-.
  inversion HP; subst. constructor; eauto.
Qed.

(** When the loop discards a range, no distance in it exceeds the squared
    tolerance. *)
Lemma scan_floats_discard (t : float) (ds : list float) (m : float)
    (idx : option nat) :
  scan_floats ds 0 (-1)%float None = (m, idx) ->
  idx = None \/ (t * t <? m)%float = false ->
  Forall (fun d => (t * t <? d)%float = false) ds.
Proof.
  intros Hscan Hdiscard.
  apply scan_floats_char in Hscan
    as [(-> & -> & Hub)|(l & r & -> & -> & Hmax & Hub)].
  - eapply Forall_impl; [exact Hub|]. intros d Hd. cbv beta in Hd.
    destruct (t * t <? d)%float eqn:Htd; [|done].
    apply float_square_above_init in Htd. congruence.
  - destruct Hdiscard as [Hnone|Htol]; [discriminate|].
    apply Forall_app. split; [|constructor; [exact Htol|]].
    + pose proof (run_max_ub l (-1)%float) as Hl.
      eapply Forall_impl; [exact Hl|]. intros d Hd. cbv beta in Hd.
      destruct (t * t <? d)%float eqn:Htd; [|done].
      pose proof (float_ltb_below _ _ _ _ Htd Hmax Hd) as Hdm.
      rewrite (float_ltb_trans _ _ _ Htd Hdm) in Htol. discriminate.
    + eapply Forall_impl; [exact Hub|]. intros d Hd. cbv beta in Hd.
      destruct (t * t <? d)%float eqn:Htd; [|done].
      rewrite (float_ltb_above _ _ _ _ Hmax Htd Hd) in Htol. discriminate.
Qed.

(** *** The distance of the code is the distance of the specification *)

(** [max(0.0, min(1.0, t))] clamps [t] to the unit interval. *)
Lemma clamp_min_max (t : float) : py_max 0 (py_min 1 t) = clamp t 0 1.
Proof.
  unfold py_max, py_min, clamp. destruct (t <? 1)%float; reflexivity.
Qed.

(** The clamp of the specification on the unit interval: 0 below it, the
    parameter itself inside, 1 above. *)
Lemma clamp_unit_cases (t : float) :
  ((t <? 0)%float = true -> clamp t 0 1 = 0%float)
  /\ ((0 <? t)%float = true -> (t <? 1)%float = true -> clamp t 0 1 = t)
  /\ ((1 <? t)%float = true -> clamp t 0 1 = 1%float).
Proof.
  unfold clamp. repeat split.
  - intros Hneg.
    rewrite (float_ltb_trans t 0 1 Hneg eq_refl).
    destruct (0 <? t)%float eqn:Hpos; [|reflexivity].
    pose proof (float_ltb_trans _ _ _ Hneg Hpos) as Habs.
    by rewrite float_ltb_irrefl in Habs.
  - by intros -> ->.
  - intros Habove.
    destruct (t <? 1)%float eqn:Hbelow; [|reflexivity].
    pose proof (float_ltb_trans _ _ _ Habove Hbelow) as Habs.
    by rewrite float_ltb_irrefl in Habs.
Qed.

Lemma distance_sq_clamped (p a b : point) :
  _distance_sq_point_to_segment libm_pow p a b
  = spec_distance_sq libm_pow p a b.
Proof.
  destruct p as [px py], a as [ax ay], b as [bx by_].
  unfold _distance_sq_point_to_segment, spec_distance_sq, vec_norm_sq,
    vec_is_zero, vec_dot, vec_sub, py_sq.
  cbn [fst snd].
  destruct (_ && _); [reflexivity|].
  destruct (py_div _ _) as [t|e]; rsimpl; [|reflexivity].
  rewrite clamp_min_max. reflexivity.
Qed.

(** *** The discarded points are within the tolerance *)

Lemma simplify_mask_within (t : float) (f : nat) :
  forall a mid b mask,
    simplify_mask libm_pow f (t * t)%float a mid b = Ok mask ->
    forall rest keep,
      within_tolerance libm_pow (t * t)%float (b :: rest) (true :: keep) ->
      within_tolerance libm_pow (t * t)%float (a :: mid ++ b :: rest)
        (true :: mask ++ true :: keep).
Proof.
  induction f as [|f IH]; intros a mid b mask H rest keep Hrest;
    [discriminate|].
  cbn [simplify_mask] in H.
  apply bind_Ok_inv in H as (ds & Hds & H).
  destruct (scan_floats ds 0 (-1)%float None) as [m idx] eqn:Hscan.
  assert (Hdiscard : idx = None \/ (t * t <? m)%float = false ->
                     mask = replicate (length mid) false ->
                     within_tolerance libm_pow (t * t)%float (a :: mid ++ b :: rest)
                       (true :: mask ++ true :: keep)).
  { intros Hd ->. apply wt_run; [|exact Hrest].
    eapply Forall_impl;
      [eapply dists_Forall; [exact Hds|]; eapply scan_floats_discard; eauto|].
    intros p (d & Hp & Hle). exists d. by rewrite <- distance_sq_clamped. }
  destruct idx as [s|]; [|injection H as <-; auto].
  destruct (t * t <? m)%float eqn:Htol; [|injection H as <-; auto].
  clear Hdiscard.
  apply bind_Ok_inv in H as (ps & Hps & H).
  apply bind_Ok_inv in H as (right & Hr & H).
  apply bind_Ok_inv in H as (left & Hl & H). injection H as <-.
  apply get_Ok in Hps.
  rewrite <- (take_drop_middle mid s ps Hps).
  rewrite <- !app_assoc. cbn [app].
  apply (IH _ _ _ _ Hl). apply (IH _ _ _ _ Hr). exact Hrest.
Qed.

(** *** Idempotence of the recursive reading *)

Lemma simplify_mask_idempotent (tol_sq : float) (f : nat) :
  forall a mid b mask,
    simplify_mask libm_pow f tol_sq a mid b = Ok mask ->
    forall g, length (select mask mid) < g ->
      simplify_mask libm_pow g tol_sq a (select mask mid) b
      = Ok (replicate (length (select mask mid)) true).
Proof.
  induction f as [|f IH]; intros a mid b mask H g Hg; [discriminate|].
  cbn [simplify_mask] in H.
  apply bind_Ok_inv in H as (ds & Hds & H).
  destruct (scan_floats ds 0 (-1)%float None) as [m idx] eqn:Hscan.
  assert (Hdiscard : mask = replicate (length mid) false ->
            simplify_mask libm_pow g tol_sq a (select mask mid) b
            = Ok (replicate (length (select mask mid)) true)).
  { intros ->. rewrite select_false. destruct g; [simpl in Hg; lia|].
    reflexivity. }
  destruct idx as [s|]; [|injection H as <-; auto].
  destruct (tol_sq <? m)%float eqn:Htol; [|injection H as <-; auto].
  clear Hdiscard.
  apply bind_Ok_inv in H as (ps & Hps & H).
  apply bind_Ok_inv in H as (right & Hr & H).
  apply bind_Ok_inv in H as (left & Hl & H). injection H as <-.
  apply get_Ok in Hps.
  pose proof (simplify_mask_length _ _ _ _ _ _ Hl) as Hll.
  pose proof (simplify_mask_length _ _ _ _ _ _ Hr) as Hlr.
  apply scan_floats_char in Hscan
    as [(_ & ? & _)|(dl & dr & -> & Hs & Hmax & Hub)]; [discriminate|].
  injection Hs as Hs. cbn [Nat.add] in Hs. subst s.
  pose proof (dists_length _ _ _ _ Hds) as Hlen.
  pose proof (dists_select a b mid _ (left ++ true :: right) Hds) as Hsel.
  rewrite length_app in Hlen. cbn [length] in Hlen.
  assert (Hmid : select (left ++ true :: right) mid
                 = select left (take (length dl) mid)
                   ++ ps :: select right (drop (S (length dl)) mid)).
  { rewrite <- (take_drop_middle mid (length dl) ps Hps) at 1.
    rewrite select_app by done. reflexivity. }
  rewrite select_app in Hsel by (rewrite Hll, length_take; lia).
  cbn [select] in Hsel. rewrite Hmid in *. clear Hmid.
  set (l' := select left (take (length dl) mid)) in *.
  set (r' := select right (drop (S (length dl)) mid)) in *.
  rewrite length_app in Hg. cbn [length] in Hg.
  destruct g as [|g]; [lia|].
  cbn [simplify_mask]. rewrite Hsel. rsimpl.
  rewrite (scan_floats_select _ _ _ _ _ _ 0 None Hmax Hub).
  rewrite Htol. cbn [Nat.add].
  assert (Hdll : length (select left dl) = length l').
  { apply select_length_eq. rewrite length_take. lia. }
  rewrite Hdll.
  destruct (select_middle l' r' ps) as (-> & -> & ->). rsimpl.
  rewrite (IH _ _ _ _ Hr) by (fold r'; lia). fold r'. rsimpl.
  rewrite (IH _ _ _ _ Hl) by (fold l'; lia). fold l'. rsimpl.
  f_equal. rewrite length_app. cbn [length].
  rewrite replicate_add. reflexivity.
Qed.

(** *** [_simplify_line] through the recursive reading *)

Lemma list_ends {A : Type} (l : list A) :
  2 <= length l -> exists a mid b, l = a :: mid ++ [b].
Proof.
  intros Hlen. destruct l as [|a l]; [simpl in Hlen; lia|].
  destruct (decide (l = [])) as [->|Hne]; [simpl in Hlen; lia|].
  destruct (proj2 (last_is_Some l) Hne) as [b Hb].
  apply last_Some in Hb as [mid ->]. eauto.
Qed.

Lemma simplify_loop_nil (F : nat) (points : list point) (tol_sq : float)
    (keep : list bool) :
  simplify_loop libm_pow F points tol_sq keep [] = Ok keep.
Proof. destruct F; reflexivity. Qed.

Lemma initial_keep (k : nat) :
  <[S k := true]> (<[0 := true]> (replicate (S (S k)) false))
  = [true] ++ replicate k false ++ [true].
Proof.
  simpl. f_equal. induction k as [|k IH]; simpl; [done|]. by f_equal.
Qed.

Lemma simplify_keep_mask (a b : point) (mid : list point) (tolerance : float) :
  simplify_keep libm_pow (a :: mid ++ [b]) tolerance =
    (mask ← simplify_mask libm_pow (S (length mid)) (tolerance * tolerance)%float a mid b;
     Ok (true :: mask ++ [true])).
Proof.
  unfold simplify_keep. set (points := a :: mid ++ [b]).
  assert (Hn : length points = S (S (length mid))).
  { subst points. cbn [length]. rewrite length_app. simpl. lia. }
  rewrite Hn.
  assert (Hkeep : <[S (S (length mid)) - 1 := true]>
                    (<[0 := true]> (replicate (S (S (length mid))) false))
                  = [true] ++ replicate (length mid) false ++ [true]).
  { replace (S (S (length mid)) - 1) with (S (length mid)) by lia.
    apply initial_keep. }
  rewrite Hkeep.
  assert (Ha : points !! 0 = Some a) by reflexivity.
  assert (Hb : points !! (S (S (length mid)) - 1) = Some b).
  { subst points. replace (S (S (length mid)) - 1) with (S (length mid)) by lia.
    cbn [lookup list_lookup]. by apply list_lookup_middle. }
  destruct (simplify_loop_range points (tolerance * tolerance)%float
              (S (S (length mid))) 0 (S (S (length mid)) - 1)
              ([true] ++ replicate (length mid) false ++ [true]) [] a b
              ltac:(lia) ltac:(lia) Ha Hb) as (F0 & HF0 & Hloop).
  replace (2 * S (S (length mid)))
    with (F0 + (2 * S (S (length mid)) - F0)) by lia.
  rewrite Hloop.
  replace (S (S (length mid)) - 1 - 0) with (S (length mid)) by lia.
  assert (Hbetween : between points 0 (S (S (length mid)) - 1) = mid).
  { subst points. cbn [Nat.add drop].
    replace (S (S (length mid)) - 1 - 1) with (length mid) by lia.
    apply take_app_length. }
  rewrite Hbetween.
  destruct (simplify_mask libm_pow _ _ a mid b) as [mask|e] eqn:Hmask; rsimpl; [|done].
  rewrite simplify_loop_nil. f_equal.
  apply simplify_mask_length in Hmask. rewrite <- Hmask.
  apply (overlay_fill mask [true] [true]).
Qed.

Lemma simplify_line_mask (a b : point) (mid : list point) (tolerance : float) :
  mid <> [] ->
  _simplify_line libm_pow (a :: mid ++ [b]) tolerance =
    (mask ← simplify_mask libm_pow (S (length mid)) (tolerance * tolerance)%float a mid b;
     Ok (a :: select mask mid ++ [b])).
Proof.
  intros Hmid. unfold _simplify_line.
  assert (Hlen : (length (a :: mid ++ [b]) <=? 2)%nat = false).
  { apply Nat.leb_gt. cbn [length]. rewrite length_app.
    destruct mid; [done|]. simpl. lia. }
  rewrite Hlen, simplify_keep_mask.
  destruct (simplify_mask libm_pow _ _ a mid b) as [mask|e] eqn:Hmask; rsimpl; [|done].
  apply simplify_mask_length in Hmask.
  cbn [select]. rewrite select_app by done. reflexivity.
Qed.

(** *** The exceptions of [_simplify_line] are those of the distance *)

Lemma dists_Raise (a b : point) (mid : list point) (e : exn) :
  dists libm_pow a b mid = Raise e ->
  exists p, p ∈ mid /\ _distance_sq_point_to_segment libm_pow p a b = Raise e.
Proof.
  induction mid as [|p mid IH]; cbn [dists]; [discriminate|].
  destruct (_distance_sq_point_to_segment libm_pow p a b) as [d|e'] eqn:Hd; rsimpl.
  - destruct (dists libm_pow a b mid) as [ds|e'] eqn:Hds; rsimpl; [discriminate|].
    intros H. injection H as ->.
    destruct IH as (q & Hq & Hqe); [done|]. exists q. split; [|done].
    by apply list_elem_of_further.
  - intros H. injection H as ->. exists p. split; [|done].
    apply list_elem_of_here.
Qed.

Lemma simplify_mask_Raise (tol_sq : float) (f : nat) :
  forall a mid b e,
    length mid < f ->
    simplify_mask libm_pow f tol_sq a mid b = Raise e ->
    exists p a' b',
      p ∈ mid /\ a' ∈ a :: mid /\ b' ∈ mid ++ [b]
      /\ _distance_sq_point_to_segment libm_pow p a' b' = Raise e.
Proof.
  induction f as [|f IH]; intros a mid b e Hf H; [lia|].
  cbn [simplify_mask] in H.
  destruct (dists libm_pow a b mid) as [ds|e'] eqn:Hds; rsimpl.
  2:{ injection H as ->. apply dists_Raise in Hds as (p & Hp & Hpe).
      exists p, a, b. repeat split; [done| | |done].
      - apply list_elem_of_here.
      - apply elem_of_app. right. apply list_elem_of_here. }
  destruct (scan_floats ds 0 (-1)%float None) as [m [s|]] eqn:Hscan;
    [|discriminate].
  destruct (tol_sq <? m)%float; [|discriminate].
  apply scan_floats_bound in Hscan as [Hscan|Hs]; [discriminate|].
  apply dists_length in Hds.
  destruct (lookup_lt_is_Some_2 mid s ltac:(lia)) as [ps Hps].
  rewrite (get_lookup _ _ _ Hps) in H. rsimpl.
  assert (Hmid := take_drop_middle mid s ps Hps).
  assert (Hin : forall p, p ∈ take s mid \/ p = ps \/ p ∈ drop (S s) mid ->
                          p ∈ mid).
  { intros p Hp. rewrite <- Hmid. rewrite elem_of_app, elem_of_cons. tauto. }
  destruct (simplify_mask libm_pow f tol_sq ps (drop (S s) mid) b) as [right|e'] eqn:Hr;
    rsimpl.
  2:{ injection H as ->.
      apply IH in Hr as (p & a' & b' & Hp & Ha' & Hb' & Hpe);
        [|rewrite length_drop; lia].
      exists p, a', b'. repeat split; [auto| | |done].
      - apply elem_of_cons in Ha' as [->|Ha']; apply list_elem_of_further; auto.
      - apply elem_of_app in Hb' as [Hb'|Hb']; apply elem_of_app; auto. }
  destruct (simplify_mask libm_pow f tol_sq a (take s mid) ps) as [left|e'] eqn:Hl;
    rsimpl; [discriminate|].
  injection H as ->.
  apply IH in Hl as (p & a' & b' & Hp & Ha' & Hb' & Hpe);
    [|rewrite length_take; lia].
  exists p, a', b'. repeat split; [auto| | |done].
  - apply elem_of_cons in Ha' as [->|Ha']; [apply list_elem_of_here|].
    apply list_elem_of_further; auto.
  - apply elem_of_app in Hb' as [Hb'|Hb']; apply elem_of_app; left; auto.
    apply list_elem_of_singleton in Hb' as ->. auto.
Qed.

(** *** From runs of discarded points to positions *)

Lemma within_tolerance_length (tol_sq : float) (points : list point)
    (keep : list bool) :
  within_tolerance libm_pow tol_sq points keep -> length keep = length points.
Proof.
  induction 1 as [a|a mid b rest keep Hmid Hrest IH]; [done|].
  cbn [length] in *. rewrite !length_app, length_replicate.
  cbn [length]. lia.
Qed.

Lemma enclosed_within_shift (tol_sq : float) (pre : list point)
    (kpre : list bool) (points : list point) (keep : list bool) (k : nat) :
  length kpre = length pre ->
  enclosed_within libm_pow tol_sq points keep k ->
  enclosed_within libm_pow tol_sq (pre ++ points) (kpre ++ keep) (length pre + k).
Proof.
  intros Hlen (i & j & p_i & p_j & p_k & d & Hikj & Hi & Hj & Hbetween
               & Hpi & Hpj & Hpk & Hd & Htol).
  exists (length pre + i), (length pre + j), p_i, p_j, p_k, d.
  repeat split; try lia; try done.
  - rewrite lookup_app_r by lia. rewrite <- Hi. f_equal. lia.
  - rewrite lookup_app_r by lia. rewrite <- Hj. f_equal. lia.
  - intros t Ht. rewrite lookup_app_r by lia. apply Hbetween. lia.
  - rewrite lookup_app_r by lia. rewrite <- Hpi. f_equal. lia.
  - rewrite lookup_app_r by lia. rewrite <- Hpj. f_equal. lia.
  - rewrite lookup_app_r by lia. rewrite <- Hpk. f_equal. lia.
Qed.

Lemma within_tolerance_enclosed (tol_sq : float) (points : list point)
    (keep : list bool) :
  within_tolerance libm_pow tol_sq points keep ->
  forall k, keep !! k = Some false -> enclosed_within libm_pow tol_sq points keep k.
Proof.
  induction 1 as [a|a mid b rest keep Hmid Hrest IH]; intros k Hk.
  - destruct k as [|k]; simpl in Hk; [discriminate|].
    rewrite lookup_nil in Hk. discriminate.
  - destruct (decide (k <= length mid)) as [Hle|Hgt].
    + (* in the first run *)
      destruct k as [|k]; [discriminate|].
      destruct (lookup_lt_is_Some_2 mid k ltac:(lia)) as [p_k Hp_k].
      rewrite Forall_lookup in Hmid.
      destruct (Hmid k p_k Hp_k) as (d & Hd & Htol).
      exists 0, (S (length mid)), a, b, p_k, d.
      repeat split; try lia; try done.
      * cbn [lookup list_lookup]. apply list_lookup_middle.
        by rewrite length_replicate.
      * intros t Ht. destruct t as [|t]; [lia|].
        change ((replicate (length mid) false ++ true :: keep) !! t
                = Some false).
        rewrite lookup_app_l by (rewrite length_replicate; lia).
        apply lookup_replicate. split; [done|lia].
      * cbn [lookup list_lookup]. by apply list_lookup_middle.
      * change ((mid ++ b :: rest) !! k = Some p_k).
        rewrite lookup_app_l by lia. done.
    + (* further on *)
      change (a :: mid ++ b :: rest) with ((a :: mid) ++ b :: rest).
      change (true :: replicate (length mid) false ++ true :: keep)
        with ((true :: replicate (length mid) false) ++ true :: keep).
      replace k with (length (a :: mid) + (k - S (length mid)))
        by (cbn [length]; lia).
      apply enclosed_within_shift.
      { cbn [length]. by rewrite length_replicate. }
      apply IH.
      change (true :: replicate (length mid) false ++ true :: keep)
        with ((true :: replicate (length mid) false) ++ true :: keep) in Hk.
      rewrite lookup_app_r in Hk
        by (cbn [length]; rewrite length_replicate; lia).
      cbn [length] in Hk. rewrite length_replicate in Hk. exact Hk.
Qed.

Close Scope nat_scope.

(** *** The theorems on [_simplify_line] *)

(** C2 (as amended).  On a polyline of more than 2 points and for every
    tolerance, [_simplify_line] raises only what the distance of the
    specification raises on three of its points (the loop ends and no
    subscript is out of range); and when it returns, the output is no
    longer than the input, starts with the first and ends with the last
    input point, and is the input filtered by the flags [keep], where every
    discarded point is [enclosed_within] the squared tolerance: its squared
    distance to the segment between its two enclosing kept points,
    neighbours in the output, is [spec_distance_sq] (the clamped projection
    of the specification) and is not above [tolerance * tolerance].  The
    bound is one of squares: the simplifier does with the tolerance
    [- tolerance] what it does with [tolerance], so the distance is bounded
    by the absolute value of the tolerance, not by a negative tolerance. *)
Theorem simplify_line_within_tolerance (points : list point)
    (tolerance : float) :
  (2 < length points)%nat ->
  (forall e, _simplify_line libm_pow points tolerance = Raise e ->
     exists p a b, p ∈ points /\ a ∈ points /\ b ∈ points
                   /\ spec_distance_sq libm_pow p a b = Raise e)
  /\ (forall out, _simplify_line libm_pow points tolerance = Ok out ->
        (length out <= length points)%nat
        /\ head out = head points /\ last out = last points
        /\ exists keep,
             simplify_keep libm_pow points tolerance = Ok keep
             /\ out = select keep points
             /\ length keep = length points
             /\ forall k, keep !! k = Some false ->
                  enclosed_within libm_pow (tolerance * tolerance)%float
                    points keep k)
  /\ _simplify_line libm_pow points (- tolerance)
     = _simplify_line libm_pow points tolerance.
Proof.
  intros Hlen.
  assert (Hsym : _simplify_line libm_pow points (- tolerance)
                 = _simplify_line libm_pow points tolerance).
  { unfold _simplify_line, simplify_keep. by rewrite float_square_opp. }
  match goal with
  | |- ?A /\ ?B /\ _ =>
      cut (A /\ B); [intros [HA HB]; split; [|split]; assumption|]
  end.
  clear Hsym.
  destruct (list_ends points ltac:(lia)) as (a & mid & b & ->).
  assert (Hmid : mid <> []).
  { intros ->. simpl in Hlen. lia. }
  rewrite simplify_line_mask by done.
  pose proof (simplify_keep_mask a b mid tolerance) as Hkeep.
  destruct (simplify_mask libm_pow (S (length mid)) (tolerance * tolerance)%float a mid b)
    as [mask|e'] eqn:Hmask; rsimpl.
  - split; [discriminate|]. intros out Hout. injection Hout as <-.
    pose proof (simplify_mask_length _ _ _ _ _ _ Hmask) as Hml.
    assert (Hwt : within_tolerance libm_pow (tolerance * tolerance)%float
                    (a :: mid ++ [b]) (true :: mask ++ [true])).
    { apply (simplify_mask_within _ _ _ _ _ _ Hmask [] []). constructor. }
    repeat split.
    + cbn [length]. rewrite !length_app. cbn [length].
      pose proof (sublist_length _ _ (select_sublist mid mask)). lia.
    + change (a :: select mask mid ++ [b]) with ((a :: select mask mid) ++ [b]).
      change (a :: mid ++ [b]) with ((a :: mid) ++ [b]).
      by rewrite !last_snoc.
    + exists (true :: mask ++ [true]). repeat split.
      * exact Hkeep.
      * cbn [select]. by rewrite select_app.
      * by apply within_tolerance_length in Hwt.
      * by apply within_tolerance_enclosed.
  - split; [|discriminate]. intros e He. injection He as <-.
    apply simplify_mask_Raise in Hmask as (p & a' & b' & Hp & Ha' & Hb' & Hpe);
      [|lia].
    exists p, a', b'. rewrite <- distance_sq_clamped.
    repeat split; [| | |done].
    + apply list_elem_of_further, elem_of_app. auto.
    + apply elem_of_cons in Ha' as [->|Ha']; [apply list_elem_of_here|].
      apply list_elem_of_further, elem_of_app. auto.
    + by apply list_elem_of_further.
Qed.

(** C8. [_simplify_line] is idempotent for a fixed tolerance: on its own
    output it returns that output. *)
Theorem simplify_line_idempotent (points : list point) (tolerance : float)
    (out : list point) :
  _simplify_line libm_pow points tolerance = Ok out ->
  _simplify_line libm_pow out tolerance = Ok out.
Proof.
  intros Hout.
  destruct (Nat.leb_spec (length points) 2) as [Hle|Hgt].
  { unfold _simplify_line in Hout.
    rewrite (proj2 (Nat.leb_le _ _) Hle) in Hout.
    injection Hout as <-. unfold _simplify_line.
    by rewrite (proj2 (Nat.leb_le _ _) Hle). }
  destruct (list_ends points ltac:(lia)) as (a & mid & b & ->).
  assert (Hmid : mid <> []).
  { intros ->. simpl in Hgt. lia. }
  rewrite simplify_line_mask in Hout by done.
  apply bind_Ok_inv in Hout as (mask & Hmask & Hout). injection Hout as <-.
  destruct (decide (select mask mid = [])) as [->|Hsel]; [reflexivity|].
  rewrite simplify_line_mask by done.
  rewrite (simplify_mask_idempotent _ _ _ _ _ _ Hmask) by lia. rsimpl.
  by rewrite select_true.
Qed.

End ExactSimplifierProofs.

(** The simplifier on a line of 10 points with the tolerance 1: the point
    [(1, 0.5)] is discarded between the kept points [(0, 0)] and
    [(2, -0.5)], at the squared distance [0.5294...] from their segment. *)
Lemma simplify_line_within_tolerance_witness :
  let points := [(0, 0); (1, 0.5); (2, -0.5); (3, 5); (4, 6); (5, 7);
                 (6, 8); (7, 9); (8, 9); (9, 9)]%float in
  let out := [(0, 0); (2, -0.5); (3, 5); (7, 9); (9, 9)]%float in
  (2 < length points)%nat
  /\ _simplify_line square_pow points 1%float = Ok out
  /\ (length out <= length points)%nat
  /\ head out = head points /\ last out = last points
  /\ enclosed_within square_pow (1 * 1)%float points
       [true; false; true; true; false; false; false; true; false; true] 1.
Proof.
  intros points out.
  assert (Hlen : (2 < length points)%nat) by (simpl; lia).
  assert (Hout : _simplify_line square_pow points 1%float = Ok out)
    by (vm_compute; reflexivity).
  destruct (simplify_line_within_tolerance square_pow points 1%float Hlen)
    as (_ & Hok & _).
  destruct (Hok out Hout) as (H1 & H2 & H3 & keep & Hkeep & _ & _ & Hin).
  assert (keep = [true; false; true; true; false; false; false; true;
                  false; true])
    by (vm_compute in Hkeep; congruence).
  subst keep.
  repeat split; try assumption. exact (Hin 1%nat eq_refl).
Defined.

(** At the tolerance [-1] the point [(1, 1)] is discarded between
    [(0, 0)] and [(2, 0)] although its distance to their segment, the square
    root of 1, is above the tolerance: the loop compares the squared
    distance 1 with the squared tolerance 1.  The squares of 0 and of 1 are
    settled before the C library is called. *)
Lemma simplify_line_negative_tolerance :
  _simplify_line square_pow [(0, 0); (1, 1); (2, 0)]%float (-1)%float
  = Ok [(0, 0); (2, 0)]%float
  /\ spec_distance_sq square_pow (1, 1)%float (0, 0)%float (2, 0)%float
     = Ok 1%float
  /\ (PrimFloat.sqrt 1 <=? -1)%float = false.
Proof. repeat split; vm_compute; reflexivity. Qed.

Lemma simplify_line_idempotent_witness :
  let points := [(0, 0); (1, 0.5); (2, -0.5); (3, 5); (4, 6); (5, 7);
                 (6, 8); (7, 9); (8, 9); (9, 9)]%float in
  let out := [(0, 0); (2, -0.5); (3, 5); (7, 9); (9, 9)]%float in
  _simplify_line square_pow points 1%float = Ok out
  /\ _simplify_line square_pow out 1%float = Ok out.
Proof.
  intros points out.
  assert (Hout : _simplify_line square_pow points 1%float = Ok out)
    by (vm_compute; reflexivity).
  split; [exact Hout|].
  exact (simplify_line_idempotent square_pow points 1%float out Hout).
Defined.

(** ** Fast simplification *)

Lemma get_last_Ok {A : Type} (l : list A) (x : A) :
  get_last l = Ok x <-> last l = Some x.
Proof.
  unfold get_last. destruct (last l); split; intros H; try congruence;
    discriminate.
Qed.

Lemma get_last_cons {A : Type} (x : A) (l : list A) :
  exists y, get_last (x :: l) = Ok y.
Proof.
  unfold get_last.
  destruct (proj2 (last_is_Some (x :: l)) ltac:(done)) as [y ->]. eauto.
Qed.

Lemma interior_ends {A : Type} (a b : A) (mid : list A) :
  interior (a :: mid ++ [b]) = mid.
Proof.
  unfold interior. cbn [length drop].
  rewrite length_app. cbn [length].
  replace (S (length mid + 1) - 2)%nat with (length mid) by lia.
  apply take_app_length.
Qed.

(** *** The spacing pass *)

Lemma spacing_scan_sublist (spacing_sq : float) (l : list point) :
  forall last, spacing_scan spacing_sq last l `sublist_of` l.
Proof.
  induction l as [|p l IH]; intros last; cbn [spacing_scan]; [done|].
  destruct (spacing_sq <=? spacing_dist_sq last p)%float.
  - apply sublist_skip, IH.
  - apply sublist_cons, IH.
Qed.

(** Each point the spacing pass appends is far enough from the point kept
    before it. *)
Lemma spacing_scan_spaced (spacing_sq : float) (l : list point) :
  forall last t p q,
    (last :: spacing_scan spacing_sq last l) !! t = Some p ->
    (last :: spacing_scan spacing_sq last l) !! S t = Some q ->
    (spacing_sq <=? spacing_dist_sq p q)%float = true.
Proof.
  induction l as [|x l IH]; intros last t p q Hp Hq; cbn [spacing_scan] in *.
  - destruct t; discriminate.
  - destruct (spacing_sq <=? spacing_dist_sq last x)%float eqn:Hx.
    + destruct t as [|t].
      * injection Hp as <-. injection Hq as <-. exact Hx.
      * exact (IH x t p q Hp Hq).
    + exact (IH last t p q Hp Hq).
Qed.

Lemma spacing_filter_ends (a b : point) (mid : list point)
    (min_spacing : float) :
  let scanned := spacing_scan (min_spacing * min_spacing)%float a mid in
  exists s_last,
    last (a :: scanned) = Some s_last
    /\ spacing_filter (a :: mid ++ [b]) min_spacing
       = Ok (if point_neq s_last b then (a :: scanned) ++ [b]
             else a :: scanned).
Proof.
  intros scanned. unfold spacing_filter.
  rewrite interior_ends.
  change (get (a :: mid ++ [b]) 0) with (Ok a). rsimpl.
  destruct (get_last_cons a scanned) as [s_last Hs].
  subst scanned. rewrite Hs. rsimpl.
  assert (Hb : get_last (a :: mid ++ [b]) = Ok b).
  { apply get_last_Ok. change (a :: mid ++ [b]) with ((a :: mid) ++ [b]).
    apply last_snoc. }
  rewrite Hb. rsimpl. apply get_last_Ok in Hs. eauto.
Qed.

Lemma spacing_filter_sublist (points simplified : list point)
    (min_spacing : float) :
  (2 <= length points)%nat ->
  spacing_filter points min_spacing = Ok simplified ->
  simplified `sublist_of` points /\ (1 <= length simplified)%nat.
Proof.
  intros Hlen H.
  destruct (list_ends points Hlen) as (a & mid & b & ->).
  destruct (spacing_filter_ends a b mid min_spacing) as (s_last & _ & Heq).
  rewrite Heq in H. injection H as <-.
  pose proof (spacing_scan_sublist (min_spacing * min_spacing)%float mid a)
    as Hsub.
  destruct (point_neq s_last b).
  - split; [|simpl; lia].
    cbn [app]. apply sublist_skip. by apply sublist_app.
  - split; [|simpl; lia].
    apply sublist_skip. by apply sublist_inserts_r.
Qed.

(** *** The stride pass *)

Lemma gather_Ok_lookup {A : Type} (l : list A) (idxs : list nat) :
  Forall (fun i => (i < length l)%nat) idxs ->
  exists g, gather l idxs = Ok g /\ length g = length idxs.
Proof.
  induction 1 as [|i idxs Hi Hall (g & Hg & Hlen)]; cbn [gather]; [eauto|].
  destruct (lookup_lt_is_Some_2 l i Hi) as [x Hx].
  rewrite (get_lookup _ _ _ Hx), Hg. rsimpl. exists (x :: g).
  split; [done|]. simpl. by rewrite Hlen.
Qed.

Lemma gather_take {A : Type} (l : list A) (stop : nat) (idxs : list nat) :
  Forall (fun i => (i < stop)%nat) idxs ->
  gather (take stop l) idxs = gather l idxs.
Proof.
  induction 1 as [|i idxs Hi Hall IH]; cbn [gather]; [done|].
  unfold get. rewrite lookup_take_lt by done. by rewrite IH.
Qed.

Lemma gather_range_sublist {A : Type} (l : list A) (step count : nat) :
  (1 <= step)%nat ->
  forall start g,
    gather l (range_from start step count) = Ok g ->
    g `sublist_of` drop start l.
Proof.
  intros Hstep. induction count as [|count IH]; intros start g H;
    cbn [range_from gather] in H.
  - injection H as <-. apply sublist_nil_l.
  - apply bind_Ok_inv in H as (x & Hx & H).
    apply bind_Ok_inv in H as (g' & Hg' & H). injection H as <-.
    apply get_Ok in Hx. rewrite (drop_S _ _ _ Hx).
    apply sublist_skip. apply IH in Hg'.
    etransitivity; [exact Hg'|].
    replace (start + step)%nat with (S start + (step - 1))%nat by lia.
    rewrite <- drop_drop. apply sublist_drop.
Qed.

Lemma range_from_length (start step count : nat) :
  length (range_from start step count) = count.
Proof.
  revert start. induction count as [|count IH]; intros start; simpl; auto.
Qed.

Lemma range_from_bound (step count : nat) :
  forall start stop,
    (start + count * step < stop + step)%nat -> (1 <= step)%nat ->
    Forall (fun i => (i < stop)%nat) (range_from start step count).
Proof.
  induction count as [|count IH]; intros start stop Hb Hstep;
    cbn [range_from]; constructor.
  - simpl in Hb. lia.
  - apply IH; [|done]. simpl in Hb. lia.
Qed.

Lemma py_range_bound (start stop step : nat) :
  (1 <= step)%nat ->
  Forall (fun i => (i < stop)%nat) (py_range start stop step).
Proof.
  intros Hstep. unfold py_range.
  destruct (decide (stop <= start)%nat) as [Hss|Hss].
  - replace (stop - start)%nat with 0%nat by lia.
    rewrite Nat.div_small by lia. constructor.
  - apply range_from_bound; [|done].
    pose proof (Nat.Div0.mul_div_le (stop - start + (step - 1)) step) as Hle.
    rewrite Nat.mul_comm in Hle. lia.
Qed.

Lemma point_neq_self (p q : point) :
  point_neq p q = false -> point_neq p p = false.
Proof.
  unfold point_neq. intros H. apply negb_false_iff in H.
  apply andb_true_iff in H as [H1 H2].
  apply float_eqb_refl_of_eq in H1, H2. by rewrite H1, H2.
Qed.

(** The stride pass on a non-empty [simplified]: it raises nothing, keeps
    at most one point per stride besides the two ends, and returns a
    subsequence. *)
Lemma stride_pass (simplified : list point) (step : nat) :
  (1 <= step)%nat -> (1 <= length simplified)%nat ->
  (length simplified = 1%nat ->
   forall p, simplified = [p] -> point_neq p p = false) ->
  exists first sampled t_last s_last,
    get simplified 0 = Ok first
    /\ gather simplified (py_range 1 (length simplified - 1) step) = Ok sampled
    /\ get_last (first :: sampled) = Ok t_last
    /\ get_last simplified = Ok s_last
    /\ length sampled = ((length simplified - 1 - 1 + (step - 1)) / step)%nat
    /\ (if point_neq t_last s_last then (first :: sampled) ++ [s_last]
        else first :: sampled) `sublist_of` simplified.
Proof.
  intros Hstep Hlen Hone.
  destruct simplified as [|first rest]; [simpl in Hlen; lia|].
  pose proof (py_range_bound 1 (length (first :: rest) - 1) step Hstep) as Hb.
  destruct (gather_Ok_lookup (first :: rest)
              (py_range 1 (length (first :: rest) - 1) step))
    as (sampled & Hsampled & Hslen).
  { eapply Forall_impl; [exact Hb|]. intros i Hi. cbv beta in Hi. lia. }
  destruct (get_last_cons first sampled) as [t_last Ht].
  destruct (get_last_cons first rest) as [s_last Hs].
  exists first, sampled, t_last, s_last.
  repeat split; try done.
  { rewrite Hslen. unfold py_range. by rewrite range_from_length. }
  apply get_last_Ok in Ht, Hs.
  destruct (decide (rest = [])) as [->|Hrest].
  - (* a single point *)
    unfold py_range in Hsampled. cbn [length Nat.sub Nat.add] in Hsampled.
    rewrite Nat.div_small in Hsampled by lia.
    cbn in Hsampled. injection Hsampled as <-.
    cbn in Ht, Hs. injection Ht as <-. injection Hs as <-.
    by rewrite (Hone eq_refl first eq_refl).
  - apply last_Some in Hs as [front Hfront].
    destruct front as [|f front]; [by injection Hfront as _ ->|].
    injection Hfront as <- ->.
    rewrite <- (gather_take _ _ _ Hb) in Hsampled.
    apply (gather_range_sublist _ _ _ Hstep) in Hsampled.
    replace (length (first :: front ++ [s_last]) - 1)%nat
      with (length (first :: front)) in Hsampled
      by (cbn [length]; rewrite length_app; simpl; lia).
    change (first :: front ++ [s_last])
      with ((first :: front) ++ [s_last]) in Hsampled.
    rewrite take_app_length in Hsampled. cbn [drop] in Hsampled.
    destruct (point_neq t_last s_last).
    + cbn [app]. apply sublist_skip. by apply sublist_app.
    + apply sublist_skip. by apply sublist_inserts_r.
Qed.

Lemma py_ceil_div_pos (a b : Z) :
  0 < b -> 0 < a ->
  exists q, py_ceil_div a b = Ok q /\ 1 <= q /\ a <= b * q.
Proof.
  intros Hb Ha. unfold py_ceil_div.
  rewrite (proj2 (Z.eqb_neq b 0)) by lia.
  exists (- (- a / b)). split; [done|].
  pose proof (Z.mul_div_le (- a) b Hb).
  assert (- a / b < 0) by (apply Z.div_lt_upper_bound; lia).
  lia.
Qed.

(** The number of sampled interior points is within the budget. *)
Lemma stride_count (k m q : Z) :
  3 <= m -> m < k -> 1 <= q -> k - 2 <= (m - 2) * q ->
  Z.of_nat ((Z.to_nat k - 1 - 1 + (Z.to_nat q - 1)) / Z.to_nat q) <= m - 2.
Proof.
  intros Hm Hk Hq Hle.
  rewrite Nat2Z.inj_div.
  apply Z.lt_succ_r, Z.div_lt_upper_bound; [lia|].
  nia.
Qed.

Lemma spacing_filter_single (points : list point) (min_spacing : float)
    (p : point) :
  (2 <= length points)%nat ->
  spacing_filter points min_spacing = Ok [p] -> point_neq p p = false.
Proof.
  intros Hlen H.
  destruct (list_ends points Hlen) as (a & mid & b & ->).
  destruct (spacing_filter_ends a b mid min_spacing) as (s_last & Hs & Heq).
  rewrite Heq in H. clear Heq.
  destruct (point_neq s_last b) eqn:Hneq.
  - injection H as _ H. by destruct (spacing_scan _ a mid).
  - injection H as -> H. rewrite H in Hs. injection Hs as <-.
    by apply point_neq_self in Hneq.
Qed.

Lemma spacing_filter_Ok (points : list point) (min_spacing : float) :
  (2 <= length points)%nat ->
  exists simplified, spacing_filter points min_spacing = Ok simplified.
Proof.
  intros Hlen. destruct (list_ends points Hlen) as (a & mid & b & ->).
  destruct (spacing_filter_ends a b mid min_spacing) as (s_last & _ & ->).
  eauto.
Qed.

(** [_simplify_line_fast] past the early returns, with a stride of at least
    1: the stride pass of [stride_pass]. *)
Lemma simplify_line_fast_stride (points simplified : list point)
    (min_spacing : float) (max_points q : Z) :
  (2 < length points)%nat ->
  spacing_filter points min_spacing = Ok simplified ->
  max_points < Z.of_nat (length simplified) ->
  py_ceil_div (Z.of_nat (length simplified) - 2) (max_points - 2) = Ok q ->
  let step := Z.to_nat (if q <? 1 then 1 else q) in
  exists out,
    _simplify_line_fast points min_spacing max_points = Ok out
    /\ out `sublist_of` simplified
    /\ (length out <=
        (length simplified - 1 - 1 + (step - 1)) / step + 2)%nat.
Proof.
  intros Hlen Hsf Hmax Hq step.
  assert (Hstep : (1 <= step)%nat).
  { subst step. destruct (Z.ltb_spec q 1); lia. }
  destruct (spacing_filter_sublist points simplified min_spacing ltac:(lia) Hsf) as [_ Hs1].
  destruct (stride_pass simplified step Hstep Hs1)
    as (first & sampled & t_last & s_last & Hfirst & Hsampled & Ht & Hs
        & Hcount & Hsub).
  { intros _ p ->. eapply spacing_filter_single; [|exact Hsf]. lia. }
  unfold _simplify_line_fast.
  rewrite (proj2 (Nat.leb_gt _ _) Hlen), Hsf. rsimpl.
  rewrite (proj2 (Z.leb_gt _ _) Hmax), Hq. rsimpl.
  fold step. rewrite Hfirst. rsimpl. rewrite Hsampled. rsimpl.
  rewrite Ht, Hs. rsimpl.
  eexists. split; [reflexivity|]. split; [exact Hsub|].
  rewrite <- Hcount.
  destruct (point_neq t_last s_last); cbn [length];
    rewrite ?length_app; cbn [length]; lia.
Qed.

Lemma simplify_line_fast_sublist (points : list point) (min_spacing : float)
    (max_points : Z) (out : list point) :
  _simplify_line_fast points min_spacing max_points = Ok out ->
  out `sublist_of` points.
Proof.
  intros H.
  destruct (Nat.leb_spec (length points) 2) as [Hle|Hgt].
  { unfold _simplify_line_fast in H.
    rewrite (proj2 (Nat.leb_le _ _) Hle) in H. by injection H as <-. }
  destruct (spacing_filter_Ok points min_spacing ltac:(lia))
    as [simplified Hsf].
  destruct (spacing_filter_sublist points simplified min_spacing ltac:(lia) Hsf) as [Hsub _].
  destruct (Z.leb_spec (Z.of_nat (length simplified)) max_points) as [Hm|Hm].
  { unfold _simplify_line_fast in H.
    rewrite (proj2 (Nat.leb_gt _ _) Hgt), Hsf in H. rsimpl.
    rewrite (proj2 (Z.leb_le _ _) Hm) in H. by injection H as <-. }
  destruct (py_ceil_div (Z.of_nat (length simplified) - 2) (max_points - 2))
    as [q|e] eqn:Hq.
  - destruct (simplify_line_fast_stride _ _ _ _ _ Hgt Hsf Hm Hq)
      as (out' & Hout' & Hsub' & _).
    rewrite Hout' in H. injection H as <-. by etransitivity.
  - unfold _simplify_line_fast in H.
    rewrite (proj2 (Nat.leb_gt _ _) Hgt), Hsf in H. rsimpl.
    rewrite (proj2 (Z.leb_gt _ _) Hm), Hq in H. discriminate.
Qed.

(** With a budget of at least 3 points the function returns, within the
    budget. *)
Lemma simplify_line_fast_bound (points : list point) (min_spacing : float)
    (max_points : Z) :
  3 <= max_points ->
  exists out,
    _simplify_line_fast points min_spacing max_points = Ok out
    /\ Z.of_nat (length out) <= max_points.
Proof.
  intros Hmax.
  destruct (Nat.leb_spec (length points) 2) as [Hle|Hgt].
  { exists points. unfold _simplify_line_fast.
    rewrite (proj2 (Nat.leb_le _ _) Hle). split; [done|lia]. }
  destruct (spacing_filter_Ok points min_spacing ltac:(lia))
    as [simplified Hsf].
  destruct (Z.leb_spec (Z.of_nat (length simplified)) max_points) as [Hm|Hm].
  { exists simplified. unfold _simplify_line_fast.
    rewrite (proj2 (Nat.leb_gt _ _) Hgt), Hsf. rsimpl.
    rewrite (proj2 (Z.leb_le _ _) Hm). split; [done|lia]. }
  destruct (py_ceil_div_pos (Z.of_nat (length simplified) - 2) (max_points - 2))
    as (q & Hq & Hq1 & Hqle); [lia|lia|].
  destruct (simplify_line_fast_stride _ _ _ _ _ Hgt Hsf Hm Hq)
    as (out & Hout & _ & Hcount).
  exists out. split; [exact Hout|].
  rewrite (proj2 (Z.ltb_ge q 1)) in Hcount by lia.
  pose proof (stride_count (Z.of_nat (length simplified)) max_points q
                Hmax Hm Hq1 Hqle) as Hsc.
  rewrite Nat2Z.id in Hsc. lia.
Qed.

(** With a budget of exactly 2 the stride computation divides by zero. *)
Lemma simplify_line_fast_two (points simplified : list point)
    (min_spacing : float) :
  (2 < length points)%nat ->
  spacing_filter points min_spacing = Ok simplified ->
  (2 < length simplified)%nat ->
  _simplify_line_fast points min_spacing 2 = Raise ZeroDivisionError.
Proof.
  intros Hlen Hsf Hs. unfold _simplify_line_fast.
  rewrite (proj2 (Nat.leb_gt _ _) Hlen), Hsf. rsimpl.
  rewrite (proj2 (Z.leb_gt _ _)) by lia. reflexivity.
Qed.

(** *** The theorems on the fast simplifier *)

(** C3, as stated, fails: with [max_points = 1] three well spaced points
    are all returned. *)
Lemma simplify_line_fast_exceeds_budget :
  exists out,
    _simplify_line_fast [(0, 0); (10, 0); (20, 0)]%float 1%float 1 = Ok out
    /\ 1 < Z.of_nat (length out).
Proof.
  exists [(0, 0); (10, 0); (20, 0)]%float. split; [|reflexivity].
  vm_compute. reflexivity.
Qed.

(** C3, amended.  On more than 2 points the sequence kept before the
    down-sampling pass is [spacing_filter]: any two consecutive points of
    it, the second not being its last, are at a squared distance of at
    least [min_spacing * min_spacing]; and for [max_points >= 3] the
    function returns at most [max_points] points. *)
Theorem simplify_line_fast_spacing_and_budget (points : list point)
    (min_spacing : float) (max_points : Z) :
  ((2 < length points)%nat ->
   exists simplified,
     spacing_filter points min_spacing = Ok simplified
     /\ forall t p q,
          simplified !! t = Some p -> simplified !! S t = Some q ->
          (S (S t) < length simplified)%nat ->
          (min_spacing * min_spacing <=? spacing_dist_sq p q)%float = true)
  /\ (3 <= max_points ->
      exists out,
        _simplify_line_fast points min_spacing max_points = Ok out
        /\ Z.of_nat (length out) <= max_points).
Proof.
  split; [|apply simplify_line_fast_bound].
  intros Hlen.
  destruct (list_ends points ltac:(lia)) as (a & mid & b & ->).
  destruct (spacing_filter_ends a b mid min_spacing) as (s_last & _ & ->).
  eexists. split; [reflexivity|]. intros t p q Hp Hq Ht.
  destruct (point_neq s_last b).
  - rewrite length_app in Ht. cbn [length] in Ht.
    rewrite lookup_app_l in Hp by (cbn [length]; lia).
    rewrite lookup_app_l in Hq by (cbn [length]; lia).
    eapply spacing_scan_spaced; eauto.
  - eapply spacing_scan_spaced; eauto.
Qed.

Lemma simplify_line_fast_spacing_and_budget_witness :
  let points := [(0, 0); (1, 0); (2, 0); (3, 0); (4, 0); (5, 0); (6, 0)]%float in
  (2 < length points)%nat /\ 3 <= 3
  /\ exists out, _simplify_line_fast points 2%float 3 = Ok out
                 /\ Z.of_nat (length out) <= 3.
Proof.
  intros points. split; [simpl; lia|]. split; [lia|].
  apply (proj2 (simplify_line_fast_spacing_and_budget points 2%float 3)). lia.
Defined.

(** C9. Both simplifiers return an input of at most 2 points unchanged, and
    whatever they return is a subsequence of the input: its points, in
    their order (whatever the C library's [pow] is, for the exact one). *)
Theorem simplify_subsequence (libm_pow : float -> float -> result float) :
  (forall points tolerance,
     (length points <= 2)%nat -> _simplify_line libm_pow points tolerance = Ok points)
  /\ (forall points tolerance out,
        _simplify_line libm_pow points tolerance = Ok out -> out `sublist_of` points)
  /\ (forall points min_spacing max_points,
        (length points <= 2)%nat ->
        _simplify_line_fast points min_spacing max_points = Ok points)
  /\ (forall points min_spacing max_points out,
        _simplify_line_fast points min_spacing max_points = Ok out ->
        out `sublist_of` points).
Proof.
  repeat split.
  - intros points tolerance Hlen. unfold _simplify_line.
    by rewrite (proj2 (Nat.leb_le _ _) Hlen).
  - intros points tolerance out H. unfold _simplify_line in H.
    destruct (length points <=? 2)%nat; [by injection H as <-|].
    apply bind_Ok_inv in H as (keep & _ & H). injection H as <-.
    apply select_sublist.
  - intros points min_spacing max_points Hlen. unfold _simplify_line_fast.
    by rewrite (proj2 (Nat.leb_le _ _) Hlen).
  - apply simplify_line_fast_sublist.
Qed.

Lemma simplify_subsequence_witness :
  let points := [(0, 0); (1, 0.5); (2, -0.5); (3, 5); (4, 6); (5, 7);
                 (6, 8); (7, 9); (8, 9); (9, 9)]%float in
  let exact := [(0, 0); (2, -0.5); (3, 5); (7, 9); (9, 9)]%float in
  let fast := [(0, 0); (2, -0.5); (5, 7); (9, 9)]%float in
  (_simplify_line square_pow points 1%float = Ok exact /\ exact `sublist_of` points)
  /\ (_simplify_line_fast points 1.5%float 4 = Ok fast
      /\ fast `sublist_of` points)
  /\ _simplify_line square_pow (take 2 points) 1%float = Ok (take 2 points)
  /\ _simplify_line_fast (take 2 points) 1.5%float 4 = Ok (take 2 points).
Proof.
  intros points exact fast.
  assert (He : _simplify_line square_pow points 1%float = Ok exact)
    by (vm_compute; reflexivity).
  assert (Hf : _simplify_line_fast points 1.5%float 4 = Ok fast)
    by (vm_compute; reflexivity).
  destruct (simplify_subsequence square_pow) as (H1 & H2 & H3 & H4).
  split; [split; [exact He | exact (H2 _ _ _ He)]|].
  split; [split; [exact Hf | exact (H4 _ _ _ _ Hf)]|].
  split; [apply H1 | apply H3]; simpl; lia.
Defined.

(** C10. The budget of [_simplify_line_fast] is only total from 3 on: with
    [max_points = 2], every input of more than 2 points whose spacing pass
    keeps more than 2 points makes the stride computation divide by zero
    (there is such an input), whereas with [max_points >= 3] the function
    always returns. *)
Theorem simplify_line_fast_budget_two :
  (forall points simplified min_spacing,
     (2 < length points)%nat ->
     spacing_filter points min_spacing = Ok simplified ->
     (2 < length simplified)%nat ->
     _simplify_line_fast points min_spacing 2 = Raise ZeroDivisionError)
  /\ (exists points simplified min_spacing,
        (2 < length points)%nat
        /\ spacing_filter points min_spacing = Ok simplified
        /\ (2 < length simplified)%nat
        /\ _simplify_line_fast points min_spacing 2 = Raise ZeroDivisionError)
  /\ (forall points min_spacing max_points,
        3 <= max_points ->
        is_ok (_simplify_line_fast points min_spacing max_points) = true).
Proof.
  split; [exact simplify_line_fast_two|]. split.
  - exists [(0, 0); (10, 0); (20, 0)]%float,
           [(0, 0); (10, 0); (20, 0)]%float, 1%float.
    split; [simpl; lia|]. split; [vm_compute; reflexivity|].
    split; [simpl; lia|]. vm_compute. reflexivity.
  - intros points min_spacing max_points Hmax.
    destruct (simplify_line_fast_bound points min_spacing max_points Hmax)
      as (out & -> & _). reflexivity.
Qed.

Lemma simplify_line_fast_budget_two_witness :
  let points := [(0, 0); (1, 0); (2, 0); (3, 0); (4, 0)]%float in
  (2 < length points)%nat
  /\ spacing_filter points 1%float = Ok points
  /\ _simplify_line_fast points 1%float 2 = Raise ZeroDivisionError
  /\ is_ok (_simplify_line_fast points 1%float 3) = true.
Proof.
  intros points.
  assert (Hlen : (2 < length points)%nat) by (simpl; lia).
  assert (Hsf : spacing_filter points 1%float = Ok points)
    by (vm_compute; reflexivity).
  destruct simplify_line_fast_budget_two as (H2 & _ & H3).
  split; [exact Hlen|]. split; [exact Hsf|]. split.
  - apply (H2 points points 1%float Hlen Hsf). simpl; lia.
  - apply H3. lia.
Defined.

(** ** Packing and unpacking *)

Lemma byte_val_range (b : byte) : 0 <= byte_val b < 256.
Proof.
  unfold byte_val. pose proof (Byte.to_N_bounded b). lia.
Qed.

Lemma byte_val_of_Z (v : Z) : 0 <= v < 256 -> byte_val (byte_of_Z v) = v.
Proof.
  intros Hv. unfold byte_val, byte_of_Z.
  pose proof (Byte.to_of_N_option_map (Z.to_N v)) as H.
  rewrite (proj2 (N.leb_le (Z.to_N v) 255)) in H by lia.
  destruct (Byte.of_N (Z.to_N v)) as [b|]; [|discriminate].
  injection H as ->. lia.
Qed.

Lemma le_bytes_length (n : nat) : forall v, length (le_bytes n v) = n.
Proof. induction n as [|n IH]; intros v; simpl; auto. Qed.

Lemma pack_uint_length (little : bool) (n : nat) (v : Z) :
  length (pack_uint little n v) = n.
Proof.
  unfold pack_uint. destruct little; rewrite ?length_rev; apply le_bytes_length.
Qed.

Lemma le_val_le_bytes (n : nat) :
  forall v, 0 <= v < 256 ^ Z.of_nat n -> le_val (le_bytes n v) = v.
Proof.
  induction n as [|n IH]; intros v Hv.
  - simpl in *. lia.
  - rewrite Nat2Z.inj_succ, Z.pow_succ_r in Hv by lia.
    cbn [le_bytes le_val].
    rewrite byte_val_of_Z by (apply Z.mod_pos_bound; lia).
    rewrite IH.
    + pose proof (Z.div_mod v 256). lia.
    + split; [apply Z.div_pos; lia|].
      apply Z.div_lt_upper_bound; lia.
Qed.

Lemma val_pack_uint (little : bool) (n : nat) (v : Z) :
  0 <= v < 256 ^ Z.of_nat n ->
  (if little then le_val (pack_uint little n v)
   else be_val (pack_uint little n v)) = v.
Proof.
  intros Hv. unfold pack_uint, be_val. destruct little;
    rewrite ?rev_involutive; by apply le_val_le_bytes.
Qed.

(** Reading at a cursor: the data from [offset] on starts with the bytes
    read, and the cursor moves past them. *)
Lemma unpack_bytes_drop (n : nat) (data : bytes) (offset : nat)
    (bs tail : bytes) :
  drop offset data = bs ++ tail -> length bs = n ->
  unpack_bytes n data offset = Ok bs /\ drop (offset + n) data = tail.
Proof.
  intros Hdrop Hlen. unfold unpack_bytes. rewrite Hdrop.
  rewrite take_app_length' by done. rewrite Hlen, Nat.eqb_refl.
  split; [done|].
  rewrite <- drop_drop, Hdrop. by apply drop_app_length'.
Qed.

Lemma unpack_uint_drop (little : bool) (n : nat) (v : Z) (data : bytes)
    (offset : nat) (tail : bytes) :
  0 <= v < 256 ^ Z.of_nat n ->
  drop offset data = pack_uint little n v ++ tail ->
  unpack_uint little n data offset = Ok v /\ drop (offset + n) data = tail.
Proof.
  intros Hv Hdrop.
  destruct (unpack_bytes_drop n data offset _ _ Hdrop
              (pack_uint_length little n v)) as [Hbs Htail].
  split; [|done]. unfold unpack_uint. rewrite Hbs. rsimpl.
  by rewrite val_pack_uint.
Qed.

Lemma unpack_double_drop (little : bool) (v : Z) (data : bytes)
    (offset : nat) (tail : bytes) :
  0 <= v < 2 ^ 64 ->
  drop offset data = pack_uint little 8 v ++ tail ->
  unpack_double little data offset = Ok (double_of_bits v)
  /\ drop (offset + 8) data = tail.
Proof.
  intros Hv Hdrop.
  destruct (unpack_uint_drop little 8 v data offset tail Hv Hdrop)
    as [Hu Htail].
  split; [|done]. unfold unpack_double. by rewrite Hu.
Qed.

Lemma byte_at_drop (data : bytes) (offset : nat) (b : byte) (tail : bytes) :
  drop offset data = b :: tail ->
  byte_at data offset = Ok (byte_val b) /\ drop (offset + 1) data = tail.
Proof.
  intros Hdrop. split.
  - unfold byte_at.
    assert (H : data !! offset = Some b).
    { rewrite <- (Nat.add_0_r offset), <- lookup_drop, Hdrop. done. }
    by rewrite H.
  - rewrite <- drop_drop, Hdrop. done.
Qed.

(** ** WKB: decoding an encoding *)

Lemma parse_points_encode (little : bool) (d : wkb_dim) (data : bytes)
    (vs : list wkb_vertex) :
  Forall (valid_vertex d) vs ->
  forall offset points tail,
    drop offset data = concat (encode_vertex little <$> vs) ++ tail ->
    parse_points little (dim_has_z d) (dim_has_m d) data (length vs) offset
      points
    = Ok (points ++ (vertex_point <$> vs),
          (offset + length (concat (encode_vertex little <$> vs)))%nat)
    /\ drop (offset + length (concat (encode_vertex little <$> vs))) data
       = tail.
Proof.
  induction 1 as [|v vs (Hx & Hy & Hextra) Hvs IH]; intros offset points tail Hd.
  - cbn. rewrite Nat.add_0_r, app_nil_r. done.
  - cbn [fmap list_fmap concat length parse_points] in *.
    unfold encode_vertex in Hd at 1. rewrite <- !app_assoc in Hd.
    destruct (unpack_double_drop little _ data offset _ Hx Hd) as [-> Hd1].
    destruct (unpack_double_drop little _ data _ _ Hy Hd1) as [-> Hd2].
    rsimpl.
    assert (Hd3 : drop (offset + 8 + 8 + length (vertex_extra v)) data
                  = concat (encode_vertex little <$> vs) ++ tail).
    { rewrite <- drop_drop, Hd2. by apply drop_app_length'. }
    set (next := (if dim_has_m d
                  then ((if dim_has_z d then (offset + 16 + 8)%nat
                         else (offset + 16)%nat) + 8)%nat
                  else if dim_has_z d then (offset + 16 + 8)%nat
                       else (offset + 16)%nat)).
    assert (Hnext : next = (offset + 8 + 8 + length (vertex_extra v))%nat).
    { subst next. rewrite Hextra. destruct d; simpl; lia. }
    rewrite Hnext.
    change (double_of_bits (vertex_x v), double_of_bits (vertex_y v))
      with (vertex_point v).
    destruct (IH _ (points ++ [vertex_point v]) tail Hd3) as [HIH Htail].
    assert (Hlen : (offset + length (encode_vertex little v
                                     ++ concat (encode_vertex little <$> vs)))%nat
                   = (offset + 8 + 8 + length (vertex_extra v)
                      + length (concat (encode_vertex little <$> vs)))%nat).
    { unfold encode_vertex at 1. rewrite !length_app, !pack_uint_length. lia. }
    rewrite Hlen. split; [|exact Htail].
    etransitivity; [exact HIH|]. by rewrite <- app_assoc.
Qed.

Lemma byte_order_mark_val (little : bool) :
  byte_val (byte_order_mark little) = if little then 1 else 0.
Proof. by destruct little. Qed.

Lemma dim_code_range (d : wkb_dim) (base : Z) :
  0 <= base < 1000 -> 0 <= base + dim_code d < 256 ^ Z.of_nat 4.
Proof. destruct d; simpl; lia. Qed.

(** The header of a geometry: byte order, then the type code, from which
    the decoder recovers the base type and the dimension flags. *)
Lemma parse_header (fuel : nat) (data : bytes) (offset : nat)
    (little : bool) (d : wkb_dim) (base : Z) (tail : bytes) :
  0 <= base < 1000 ->
  drop offset data
  = byte_order_mark little :: pack_uint little 4 (base + dim_code d) ++ tail ->
  drop (offset + 1 + 4) data = tail
  /\ parse_lines_from_wkb (S fuel) data offset =
     if base =? 2 then
       n ← unpack_uint little 4 data (offset + 1 + 4);
       '(points, offset') ←
         parse_points little (dim_has_z d) (dim_has_m d) data (Z.to_nat n)
           (offset + 1 + 4 + 4) [];
       Ok ([points], offset')
     else if base =? 5 then
       n ← unpack_uint little 4 data (offset + 1 + 4);
       parse_children (parse_lines_from_wkb fuel data) (Z.to_nat n)
         (offset + 1 + 4 + 4) []
     else Raise (UnsupportedBaseGeometryType base).
Proof.
  intros Hbase Hd.
  destruct (byte_at_drop data offset _ _ Hd) as [Hbo Hd1].
  destruct (unpack_uint_drop little 4 _ data _ tail
              (dim_code_range d base Hbase) Hd1) as [Hty Hd2].
  split; [exact Hd2|].
  cbn [parse_lines_from_wkb]. rewrite Hbo, byte_order_mark_val. rsimpl.
  assert (Hlittle : ((if little then 1 else 0) =? 1) = little)
    by (by destruct little).
  assert (Hvalid : negb (((if little then 1 else 0) =? 0)
                         || ((if little then 1 else 0) =? 1)) = false)
    by (by destruct little).
  rewrite Hvalid, Hlittle, Hty. rsimpl.
  destruct d; cbn [dim_code dim_has_z dim_has_m].
  - rewrite Z.add_0_r.
    rewrite (proj2 (Z.leb_gt 3000 base)), (proj2 (Z.leb_gt 2000 base)),
      (proj2 (Z.leb_gt 1000 base)) by lia. reflexivity.
  - rewrite (proj2 (Z.leb_gt 3000 _)), (proj2 (Z.leb_gt 2000 _)),
      (proj2 (Z.leb_le 1000 _)) by lia.
    replace (base + 1000 - 1000) with base by lia. reflexivity.
  - rewrite (proj2 (Z.leb_gt 3000 _)), (proj2 (Z.leb_le 2000 _)) by lia.
    replace (base + 2000 - 2000) with base by lia. reflexivity.
  - rewrite (proj2 (Z.leb_le 3000 _)) by lia.
    replace (base + 3000 - 3000) with base by lia. reflexivity.
Qed.

Lemma parse_linestring_encode (fuel : nat) (data : bytes) (offset : nat)
    (ls : wkb_linestring) (tail : bytes) :
  valid_linestring ls ->
  drop offset data = encode_linestring ls ++ tail ->
  parse_lines_from_wkb (S fuel) data offset
  = Ok ([linestring_points ls],
        (offset + length (encode_linestring ls))%nat)
  /\ drop (offset + length (encode_linestring ls)) data = tail.
Proof.
  intros [Hcount Hvs] Hd. unfold encode_linestring in Hd.
  cbn [app] in Hd. rewrite <- !app_assoc in Hd.
  destruct (parse_header fuel data offset _ _ 2 _ ltac:(lia) Hd) as [Hd1 ->].
  cbn [Z.eqb Pos.eqb].
  destruct (unpack_uint_drop (ls_little ls) 4
              (Z.of_nat (length (ls_vertices ls))) data _ _
              ltac:(change (256 ^ Z.of_nat 4) with (2 ^ 32); lia) Hd1)
    as [-> Hd2]. rsimpl.
  rewrite Nat2Z.id.
  destruct (parse_points_encode (ls_little ls) (ls_dim ls) data _ Hvs
              _ [] tail Hd2) as [-> Htail]. rsimpl.
  assert (Hlen : length (encode_linestring ls)
                 = (1 + 4 + 4 + length (concat (encode_vertex (ls_little ls)
                                                  <$> ls_vertices ls)))%nat).
  { unfold encode_linestring. cbn [length].
    rewrite !length_app, !pack_uint_length. lia. }
  rewrite Hlen, !Nat.add_assoc. done.
Qed.

Lemma parse_children_encode (fuel : nat) (data : bytes)
    (children : list wkb_linestring) :
  Forall valid_linestring children ->
  forall offset lines tail,
    drop offset data = concat (encode_linestring <$> children) ++ tail ->
    parse_children (parse_lines_from_wkb (S fuel) data) (length children)
      offset lines
    = Ok (lines ++ (linestring_points <$> children),
          (offset + length (concat (encode_linestring <$> children)))%nat)
    /\ drop (offset + length (concat (encode_linestring <$> children))) data
       = tail.
Proof.
  induction 1 as [|ls children Hls Hvalid IH]; intros offset lines tail Hd.
  - cbn. rewrite Nat.add_0_r, app_nil_r. done.
  - cbn [fmap list_fmap concat length parse_children] in *.
    rewrite <- app_assoc in Hd.
    destruct (parse_linestring_encode fuel data offset ls _ Hls Hd)
      as [-> Hd1]. rsimpl.
    destruct (IH _ (lines ++ [linestring_points ls]) tail Hd1)
      as [HIH Htail].
    rewrite length_app, Nat.add_assoc. split; [|exact Htail].
    etransitivity; [exact HIH|]. by rewrite <- app_assoc.
Qed.

(** Decoding the encoding of a valid geometry, wherever it stands in the
    data. *)
Lemma parse_geometry_encode (fuel : nat) (data : bytes) (offset : nat)
    (g : wkb_geometry) (tail : bytes) :
  valid_geometry g ->
  drop offset data = encode_geometry g ++ tail ->
  parse_lines_from_wkb (S (S fuel)) data offset
  = Ok (geometry_lines g, (offset + length (encode_geometry g))%nat).
Proof.
  intros Hvalid Hd. destruct g as [ls|little d children].
  - exact (proj1 (parse_linestring_encode (S fuel) data offset ls tail
                    Hvalid Hd)).
  - destruct Hvalid as [Hcount Hchildren].
    cbn [encode_geometry app] in Hd. rewrite <- !app_assoc in Hd.
    destruct (parse_header (S fuel) data offset _ _ 5 _ ltac:(lia) Hd)
      as [Hd1 ->].
    cbn [Z.eqb Pos.eqb].
    destruct (unpack_uint_drop little 4 (Z.of_nat (length children)) data _ _
                ltac:(change (256 ^ Z.of_nat 4) with (2 ^ 32); lia) Hd1)
      as [-> Hd2]. rsimpl.
    rewrite Nat2Z.id.
    destruct (parse_children_encode fuel data children Hchildren
                _ [] tail Hd2) as [-> _].
    cbn [encode_geometry geometry_lines length app].
    rewrite !length_app, !pack_uint_length.
    do 2 f_equal. lia.
Qed.

(** *** The budget of the recursion is never exhausted *)

Lemma parse_points_offset (little has_z has_m : bool) (data : bytes)
    (n : nat) :
  forall offset points points' offset',
    parse_points little has_z has_m data n offset points
    = Ok (points', offset') ->
    (offset <= offset')%nat.
Proof.
  induction n as [|n IH]; intros offset points points' offset' H;
    cbn [parse_points] in H.
  - injection H as _ <-. lia.
  - apply bind_Ok_inv in H as (x & _ & H).
    apply bind_Ok_inv in H as (y & _ & H).
    apply IH in H. destruct has_z, has_m; lia.
Qed.

Lemma parse_children_offset
    (parse : nat -> result (list (list point) * nat)) (n : nat) :
  (forall offset lines offset',
     parse offset = Ok (lines, offset') -> (offset <= offset')%nat) ->
  forall offset lines lines' offset',
    parse_children parse n offset lines = Ok (lines', offset') ->
    (offset <= offset')%nat.
Proof.
  intros Hparse. induction n as [|n IH]; intros offset lines lines' offset' H;
    cbn [parse_children] in H.
  - injection H as _ <-. lia.
  - apply bind_Ok_inv in H as ([child offset1] & Hchild & H).
    apply Hparse in Hchild. apply IH in H. lia.
Qed.

Lemma parse_lines_offset (fuel : nat) (data : bytes) :
  forall offset lines offset',
    parse_lines_from_wkb fuel data offset = Ok (lines, offset') ->
    (offset <= offset')%nat.
Proof.
  induction fuel as [|fuel IH]; intros offset lines offset' H;
    [discriminate|].
  cbn [parse_lines_from_wkb] in H.
  apply bind_Ok_inv in H as (bo & _ & H).
  destruct (negb _); [discriminate|].
  apply bind_Ok_inv in H as (ty & _ & H).
  destruct (if 3000 <=? ty then _ else _) as [[base has_z] has_m].
  destruct (base =? 2).
  - apply bind_Ok_inv in H as (n & _ & H).
    apply bind_Ok_inv in H as ([points off] & Hpp & H).
    injection H as _ <-. apply parse_points_offset in Hpp. lia.
  - destruct (base =? 5); [|discriminate].
    apply bind_Ok_inv in H as (n & _ & H).
    apply (parse_children_offset _ _ IH) in H. lia.
Qed.

Lemma parse_children_fuel
    (parse : nat -> result (list (list point) * nat)) (bound : nat) (n : nat) :
  (forall offset lines offset',
     parse offset = Ok (lines, offset') -> (offset <= offset')%nat) ->
  (forall offset, (bound <= offset)%nat -> parse offset <> Raise OutOfFuel) ->
  forall offset lines,
    (bound <= offset)%nat ->
    parse_children parse n offset lines <> Raise OutOfFuel.
Proof.
  intros Hmono Hfuel. induction n as [|n IH]; intros offset lines Hb;
    cbn [parse_children]; [discriminate|].
  destruct (parse offset) as [[child offset1]|e] eqn:Hchild; rsimpl.
  - apply IH. apply Hmono in Hchild. lia.
  - intros H. injection H as ->. by apply (Hfuel offset Hb).
Qed.

Lemma parse_points_fuel (little has_z has_m : bool) (data : bytes)
    (n : nat) :
  forall offset points,
    parse_points little has_z has_m data n offset points <> Raise OutOfFuel.
Proof.
  induction n as [|n IH]; intros offset points; cbn [parse_points];
    [discriminate|].
  unfold unpack_double, unpack_uint, unpack_bytes.
  repeat (match goal with
          | |- context [if ?c then _ else _] => destruct c
          end; rsimpl; try discriminate).
  all: apply IH.
Qed.

Lemma parse_lines_fuel (fuel : nat) (data : bytes) :
  forall offset,
    (length data - offset < fuel)%nat ->
    parse_lines_from_wkb fuel data offset <> Raise OutOfFuel.
Proof.
  induction fuel as [|fuel IH]; intros offset Hfuel; [lia|].
  cbn [parse_lines_from_wkb].
  unfold byte_at. destruct (data !! offset) as [b|] eqn:Hb; rsimpl;
    [|discriminate].
  apply lookup_lt_Some in Hb.
  destruct (negb _); [discriminate|].
  destruct (unpack_uint _ 4 data (offset + 1)) as [ty|e] eqn:Hty; rsimpl.
  2:{ unfold unpack_uint, unpack_bytes in Hty.
      destruct (_ =? _)%nat; rsimpl; congruence. }
  destruct (if 3000 <=? ty then _ else _) as [[base has_z] has_m].
  assert (Hn : forall e, unpack_uint (byte_val b =? 1) 4 data (offset + 1 + 4)
                         = Raise e -> e <> OutOfFuel).
  { intros e He. unfold unpack_uint, unpack_bytes in He.
    destruct (_ =? _)%nat; rsimpl; congruence. }
  destruct (base =? 2).
  - destruct (unpack_uint _ 4 data (offset + 1 + 4)) as [n|e] eqn:Hcount;
      rsimpl; [|intros H; injection H as ->; by eapply Hn].
    pose proof (parse_points_fuel (byte_val b =? 1) has_z has_m data
                  (Z.to_nat n) (offset + 1 + 4 + 4) []) as Hpp.
    destruct (parse_points _ _ _ _ _ _ _) as [[points off]|e]; rsimpl;
      [discriminate|congruence].
  - destruct (base =? 5); [|discriminate].
    destruct (unpack_uint _ 4 data (offset + 1 + 4)) as [n|e] eqn:Hcount;
      rsimpl; [|intros H; injection H as ->; by eapply Hn].
    apply (parse_children_fuel _ (offset + 1)).
    + apply parse_lines_offset.
    + intros offset1 Hoff. apply IH. lia.
    + lia.
Qed.

Lemma encode_geometry_cons (g : wkb_geometry) :
  exists b rest, encode_geometry g = b :: rest.
Proof. destruct g; cbn; eauto. Qed.

(** *** The theorem on the WKB decoder *)

(** C1. [_parse_lines_from_wkb] never exhausts its recursion budget, and on
    the encoding of a valid geometry, wherever it stands in the data, it
    returns the geometry's polylines and the offset just past the
    encoding (the length of the input when the input is the encoding
    alone): for a LineString of N vertices, one polyline of those N points
    in order; for a MultiLineString, the polylines of its children in
    order, one per child.  The 41 bytes [01 02000000 02000000] followed by
    the doubles 0, 0, 1, 1 decode to the polyline [(0,0), (1,1)]. *)
Theorem parse_lines_from_wkb_roundtrip :
  (forall data offset, _parse_lines_from_wkb data offset <> Raise OutOfFuel)
  /\ (forall g pre suf,
        valid_geometry g ->
        _parse_lines_from_wkb (pre ++ encode_geometry g ++ suf) (length pre)
        = Ok (geometry_lines g,
              (length pre + length (encode_geometry g))%nat))
  /\ (forall g,
        valid_geometry g ->
        _parse_lines_from_wkb (encode_geometry g) 0
        = Ok (geometry_lines g, length (encode_geometry g)))
  /\ (forall ls,
        geometry_lines (GLineString ls) = [vertex_point <$> ls_vertices ls]
        /\ length (vertex_point <$> ls_vertices ls) = length (ls_vertices ls))
  /\ (forall little dim children,
        geometry_lines (GMultiLineString little dim children)
        = concat ((fun ls => geometry_lines (GLineString ls)) <$> children)
        /\ length (geometry_lines (GMultiLineString little dim children))
           = length children)
  /\ _parse_lines_from_wkb
       [x01; x02; x00; x00; x00; x02; x00; x00; x00;
        x00; x00; x00; x00; x00; x00; x00; x00;
        x00; x00; x00; x00; x00; x00; x00; x00;
        x00; x00; x00; x00; x00; x00; xf0; x3f;
        x00; x00; x00; x00; x00; x00; xf0; x3f] 0
     = Ok ([[(0, 0); (1, 1)]%float], 41%nat).
Proof.
  assert (Hmiddle : forall g pre suf,
            valid_geometry g ->
            _parse_lines_from_wkb (pre ++ encode_geometry g ++ suf) (length pre)
            = Ok (geometry_lines g,
                  (length pre + length (encode_geometry g))%nat)).
  { intros g pre suf Hvalid. unfold _parse_lines_from_wkb.
    assert (Hlen : exists f, length (pre ++ encode_geometry g ++ suf) = S f).
    { destruct (encode_geometry_cons g) as (b & rest & ->).
      exists (length pre + length rest + length suf)%nat.
      rewrite !length_app. cbn [length]. lia. }
    destruct Hlen as [f ->].
    apply parse_geometry_encode with (tail := suf); [done|].
    by rewrite drop_app_length. }
  split; [|split; [exact Hmiddle|split; [|split; [|split]]]].
  - intros data offset. apply parse_lines_fuel. lia.
  - intros g Hvalid.
    pose proof (Hmiddle g [] [] Hvalid) as H.
    by rewrite app_nil_r in H.
  - intros ls. split; [reflexivity|apply length_fmap].
  - intros little dim children. split; [|apply length_fmap].
    cbn [geometry_lines]. induction children as [|ls children IH];
      [reflexivity|]. cbn. by rewrite <- IH.
  - vm_compute. reflexivity.
Qed.

Lemma parse_lines_from_wkb_roundtrip_witness :
  let child1 := LineString true XY
                  [Vertex 0 0 []; Vertex 0x3FF0000000000000 0x4000000000000000 [];
                   Vertex 0x4008000000000000 0x4010000000000000 []] in
  let child2 := LineString false XYZ
                  [Vertex 0x4014000000000000 0x4018000000000000 (repeat x00 8);
                   Vertex 0x401C000000000000 0x4020000000000000 (repeat x00 8);
                   Vertex 0x4022000000000000 0x4024000000000000 (repeat x00 8)] in
  let g := GMultiLineString true XY [child1; child2] in
  valid_geometry g
  /\ _parse_lines_from_wkb (encode_geometry g) 0
     = Ok ([[(0, 0); (1, 2); (3, 4)]; [(5, 6); (7, 8); (9, 10)]]%float,
           length (encode_geometry g)).
Proof.
  intros child1 child2 g.
  assert (Hvalid : valid_geometry g).
  { split; [simpl; lia|].
    repeat constructor; simpl; lia. }
  split; [exact Hvalid|].
  destruct parse_lines_from_wkb_roundtrip as (_ & _ & Hwhole & _).
  exact (Hwhole g Hvalid).
Defined.

(** ** Shapefile records *)

Lemma to_signed_small (v : Z) : 0 <= v < 2 ^ 31 -> to_signed 32 v = v.
Proof.
  intros Hv. unfold to_signed. change (32 - 1) with 31.
  by rewrite (proj2 (Z.ltb_lt v (2 ^ 31))) by lia.
Qed.

Lemma unpack_exact_Ok (n : nat) (bs : bytes) :
  length bs = n -> unpack_exact n bs = Ok bs.
Proof. intros <-. unfold unpack_exact. by rewrite Nat.eqb_refl. Qed.

Lemma le_val_pack (n : nat) (v : Z) :
  0 <= v < 256 ^ Z.of_nat n -> le_val (pack_uint true n v) = v.
Proof. exact (val_pack_uint true n v). Qed.

Lemma unpack_le_int32_pack (v : Z) :
  0 <= v < 2 ^ 31 -> unpack_le_int32 (pack_uint true 4 v) = Ok v.
Proof.
  intros Hv. unfold unpack_le_int32.
  rewrite unpack_exact_Ok by apply pack_uint_length. rsimpl.
  rewrite (le_val_pack 4 v)
    by (change (256 ^ Z.of_nat 4) with (2 ^ 32); lia).
  by rewrite to_signed_small.
Qed.

Lemma le_int32s_pack (zs : list Z) (tail : bytes) :
  Forall (fun z => 0 <= z < 2 ^ 31) zs ->
  le_int32s (length zs) (concat (pack_uint true 4 <$> zs) ++ tail) = zs.
Proof.
  induction 1 as [|z zs Hz Hzs IH]; [reflexivity|].
  cbn [fmap list_fmap concat length le_int32s].
  rewrite <- app_assoc.
  rewrite take_app_length' by (by rewrite pack_uint_length).
  rewrite drop_app_length' by (by rewrite pack_uint_length).
  rewrite (le_val_pack 4 z)
    by (change (256 ^ Z.of_nat 4) with (2 ^ 32); lia).
  rewrite to_signed_small by done. by rewrite IH.
Qed.

Lemma concat_pack_length (n : nat) (zs : list Z) :
  length (concat (pack_uint true n <$> zs)) = (n * length zs)%nat.
Proof.
  induction zs as [|z zs IH]; cbn [fmap list_fmap concat length]; [lia|].
  rewrite length_app, pack_uint_length, IH. lia.
Qed.

Lemma unpack_le_2d_encode (p : Z * Z) :
  0 <= p.1 < 2 ^ 64 -> 0 <= p.2 < 2 ^ 64 ->
  unpack_le_2d (encode_xy p) = Ok (xy_point p).
Proof.
  intros Hx Hy. unfold unpack_le_2d, encode_xy.
  rewrite unpack_exact_Ok by (by rewrite length_app, !pack_uint_length).
  rsimpl.
  rewrite take_app_length' by (by rewrite pack_uint_length).
  rewrite drop_app_length' by (by rewrite pack_uint_length).
  by rewrite !(le_val_pack 8).
Qed.

Lemma read_points_encode (content : bytes) (points_off : nat)
    (pts : list (Z * Z)) (extra : bytes) :
  Forall (fun p => 0 <= p.1 < 2 ^ 64 /\ 0 <= p.2 < 2 ^ 64) pts ->
  forall i points,
    drop (points_off + i * 16) content = concat (encode_xy <$> pts) ++ extra ->
    read_points content points_off i (length pts) points
    = Ok (points ++ (xy_point <$> pts)).
Proof.
  induction 1 as [|p pts [Hx Hy] Hpts IH]; intros i points Hd.
  - cbn. by rewrite app_nil_r.
  - cbn [fmap list_fmap concat length read_points] in *.
    rewrite <- app_assoc in Hd.
    assert (Hlen : length (encode_xy p) = 16%nat).
    { unfold encode_xy. by rewrite length_app, !pack_uint_length. }
    unfold slice.
    replace (points_off + (i + 1) * 16 - (points_off + i * 16))%nat
      with 16%nat by lia.
    rewrite Hd, take_app_length' by done.
    rewrite unpack_le_2d_encode by done. rsimpl.
    rewrite IH.
    + by rewrite <- app_assoc.
    + replace (points_off + S i * 16)%nat
        with (points_off + i * 16 + 16)%nat by lia.
      rewrite <- drop_drop, Hd. by apply drop_app_length'.
Qed.

Lemma slice_bound_inside (n : nat) (i : nat) :
  (i <= n)%nat -> slice_bound n (Z.of_nat i) = i.
Proof.
  intros Hi. unfold slice_bound.
  rewrite (proj2 (Z.ltb_ge _ _)) by lia. lia.
Qed.

(** Splitting at the part starts of consecutive segments gives the
    segments back, those shorter than 2 points left out. *)
Lemma split_parts_segments {A : Type} (f : A -> point)
    (segments : list (list A)) :
  forall before,
    split_parts (f <$> (before ++ concat segments))
      (Z.of_nat (length (before ++ concat segments)))
      (part_starts (length before) segments)
    = List.filter (fun line => (2 <=? length line)%nat)
        ((fun seg : list A => f <$> seg) <$> segments).
Proof.
  induction segments as [|seg rest IH]; intros before; [reflexivity|].
  cbn [part_starts split_parts concat fmap list_fmap List.filter].
  set (points := f <$> (before ++ seg ++ concat rest)).
  assert (Hpoints : points = (f <$> before) ++ (f <$> seg)
                             ++ (f <$> concat rest)).
  { subst points. by rewrite !fmap_app. }
  assert (Hend : match part_starts (length before + length seg) rest with
                 | [] => Z.of_nat (length (before ++ seg ++ concat rest))
                 | next :: _ => next
                 end = Z.of_nat (length before + length seg)).
  { destruct rest as [|seg' rest]; cbn [part_starts concat]; [|done].
    rewrite app_nil_r, length_app. done. }
  rewrite Hend.
  assert (Hline : py_slice points (Z.of_nat (length before))
                    (Z.of_nat (length before + length seg)) = f <$> seg).
  { unfold py_slice.
    assert (Hn : length points
                 = (length before + length seg + length (concat rest))%nat).
    { subst points. rewrite length_fmap, !length_app. lia. }
    rewrite !slice_bound_inside by lia.
    rewrite Hpoints.
    rewrite drop_app_length' by (by rewrite length_fmap).
    apply take_app_length'. rewrite length_fmap. lia. }
  rewrite Hline.
  specialize (IH (before ++ seg)).
  rewrite <- !app_assoc, (length_app before seg) in IH. fold points in IH.
  rewrite IH.
  by destruct (2 <=? length (f <$> seg))%nat.
Qed.

Lemma part_starts_length {A : Type} (segments : list (list A)) :
  forall from, length (part_starts from segments) = length segments.
Proof.
  induction segments as [|seg rest IH]; intros from; simpl; auto.
Qed.

Lemma part_starts_range {A : Type} (segments : list (list A)) :
  forall from,
    Z.of_nat (from + length (concat segments)) < 2 ^ 31 ->
    Forall (fun z => 0 <= z < 2 ^ 31) (part_starts from segments)
    /\ length (part_starts from segments) = length segments.
Proof.
  induction segments as [|seg rest IH]; intros from Hb;
    cbn [part_starts concat length] in *; [by split|].
  rewrite length_app in Hb.
  destruct (IH (from + length seg)%nat) as [Hall Hlen]; [lia|].
  split; [constructor; [lia|done]|by rewrite Hlen].
Qed.

(** The fields of an encoded record: numParts at 36, numPoints at 40, the
    part starts at 44 and the points right after them. *)
Lemma encode_shp_record_layout (shape_type : Z) (box : bytes)
    (segments : list (list (Z * Z))) (extra : bytes) :
  length box = 32%nat ->
  let content := encode_shp_record shape_type box segments extra in
  slice content 0 4 = pack_uint true 4 shape_type
  /\ slice content 36 40 = pack_uint true 4 (Z.of_nat (length segments))
  /\ slice content 40 44
     = pack_uint true 4 (Z.of_nat (length (concat segments)))
  /\ slice content 44 (44 + 4 * length segments)
     = concat (pack_uint true 4 <$> part_starts 0 segments)
  /\ drop (44 + 4 * length segments) content
     = concat (encode_xy <$> concat segments) ++ extra.
Proof.
  intros Hbox content. subst content. unfold encode_shp_record, slice.
  set (parts := concat (pack_uint true 4 <$> part_starts 0 segments)).
  set (pts := concat (encode_xy <$> concat segments) ++ extra).
  set (p_st := pack_uint true 4 shape_type).
  set (p_np := pack_uint true 4 (Z.of_nat (length segments))).
  set (p_n := pack_uint true 4 (Z.of_nat (length (concat segments)))).
  assert (Hst : length p_st = 4%nat) by apply pack_uint_length.
  assert (Hnp : length p_np = 4%nat) by apply pack_uint_length.
  assert (Hn : length p_n = 4%nat) by apply pack_uint_length.
  assert (Hparts : length parts = (4 * length segments)%nat).
  { subst parts. by rewrite concat_pack_length, part_starts_length. }
  assert (H36 : drop 36 (p_st ++ box ++ p_np ++ p_n ++ parts ++ pts)
                = p_np ++ p_n ++ parts ++ pts).
  { rewrite (app_assoc p_st box). apply drop_app_length'.
    rewrite length_app. lia. }
  assert (H40 : drop 40 (p_st ++ box ++ p_np ++ p_n ++ parts ++ pts)
                = p_n ++ parts ++ pts).
  { change 40%nat with (36 + 4)%nat. rewrite <- drop_drop, H36.
    by apply drop_app_length'. }
  assert (H44 : drop 44 (p_st ++ box ++ p_np ++ p_n ++ parts ++ pts)
                = parts ++ pts).
  { change 44%nat with (40 + 4)%nat. rewrite <- drop_drop, H40.
    by apply drop_app_length'. }
  split; [by apply (take_app_length' p_st)|].
  split; [|split; [|split]].
  - rewrite H36. by apply take_app_length'.
  - rewrite H40. by apply take_app_length'.
  - rewrite H44. apply take_app_length'. lia.
  - rewrite <- drop_drop, H44. by apply drop_app_length'.
Qed.

Lemma parse_shp_record_encode (shape_type : Z) (box : bytes)
    (segments : list (list (Z * Z))) (extra : bytes) :
  shape_type = 3 \/ shape_type = 13 \/ shape_type = 23 ->
  length box = 32%nat ->
  Z.of_nat (length segments) < 2 ^ 31 ->
  Z.of_nat (length (concat segments)) < 2 ^ 31 ->
  Forall (fun p => 0 <= p.1 < 2 ^ 64 /\ 0 <= p.2 < 2 ^ 64) (concat segments) ->
  parse_shp_record (encode_shp_record shape_type box segments extra)
  = Ok (List.filter (fun line => (2 <=? length line)%nat)
          ((fun seg : list (Z * Z) => xy_point <$> seg) <$> segments)).
Proof.
  intros Hst Hbox Hnp Hn Hpts.
  destruct (encode_shp_record_layout shape_type box segments extra Hbox)
    as (H0 & H36 & H40 & H44 & Hoff).
  set (content := encode_shp_record shape_type box segments extra) in *.
  unfold parse_shp_record.
  rewrite H0, H36, H40, !unpack_le_int32_pack by lia. rsimpl.
  assert (Hty : (shape_type =? 0) = false
                /\ negb ((shape_type =? 3) || (shape_type =? 13)
                         || (shape_type =? 23)) = false).
  { by destruct Hst as [->|[->| ->]]. }
  destruct Hty as [-> ->].
  destruct (part_starts_range segments 0 Hn) as [Hrange Hlen].
  unfold read_parts. rewrite (proj2 (Z.ltb_ge _ 0)) by lia.
  rewrite !Nat2Z.id, H44.
  rewrite unpack_exact_Ok by (by rewrite concat_pack_length, Hlen).
  rsimpl.
  pose proof (le_int32s_pack (part_starts 0 segments) [] Hrange) as Hparts.
  rewrite app_nil_r, Hlen in Hparts. rewrite Hparts.
  rewrite (read_points_encode content _ (concat segments) extra Hpts 0 [])
    by (by rewrite Nat.add_0_r).
  rsimpl. f_equal.
  pose proof (split_parts_segments xy_point segments []) as Hsplit.
  cbn [app length] in Hsplit. exact Hsplit.
Qed.

(** *** The theorem on shapefile records *)

(** C4, as stated, fails: the part-start array is not at content offset 36,
    where numParts is.  On a record of one part [[0]] with two points the
    reader returns the polyline, its parts are [[0]], the integer at offset
    36 is [1], and splitting at it would leave a single point, which is
    discarded. *)
Lemma shp_parts_not_at_offset_36 :
  let content :=
    encode_shp_record 3 (repeat x00 32)
      [[(0, 0); (0x3FF0000000000000, 0x3FF0000000000000)]] [] in
  parse_shp_record content = Ok [[(0, 0); (1, 1)]%float]
  /\ read_parts content 1 = Ok [0]
  /\ le_int32s 1 (drop 36 content) = [1]
  /\ read_parts content 1 <> Ok (le_int32s 1 (drop 36 content))
  /\ split_parts [(0, 0); (1, 1)]%float 2 (le_int32s 1 (drop 36 content)) = [].
Proof.
  intros content. repeat split; try (vm_compute; reflexivity).
  vm_compute. discriminate.
Qed.

(** C4, amended.  In the content of a record of shape type 3, 13 or 23
    that holds the segments [segments], numParts stands at offset 36,
    numPoints at offset 40, the part starts (numParts 32-bit integers) at
    offset 44 and the points (pairs of little-endian doubles) right after
    them; the reader returns the segments in order, those of fewer than 2
    points left out, whatever follows the points.  Parts [[0, 3, 7]] on 10
    points give segments of 3, 4 and 3 points. *)
Theorem shp_record_segments :
  (forall shape_type box segments extra,
     shape_type = 3 \/ shape_type = 13 \/ shape_type = 23 ->
     length box = 32%nat ->
     Z.of_nat (length segments) < 2 ^ 31 ->
     Z.of_nat (length (concat segments)) < 2 ^ 31 ->
     Forall (fun p => 0 <= p.1 < 2 ^ 64 /\ 0 <= p.2 < 2 ^ 64)
       (concat segments) ->
     let content := encode_shp_record shape_type box segments extra in
     slice content 36 40 = pack_uint true 4 (Z.of_nat (length segments))
     /\ slice content 40 44
        = pack_uint true 4 (Z.of_nat (length (concat segments)))
     /\ slice content 44 (44 + 4 * length segments)
        = concat (pack_uint true 4 <$> part_starts 0 segments)
     /\ drop (44 + 4 * length segments) content
        = concat (encode_xy <$> concat segments) ++ extra
     /\ read_parts content (Z.of_nat (length segments))
        = Ok (part_starts 0 segments)
     /\ parse_shp_record content
        = Ok (List.filter (fun line => (2 <=? length line)%nat)
                ((fun seg : list (Z * Z) => xy_point <$> seg) <$> segments)))
  /\ (forall points : list point,
        length points = 10%nat ->
        split_parts points 10 [0; 3; 7]
        = [take 3 points; take 4 (drop 3 points); drop 7 points]
        /\ length (take 3 points) = 3%nat
        /\ length (take 4 (drop 3 points)) = 4%nat
        /\ length (drop 7 points) = 3%nat).
Proof.
  split.
  - intros shape_type box segments extra Hst Hbox Hnp Hn Hpts content.
    destruct (encode_shp_record_layout shape_type box segments extra Hbox)
      as (H0 & H36 & H40 & H44 & Hoff).
    fold content in H0, H36, H40, H44, Hoff.
    repeat (split; [assumption|]).
    split; [|by apply parse_shp_record_encode].
    destruct (part_starts_range segments 0 Hn) as [Hrange Hlen].
    unfold read_parts. rewrite (proj2 (Z.ltb_ge _ 0)) by lia.
    rewrite !Nat2Z.id, H44.
    rewrite unpack_exact_Ok by (by rewrite concat_pack_length, Hlen).
    rsimpl.
    pose proof (le_int32s_pack (part_starts 0 segments) [] Hrange) as Hparts.
    rewrite app_nil_r, Hlen in Hparts. by rewrite Hparts.
  - intros points Hlen.
    assert (H3 : length (take 3 points) = 3%nat)
      by (rewrite length_take; lia).
    assert (H4 : length (take 4 (drop 3 points)) = 4%nat)
      by (rewrite length_take, length_drop; lia).
    assert (H7 : length (drop 7 points) = 3%nat)
      by (rewrite length_drop; lia).
    repeat split; try assumption.
    cbn [split_parts]. unfold py_slice. rewrite Hlen.
    change (slice_bound 10 0) with 0%nat.
    change (slice_bound 10 3) with 3%nat.
    change (slice_bound 10 7) with 7%nat.
    change (slice_bound 10 10) with 10%nat.
    cbn [Nat.sub]. rewrite drop_0, H3, H4.
    replace (take 3 (drop 7 points)) with (drop 7 points)
      by (symmetry; apply take_ge; lia).
    rewrite H7. reflexivity.
Qed.

Lemma shp_record_segments_witness :
  let one := 0x3FF0000000000000 in
  let two := 0x4000000000000000 in
  let segments := [[(0, 0); (one, 0); (two, 0)]; [(0, one)];
                   [(0, two); (one, two)]] in
  let content := encode_shp_record 13 (repeat xff 32) segments [x07; x07] in
  parse_shp_record content
  = Ok [[(0, 0); (1, 0); (2, 0)]; [(0, 2); (1, 2)]]%float
  /\ read_parts content 3 = Ok [0; 3; 4].
Proof.
  intros one two segments content.
  destruct (proj1 shp_record_segments 13 (repeat xff 32) segments [x07; x07])
    as (_ & _ & _ & _ & Hparts & Hrecord).
  - auto.
  - reflexivity.
  - simpl; lia.
  - simpl; lia.
  - repeat constructor; simpl; lia.
  - split; [exact Hrecord | exact Hparts].
Defined.

(** *** The record loop stops *)

(** Reading the points raises nothing but [struct.error]. *)
Lemma read_points_Raise (content : bytes) (points_off count : nat) :
  forall i points e,
    read_points content points_off i count points = Raise e ->
    e = StructError.
Proof.
  induction count as [|count IH]; intros i points e H;
    cbn [read_points] in H; [discriminate|].
  unfold unpack_le_2d, unpack_exact in H.
  destruct (length _ =? 16)%nat; rsimpl; [eauto | congruence].
Qed.

Lemma parse_shp_record_Raise (content : bytes) (e : exn) :
  parse_shp_record content = Raise e -> e = StructError.
Proof.
  unfold parse_shp_record, read_parts, unpack_le_int32, unpack_exact.
  intros H.
  repeat match type of H with
         | context [if ?c then _ else _] => destruct c; rsimpl
         end;
    try discriminate; try congruence.
  all: match type of H with
       | context [read_points ?c ?o ?i ?n ?ps] =>
           destruct (read_points c o i n ps) eqn:Hpts; rsimpl;
             [discriminate | injection H as <-; eauto using read_points_Raise]
       end.
Qed.

(** A read of a size from [-1] on returns. *)
Lemma file_read_Ok (file : bytes) (pos : nat) (size : Z) :
  -1 <= size -> file_read file pos size = Ok (file_window file pos size).
Proof.
  intros Hsize. unfold file_read.
  by rewrite (proj2 (Z.ltb_ge size (-1))) by lia.
Qed.

(** Each turn of the record loop reads the 8 bytes of a record header, so
    the budget of one turn per byte is never used up. *)
Lemma read_shp_records_fuel (fuel : nat) (file : bytes) :
  forall pos shapes,
    (length file - pos < fuel)%nat ->
    read_shp_records fuel file pos shapes <> Raise OutOfFuel.
Proof.
  induction fuel as [|fuel IH]; intros pos shapes Hfuel; [lia|].
  cbn [read_shp_records]. rewrite file_read_Ok by lia. rsimpl.
  cbn [file_window]. change (8 <? 0) with false. cbv iota.
  destruct (length (take (Z.to_nat 8) (drop pos file)) <? 8)%nat eqn:Hhdr;
    [discriminate|].
  apply Nat.ltb_ge in Hhdr. rewrite length_take, length_drop in Hhdr.
  unfold file_read. destruct (_ <? -1); rsimpl; [discriminate|].
  cbn [file_window].
  match goal with
  | |- context [Z.of_nat (length ?c) <? ?n] =>
      destruct (Z.of_nat (length c) <? n); [discriminate|]
  end.
  match goal with
  | |- context [parse_shp_record ?c] =>
      destruct (parse_shp_record c) as [lines|e] eqn:Hrec; rsimpl
  end.
  - apply IH. rewrite length_take, length_drop. lia.
  - apply parse_shp_record_Raise in Hrec as ->. discriminate.
Qed.

(** [read_shp_polylines] ends on every file: with its result, or with one
    of the exceptions of the Python code. *)
Lemma read_shp_polylines_total (file : bytes) :
  read_shp_polylines file <> Raise OutOfFuel.
Proof.
  unfold read_shp_polylines. rewrite file_read_Ok by lia. rsimpl.
  cbn [file_window]. change (100 <? 0) with false. cbv iota.
  destruct (length _ <? 100)%nat; [discriminate|].
  unfold unpack_le_int32, unpack_exact.
  destruct (length _ =? 4)%nat; rsimpl; [|discriminate].
  destruct (negb _); [discriminate|].
  match goal with
  | |- context [read_shp_records ?f ?d ?p ?s] =>
      pose proof (read_shp_records_fuel f d p s) as Hfuel;
        destruct (read_shp_records f d p s) as [shapes|e]; rsimpl
  end.
  - discriminate.
  - intros [= ->]. apply Hfuel; [lia | reflexivity].
Qed.

(** ** DBF records *)

Lemma le_val_range (bs : bytes) : 0 <= le_val bs < 256 ^ Z.of_nat (length bs).
Proof.
  induction bs as [|b bs IH]; [simpl; lia|].
  cbn [le_val length]. rewrite Nat2Z.inj_succ, Z.pow_succ_r by lia.
  pose proof (byte_val_range b). lia.
Qed.

Lemma file_window_full (file : bytes) (pos : nat) (size : Z) (bs : bytes)
    (pos' : nat) :
  0 <= size ->
  file_window file pos size = (bs, pos') ->
  (Z.of_nat (length bs) <? size) = false ->
  bs = slice file pos (pos + Z.to_nat size)
  /\ length bs = Z.to_nat size
  /\ pos' = (pos + Z.to_nat size)%nat
  /\ (0 < size -> (pos + Z.to_nat size <= length file)%nat).
Proof.
  intros Hsize Hread Hfull. unfold file_window in Hread.
  rewrite (proj2 (Z.ltb_ge size 0)) in Hread by lia.
  injection Hread as <- <-. apply Z.ltb_ge in Hfull.
  rewrite length_take, length_drop in *.
  unfold slice.
  replace (pos + Z.to_nat size - pos)%nat with (Z.to_nat size) by lia.
  split; [reflexivity|]. split; [lia|]. split; lia.
Qed.

Section DbfProofs.

Variable int_round_float : bytes -> result Z.
Variable file : bytes.
Variable record_len : Z.
Variable fields : list dbf_field.
Variable cont_idx : nat.
Variable base : nat.

Let slot (k : nat) : bytes := record_slot file base (Z.to_nat record_len) k.
Let full (k : nat) : Prop := slot_full file base (Z.to_nat record_len) k.
Let value (k : nat) (v : Z) : Prop :=
  length (slot k) = Z.to_nat record_len
  /\ slot_value int_round_float fields cont_idx (slot k) v.

(** The loop over the records reads slot after slot: entry [k] of its
    result is the value of slot [k], and it has an entry for each of the
    first [n] slots that lie within the file. *)
Lemma read_records_slots (n : nat) :
  forall pos contours vals,
    0 <= record_len ->
    pos = (base + length contours * Z.to_nat record_len)%nat ->
    read_records int_round_float n file pos record_len fields cont_idx
      contours = Ok vals ->
    (forall k v, contours !! k = Some v -> value k v) ->
    (forall k, (k < length contours)%nat -> full k) ->
    (forall k v, vals !! k = Some v -> value k v)
    /\ (forall k, (k < length vals)%nat <->
                  (k < length contours + n)%nat /\ full k).
Proof.
  induction n as [|n IH]; intros pos contours vals Hrl Hpos Hread Hvals Hfull;
    cbn [read_records] in Hread.
  - injection Hread as <-. split; [exact Hvals|].
    intros k. split; [intros Hk; split; [lia|auto]|lia].
  - rewrite file_read_Ok in Hread by lia. rsimpl.
    destruct (file_window file pos record_len) as [rec pos'] eqn:Hfr.
    destruct (Z.of_nat (length rec) <? record_len) eqn:Hshort.
    + (* a truncated record: the loop stops *)
      injection Hread as <-. split; [exact Hvals|].
      intros k. split; [intros Hk; split; [lia|auto]|].
      intros [Hk Hslot].
      destruct (decide (k < length contours)%nat) as [|Hge]; [done|].
      exfalso. apply Z.ltb_lt in Hshort.
      unfold file_window in Hfr.
      rewrite (proj2 (Z.ltb_ge record_len 0)) in Hfr by lia.
      injection Hfr as <- <-. rewrite length_take, length_drop in Hshort.
      subst full. unfold slot_full in Hslot. nia.
    + destruct (file_window_full _ _ _ _ _ Hrl Hfr Hshort)
        as (Hrec & Hlen & -> & Hbound).
      apply bind_Ok_inv in Hread as (first & Hfirst & Hread).
      assert (Hpos_len : 0 < record_len).
      { unfold byte_at in Hfirst.
        destruct (rec !! 0%nat) eqn:Hr0; [|discriminate].
        apply lookup_lt_Some in Hr0. lia. }
      specialize (Hbound Hpos_len).
      assert (Hslot : rec = slot (length contours)).
      { rewrite Hrec, Hpos. subst slot. unfold record_slot. f_equal.
        by rewrite Nat.mul_add_distr_r, Nat.mul_1_l, Nat.add_assoc. }
      assert (Hstep : forall v,
                value (length contours) v ->
                read_records int_round_float n file
                  (pos + Z.to_nat record_len) record_len fields cont_idx
                  (contours ++ [v]) = Ok vals ->
                (forall k v, vals !! k = Some v -> value k v)
                /\ (forall k, (k < length vals)%nat <->
                              (k < length contours + S n)%nat /\ full k)).
      { intros v Hv Hnext.
        assert (Hpos' : (pos + Z.to_nat record_len)%nat
                        = (base + length (contours ++ [v])
                                  * Z.to_nat record_len)%nat).
        { rewrite length_app, Hpos. cbn [length].
          by rewrite Nat.mul_add_distr_r, Nat.mul_1_l, Nat.add_assoc. }
        destruct (IH _ (contours ++ [v]) vals Hrl Hpos' Hnext)
          as [Hall Hiff].
        - intros k w Hk. apply lookup_app_Some in Hk as [Hk|[Hge Hk]];
            [by apply Hvals|].
          apply list_lookup_singleton_Some in Hk as [Hk <-].
          replace k with (length contours) by lia. exact Hv.
        - intros k. rewrite length_app. cbn [length]. intros Hk.
          destruct (decide (k < length contours)%nat); [by apply Hfull|].
          replace k with (length contours) by lia.
          subst full. unfold slot_full.
          rewrite Nat.mul_add_distr_r, Nat.mul_1_l, Nat.add_assoc. lia.
        - split; [exact Hall|]. intros k. rewrite Hiff, length_app.
          cbn [length]. split; intros [? ?]; split; auto; lia. }
      destruct (first =? 42) eqn:Hdel.
      * apply (Hstep 0); [|exact Hread].
        split; [by rewrite <- Hslot|]. exists first. rewrite <- Hslot.
        split; [done|]. split; [done|]. apply Z.eqb_eq in Hdel. lia.
      * apply bind_Ok_inv in Hread as (v & Hv & Hread).
        apply (Hstep v); [|exact Hread].
        split; [by rewrite <- Hslot|]. exists first. rewrite <- Hslot.
        split; [done|]. split; [|done]. apply Z.eqb_neq in Hdel. lia.
Qed.

(** The slot [k] does not start with the deletion marker. *)
Let live (k : nat) : Prop := byte_at (slot k) 0 <> Ok 42.

Lemma slot_full_length (k : nat) :
  full k -> length (slot k) = Z.to_nat record_len.
Proof.
  subst full slot. unfold slot_full, record_slot, slice. intros Hfull.
  rewrite length_take, length_drop. nia.
Qed.

(** One turn of the loop, on the slot it reads: it stops on a slot that
    does not lie within the file, appends 0 for a deleted record without
    looking at its fields, and converts the field CONT otherwise. *)
Lemma read_records_turn (conv : bytes -> result Z) (n : nat) (pos : nat)
    (contours : list Z) :
  0 < record_len ->
  pos = (base + length contours * Z.to_nat record_len)%nat ->
  (~ full (length contours) ->
   read_records conv (S n) file pos record_len fields cont_idx contours
   = Ok contours)
  /\ (full (length contours) ->
      read_records conv (S n) file pos record_len fields cont_idx contours
      = (first ← byte_at (slot (length contours)) 0;
         if first =? 42 then
           read_records conv n file (pos + Z.to_nat record_len) record_len
             fields cont_idx (contours ++ [0])
         else
           v ← record_value conv fields cont_idx (slot (length contours));
           read_records conv n file (pos + Z.to_nat record_len) record_len
             fields cont_idx (contours ++ [v]))).
Proof.
  intros Hrl Hpos. cbn [read_records].
  rewrite file_read_Ok by lia. rsimpl.
  destruct (file_window file pos record_len) as [rec pos'] eqn:Hfr.
  destruct (Z.of_nat (length rec) <? record_len) eqn:Hshort.
  - split; [reflexivity|]. intros Hfull. exfalso.
    subst full. unfold slot_full in Hfull. apply Z.ltb_lt in Hshort.
    unfold file_window in Hfr.
    rewrite (proj2 (Z.ltb_ge record_len 0)) in Hfr by lia.
    injection Hfr as <- <-. rewrite length_take, length_drop in Hshort.
    nia.
  - destruct (file_window_full _ _ _ _ _ (Z.lt_le_incl _ _ Hrl) Hfr Hshort)
      as (Hrec & Hlen & -> & Hbound).
    specialize (Hbound Hrl).
    assert (Hslot : rec = slot (length contours)).
    { rewrite Hrec, Hpos. subst slot. unfold record_slot. f_equal.
      by rewrite Nat.mul_add_distr_r, Nat.mul_1_l, Nat.add_assoc. }
    split; [|by rewrite Hslot]. intros Hfull. exfalso. apply Hfull.
    subst full. unfold slot_full.
    rewrite Nat.mul_add_distr_r, Nat.mul_1_l, Nat.add_assoc. lia.
Qed.

Lemma slot_full_cases (k : nat) : full k \/ ~ full k.
Proof. subst full. unfold slot_full. lia. Qed.

Lemma next_slot_pos (pos : nat) (contours : list Z) (v : Z) :
  pos = (base + length contours * Z.to_nat record_len)%nat ->
  (pos + Z.to_nat record_len)%nat
  = (base + length (contours ++ [v]) * Z.to_nat record_len)%nat.
Proof.
  intros ->. rewrite length_app. cbn [length].
  by rewrite Nat.mul_add_distr_r, Nat.mul_1_l, Nat.add_assoc.
Qed.

(** The loop returns when the conversion returns on the field CONT of the
    records that are not deleted: the fields of a deleted record are not
    converted. *)
Lemma read_records_returns (n : nat) :
  forall pos contours,
    0 < record_len ->
    pos = (base + length contours * Z.to_nat record_len)%nat ->
    (forall k, (length contours <= k < length contours + n)%nat ->
               full k -> live k ->
               is_ok (record_value int_round_float fields cont_idx (slot k))
               = true) ->
    is_ok (read_records int_round_float n file pos record_len fields
             cont_idx contours) = true.
Proof.
  induction n as [|n IH]; intros pos contours Hrl Hpos Hconv; [reflexivity|].
  destruct (read_records_turn int_round_float n pos contours Hrl Hpos)
    as [Hstop Hturn].
  destruct (slot_full_cases (length contours)) as [Hfull|Hfull];
    [|by rewrite Hstop].
  rewrite Hturn by done. clear Hstop Hturn.
  pose proof (slot_full_length _ Hfull) as Hlen.
  unfold byte_at.
  destruct (slot (length contours) !! 0%nat) as [b|] eqn:Hb; rsimpl.
  2:{ apply lookup_ge_None in Hb. lia. }
  destruct (byte_val b =? 42) eqn:Hdel.
  - apply IH; [done | by apply next_slot_pos |].
    intros k Hk. apply Hconv. rewrite length_app in Hk. cbn [length] in Hk.
    lia.
  - pose proof (Hconv (length contours) ltac:(lia) Hfull) as Hhere.
    destruct (record_value int_round_float fields cont_idx
                (slot (length contours))) as [v|e]; rsimpl.
    + apply IH; [done | by apply next_slot_pos |].
      intros k Hk. apply Hconv.
      rewrite length_app in Hk. cbn [length] in Hk. lia.
    + apply Hhere. subst live. cbv beta. unfold byte_at. rewrite Hb.
      intros [= Heq]. apply Z.eqb_neq in Hdel. contradiction.
Qed.

(** The loop has the same outcome with two conversions that agree on the
    field CONT of the records that are not deleted. *)
Lemma read_records_conv (conv : bytes -> result Z) (n : nat) :
  forall pos contours,
    0 <= record_len ->
    pos = (base + length contours * Z.to_nat record_len)%nat ->
    (forall k, (length contours <= k < length contours + n)%nat ->
               full k -> live k ->
               record_value conv fields cont_idx (slot k)
               = record_value int_round_float fields cont_idx (slot k)) ->
    read_records conv n file pos record_len fields cont_idx contours
    = read_records int_round_float n file pos record_len fields cont_idx
        contours.
Proof.
  induction n as [|n IH]; intros pos contours Hrl Hpos Hconv; [reflexivity|].
  destruct (decide (record_len = 0)) as [Hzero|Hpositive].
  { (* empty records: the first byte of the first is missing *)
    cbn [read_records]. rewrite !file_read_Ok by lia. rsimpl.
    unfold file_window. rewrite Hzero. cbn. reflexivity. }
  destruct (read_records_turn conv n pos contours ltac:(lia) Hpos)
    as [Hstop' Hturn'].
  destruct (read_records_turn int_round_float n pos contours ltac:(lia) Hpos)
    as [Hstop Hturn].
  destruct (slot_full_cases (length contours)) as [Hfull|Hfull];
    [|by rewrite Hstop, Hstop'].
  rewrite Hturn, Hturn' by done. clear Hstop Hturn Hstop' Hturn'.
  destruct (byte_at (slot (length contours)) 0) as [first|e] eqn:Hfirst;
    rsimpl; [|reflexivity].
  assert (Hnext : forall v k,
            (length (contours ++ [v]) <= k < length (contours ++ [v]) + n)%nat ->
            full k -> live k ->
            record_value conv fields cont_idx (slot k)
            = record_value int_round_float fields cont_idx (slot k)).
  { intros v k Hk. apply Hconv. rewrite length_app in Hk. cbn [length] in Hk.
    lia. }
  destruct (first =? 42) eqn:Hdel.
  - apply IH; [done | by apply next_slot_pos | apply Hnext].
  - rewrite (Hconv (length contours) ltac:(lia) Hfull).
    2:{ subst live. cbv beta. rewrite Hfirst. intros [= Heq].
        apply Z.eqb_neq in Hdel. contradiction. }
    destruct (record_value int_round_float fields cont_idx
                (slot (length contours))) as [v|e]; rsimpl; [|reflexivity].
    apply IH; [done | by apply next_slot_pos | apply Hnext].
Qed.

End DbfProofs.

Lemma slice_take (l : bytes) (n i j : nat) :
  (j <= n)%nat -> slice (take n l) i j = slice l i j.
Proof.
  intros Hj. unfold slice.
  destruct (decide (i <= n)%nat) as [Hi|Hi].
  - replace n with (i + (n - i))%nat at 1 by lia.
    rewrite <- take_drop_commute, take_take. f_equal. lia.
  - replace (j - i)%nat with 0%nat by lia. by rewrite !take_0.
Qed.

(** The descriptor loop stops by itself: each turn reads at least one
    byte. *)
Lemma read_fields_fuel (fuel : nat) (file : bytes) :
  forall pos fields,
    (length file - pos < fuel)%nat ->
    read_fields fuel file pos fields <> Raise OutOfFuel.
Proof.
  induction fuel as [|fuel IH]; intros pos fields Hfuel; [lia|].
  cbn [read_fields]. rewrite file_read_Ok by lia. rsimpl.
  cbn [file_window]. change (32 <? 0) with false. cbv iota.
  destruct (length (take (Z.to_nat 32) (drop pos file)) =? 0)%nat eqn:Hempty;
    [discriminate|].
  apply Nat.eqb_neq in Hempty.
  unfold byte_at.
  repeat (match goal with
          | |- context [match ?l !! ?i with _ => _ end] => destruct (l !! i)
          end; rsimpl; try discriminate).
  all: destruct (_ =? 13); try discriminate.
  apply IH. rewrite length_take, length_drop in *. lia.
Qed.

(** *** The theorem on the DBF reader *)

(** The numbers of the header are read from the first 12 bytes of the
    file. *)
Lemma read_dbf_contours_header (int_round_float : bytes -> result Z)
    (file : bytes) :
  read_dbf_contours int_round_float file
  = (num_records ← (bs ← unpack_exact 4 (slice file 4 8); Ok (le_val bs));
     header_len ← (bs ← unpack_exact 2 (slice file 8 10); Ok (le_val bs));
     record_len ← (bs ← unpack_exact 2 (slice file 10 12); Ok (le_val bs));
     fields ← read_fields (S (length file)) file 32 [];
     match find_cont fields 0 with
     | None => Raise DbfFieldContNotFound
     | Some cont_idx =>
         read_records int_round_float (Z.to_nat num_records) file
           (Z.to_nat header_len) record_len fields cont_idx []
     end).
Proof.
  unfold read_dbf_contours. rewrite file_read_Ok by lia. rsimpl.
  cbn [file_window]. change (32 <? 0) with false. cbv iota.
  change (Z.to_nat 32) with 32%nat.
  by rewrite drop_0, !slice_take by lia.
Qed.

(** A file whose descriptors are read has more than 32 bytes. *)
Lemma read_fields_file_length (fuel : nat) (file : bytes) (pos : nat)
    (acc fields : list dbf_field) :
  read_fields fuel file pos acc = Ok fields -> (pos < length file)%nat.
Proof.
  destruct fuel as [|fuel]; [discriminate|].
  cbn [read_fields]. rewrite file_read_Ok by lia. rsimpl.
  cbn [file_window]. change (32 <? 0) with false. cbv iota.
  destruct (length _ =? 0)%nat eqn:Hempty; [discriminate|]. intros _.
  apply Nat.eqb_neq in Hempty. rewrite length_take, length_drop in Hempty.
  lia.
Qed.

(** With its descriptors read and the field CONT found, the reader is the
    loop over the records. *)
Lemma read_dbf_contours_records (int_round_float : bytes -> result Z)
    (file : bytes) (fields : list dbf_field) (cont_idx : nat) :
  read_fields (S (length file)) file 32 [] = Ok fields ->
  find_cont fields 0 = Some cont_idx ->
  read_dbf_contours int_round_float file
  = read_records int_round_float (Z.to_nat (le_val (slice file 4 8))) file
      (Z.to_nat (le_val (slice file 8 10))) (le_val (slice file 10 12))
      fields cont_idx [].
Proof.
  intros Hfields Hcont. rewrite read_dbf_contours_header.
  pose proof (read_fields_file_length _ _ _ _ _ Hfields) as Hlen.
  unfold unpack_exact, slice at 1 3 5.
  rewrite !length_take, !length_drop.
  replace (_ =? 4)%nat with true by (symmetry; apply Nat.eqb_eq; lia).
  rsimpl.
  replace (_ =? 2)%nat with true by (symmetry; apply Nat.eqb_eq; lia).
  rsimpl.
  replace (_ =? 2)%nat with true by (symmetry; apply Nat.eqb_eq; lia).
  rsimpl. rewrite Hfields. rsimpl. by rewrite Hcont.
Qed.

(** C6. On a DBF file, with [num_records], [header_len] and [record_len]
    the numbers of its header:
    - when [read_dbf_contours] returns, its result has one entry for each
      of the first [num_records] record slots that lie within the file, and
      entry [k] is the value of slot [k], the [record_len] bytes at
      [header_len + k * record_len]: 0 when the slot starts with the
      deletion marker [0x2A], the value of the field CONT otherwise.  A
      deleted record thus takes its slot, and the slots after it keep their
      positions;
    - when the field table is read and contains CONT, the reader returns
      as soon as the conversion returns on the field CONT of the records
      that are not deleted, whatever it would do on the fields of the
      deleted ones; and
    - its outcome is the same with every conversion that agrees with
      [int_round_float] on the field CONT of the records that are not
      deleted: the fields of a deleted record are not parsed. *)
Theorem dbf_records_aligned (int_round_float : bytes -> result Z)
    (file : bytes) :
  let num_records := Z.to_nat (le_val (slice file 4 8)) in
  let header_len := Z.to_nat (le_val (slice file 8 10)) in
  let record_len := Z.to_nat (le_val (slice file 10 12)) in
  let live (k : nat) : Prop :=
    (k < num_records)%nat
    /\ slot_full file header_len record_len k
    /\ byte_at (record_slot file header_len record_len k) 0 <> Ok 42 in
  (forall vals,
     read_dbf_contours int_round_float file = Ok vals ->
     exists fields cont_idx,
       read_fields (S (length file)) file 32 [] = Ok fields
       /\ find_cont fields 0 = Some cont_idx
       /\ (forall k, (k < length vals)%nat <->
                     (k < num_records)%nat
                     /\ slot_full file header_len record_len k)
       /\ (forall k v,
             vals !! k = Some v ->
             length (record_slot file header_len record_len k) = record_len
             /\ slot_value int_round_float fields cont_idx
                  (record_slot file header_len record_len k) v))
  /\ (forall fields cont_idx,
        read_fields (S (length file)) file 32 [] = Ok fields ->
        find_cont fields 0 = Some cont_idx ->
        ((0 < record_len)%nat ->
         (forall k, live k ->
                    is_ok (record_value int_round_float fields cont_idx
                             (record_slot file header_len record_len k))
                    = true) ->
         is_ok (read_dbf_contours int_round_float file) = true)
        /\ (forall conv : bytes -> result Z,
              (forall k, live k ->
                         record_value conv fields cont_idx
                           (record_slot file header_len record_len k)
                         = record_value int_round_float fields cont_idx
                             (record_slot file header_len record_len k)) ->
              read_dbf_contours conv file
              = read_dbf_contours int_round_float file)).
Proof.
  intros num_records header_len record_len live.
  assert (Hrange : 0 <= le_val (slice file 10 12)) by apply le_val_range.
  assert (Hpos : header_len
                 = (header_len + length (@nil Z) * record_len)%nat)
    by (simpl; lia).
  split.
  - intros vals Hread. rewrite read_dbf_contours_header in Hread.
    apply bind_Ok_inv in Hread as (nr & Hnr & Hread).
    apply bind_Ok_inv in Hnr as (bs_nr & Hbs_nr & Hnr).
    apply bind_Ok_inv in Hread as (hl & Hhl & Hread).
    apply bind_Ok_inv in Hhl as (bs_hl & Hbs_hl & Hhl).
    apply bind_Ok_inv in Hread as (rl & Hrl & Hread).
    apply bind_Ok_inv in Hrl as (bs_rl & Hbs_rl & Hrl).
    unfold unpack_exact in Hbs_nr, Hbs_hl, Hbs_rl.
    destruct (_ =? 4)%nat; [|discriminate].
    destruct (_ =? 2)%nat; [|discriminate].
    destruct (_ =? 2)%nat; [|discriminate].
    injection Hbs_nr as <-. injection Hbs_hl as <-. injection Hbs_rl as <-.
    injection Hnr as <-. injection Hhl as <-. injection Hrl as <-.
    apply bind_Ok_inv in Hread as (fields & Hfields & Hread).
    destruct (find_cont fields 0) as [cont_idx|] eqn:Hcont; [|discriminate].
    exists fields, cont_idx. split; [exact Hfields|]. split; [exact Hcont|].
    destruct (read_records_slots int_round_float file
                (le_val (slice file 10 12)) fields cont_idx
                header_len num_records header_len [] vals
                Hrange Hpos Hread) as [Hvalues Hcount].
    + intros k v Hk. discriminate.
    + intros k Hk. simpl in Hk. lia.
    + split; [exact Hcount|]. intros k v Hk.
      exact (Hvalues k v Hk).
  - intros fields cont_idx Hfields Hcont.
    split.
    + intros Hrl Hconv.
      rewrite (read_dbf_contours_records _ _ _ _ Hfields Hcont).
      apply (read_records_returns int_round_float file
               (le_val (slice file 10 12)) fields cont_idx header_len
               num_records header_len []); [lia | exact Hpos |].
      intros k Hk Hfull Hlive. apply Hconv.
      split; [simpl in Hk; lia|]. split; assumption.
    + intros conv Hconv.
      rewrite !(read_dbf_contours_records _ _ _ _ Hfields Hcont).
      apply (read_records_conv int_round_float file
               (le_val (slice file 10 12)) fields cont_idx header_len
               conv num_records header_len []); [lia | exact Hpos |].
      intros k Hk Hfull Hlive. apply Hconv.
      split; [simpl in Hk; lia|]. split; assumption.
Qed.

(** The reader on [example_dbf], whose second record is deleted: the
    result is aligned, and it is the same with a conversion that raises on
    the text of the deleted record. *)
Lemma dbf_records_aligned_witness :
  read_dbf_contours decimal_value example_dbf = Ok [120; 0; 140]
  /\ record_slot example_dbf 65 5 1 = [x2a; x20; x39; x39; x39]
  /\ slot_value decimal_value [([x63; x6f; x6e; x74], 78, 4, 0)] 0
       (record_slot example_dbf 65 5 2) 140
  /\ decimal_value_but_999 [x39; x39; x39] = Raise OverflowError
  /\ read_dbf_contours decimal_value_but_999 example_dbf
     = Ok [120; 0; 140].
Proof.
  assert (Hread : read_dbf_contours decimal_value example_dbf
                  = Ok [120; 0; 140]) by (vm_compute; reflexivity).
  split; [exact Hread|]. split; [reflexivity|].
  destruct (dbf_records_aligned decimal_value example_dbf)
    as [Haligned Hlive].
  destruct (Haligned _ Hread)
    as (fields & cont_idx & Hfields & Hcont & _ & Hvalues).
  destruct (Hlive fields cont_idx Hfields Hcont) as [_ Hconv].
  assert (fields = [([x63; x6f; x6e; x74], 78, 4, 0)])
    by (vm_compute in Hfields; congruence).
  subst fields.
  assert (cont_idx = 0%nat) by (vm_compute in Hcont; congruence).
  subst cont_idx.
  split; [exact (proj2 (Hvalues 2%nat 140 eq_refl))|].
  split; [reflexivity|].
  rewrite <- Hread. apply Hconv.
  intros k (Hk & _ & Hmark).
  change (k < 3)%nat in Hk.
  destruct k as [|[|[|k]]]; [reflexivity | | reflexivity | lia].
  exfalso. apply Hmark. reflexivity.
Defined.

(** *** The reader ends *)

(** The record loop raises [IndexError] (on an empty record) or what the
    conversion of the field raises. *)
Lemma read_records_Raise (int_round_float : bytes -> result Z) (n : nat)
    (file : bytes) (record_len : Z) (fields : list dbf_field)
    (cont_idx : nat) :
  0 <= record_len ->
  forall pos contours e,
    read_records int_round_float n file pos record_len fields cont_idx
      contours = Raise e ->
    e = IndexError \/ exists s, int_round_float s = Raise e.
Proof.
  intros Hrl.
  induction n as [|n IH]; intros pos contours e H;
    cbn [read_records] in H; [discriminate|].
  rewrite file_read_Ok in H by lia. rsimpl.
  destruct (file_window file pos record_len) as [rec pos'].
  destruct (Z.of_nat (length rec) <? record_len); [discriminate|].
  unfold byte_at in H. destruct (rec !! 0%nat); rsimpl;
    [|left; congruence].
  destruct (_ =? 42); [eauto|].
  unfold record_value in H.
  destruct (int_round_float _) as [v|e'] eqn:Hv; rsimpl; [eauto|].
  destruct e'; rsimpl; eauto; injection H as <-; eauto.
Qed.

(** [read_dbf_contours] ends on every file, whatever the conversion. *)
Lemma read_dbf_contours_total (int_round_float : bytes -> result Z)
    (file : bytes) :
  (forall s, int_round_float s <> Raise OutOfFuel) ->
  read_dbf_contours int_round_float file <> Raise OutOfFuel.
Proof.
  intros Hconv. rewrite read_dbf_contours_header. unfold unpack_exact.
  repeat match goal with
         | |- context [(length ?l =? ?n)%nat] =>
             destruct (length l =? n)%nat; rsimpl; [|discriminate]
         end.
  pose proof (read_fields_fuel (S (length file)) file 32 []) as Hfuel.
  destruct (read_fields _ file 32 []) as [fields|e]; rsimpl.
  - destruct (find_cont fields 0) as [cont_idx|]; [|discriminate].
    intros H. apply read_records_Raise in H as [H|(s & H)];
      [discriminate | exact (Hconv s H) | apply le_val_range].
  - intros [= ->]. apply Hfuel; [lia | reflexivity].
Qed.

(** ** The projection at its origin

    At the origin the longitude difference is [x - x] for one float [x],
    a zero, and so is the difference of the meridional arcs, computed twice
    by the same operations.  Every term of the two series is a product with
    such a zero: a zero of some sign, or a NaN when the other factor is not
    finite.  Adding a zero to the false origin leaves it as it is. *)

Module ProjectionProofs.
Import Projection.

Lemma zero_or_nan_mul_r (x z : float) :
  zero_or_nan z -> zero_or_nan (x * z).
Proof.
  unfold zero_or_nan. rewrite mul_spec.
  destruct (Prim2SF x), (Prim2SF z); simpl; tauto.
Qed.

Lemma zero_or_nan_mul_l (x z : float) :
  zero_or_nan z -> zero_or_nan (z * x).
Proof.
  unfold zero_or_nan. rewrite mul_spec.
  destruct (Prim2SF x), (Prim2SF z); simpl; tauto.
Qed.

Lemma zero_or_nan_div (z d : float) :
  zero_or_nan z -> zero_or_nan (z / d).
Proof.
  unfold zero_or_nan. rewrite div_spec.
  destruct (Prim2SF z), (Prim2SF d); simpl; tauto.
Qed.

Lemma zero_or_nan_add (a b : float) :
  zero_or_nan a -> zero_or_nan b -> zero_or_nan (a + b).
Proof.
  unfold zero_or_nan. rewrite add_spec.
  destruct (Prim2SF a) as [sa|sa| |sa ma ea], (Prim2SF b) as [sb|sb| |sb mb eb];
    simpl; try tauto.
  destruct sa, sb; simpl; tauto.
Qed.

Lemma zero_or_nan_sub_diag (x : float) : zero_or_nan (x - x).
Proof.
  unfold zero_or_nan. rewrite sub_spec.
  destruct (Prim2SF x) as [s|s| |s m e]; simpl.
  - destruct s; exact I.
  - destruct s; exact I.
  - exact I.
  - rewrite Z.sub_diag. exact I.
Qed.

(** [is_nan] and the comparisons with zero, on the decoded form. *)
Lemma is_nan_Prim2SF (x : float) :
  is_nan x = match Prim2SF x with S754_nan => true | _ => false end.
Proof.
  unfold is_nan. rewrite FloatAxioms.eqb_spec.
  destruct (Prim2SF x) as [s|s| |s m e]; simpl; try reflexivity.
  all: unfold SFeqb, SFcompare; sf_signs; sf_compare.
Qed.

Lemma zero_or_nan_cases (z : float) :
  zero_or_nan z ->
  is_nan z = true \/ (is_nan z = false /\ is_infinity z = false /\ (z =? 0)%float = true).
Proof.
  unfold zero_or_nan, is_infinity. rewrite is_nan_Prim2SF.
  rewrite !FloatAxioms.eqb_spec, abs_spec.
  destruct (Prim2SF z) as [s|s| |s m e]; tauto.
Qed.

(** A power of a zero or a NaN is one of them again: CPython settles both
    before the C library is called. *)
Lemma zero_or_nan_pow (libm_pow : float -> float -> result float)
    (z r : float) (k : Z) :
  zero_or_nan z -> float_pow libm_pow z k = Ok r -> zero_or_nan r.
Proof.
  intros Hz H. unfold float_pow in H.
  destruct (zero_or_nan_cases z Hz) as [Hnan|(Hnan & Hinf & Hzero)].
  - rewrite Hnan in H. injection H as <-. exact Hz.
  - rewrite Hnan, Hinf, Hzero in H. injection H as <-.
    destruct (Z.odd k); [exact Hz | exact I].
Qed.

(** Adding a zero to a nonzero number leaves the number, bit for bit. *)
Lemma add_zero_or_nan (c z : float) :
  (exists s m e, Prim2SF c = S754_finite s m e) ->
  zero_or_nan z -> is_nan (c + z) = false -> (c + z)%float = c.
Proof.
  intros (s & m & e & Hc) Hz Hnan.
  assert (Heq : Prim2SF (c + z) = Prim2SF c).
  { rewrite is_nan_Prim2SF in Hnan. revert Hnan.
    unfold zero_or_nan in Hz. rewrite add_spec, Hc.
    destruct (Prim2SF z); simpl in *; try tauto; intros; congruence. }
  rewrite <- (SF2Prim_Prim2SF (c + z)), Heq. apply SF2Prim_Prim2SF.
Qed.

(** The wrapper of the mathematical functions returns the C function's
    result or raises. *)
Lemma math_1_Ok (func : float -> float) (x r : float) :
  math_1 func x = Ok r -> r = func x.
Proof.
  unfold math_1. intros H.
  destruct (is_nan (func x) && negb (is_nan x)); [discriminate|].
  destruct (is_infinity (func x) && is_finite x); [discriminate|].
  congruence.
Qed.

Section Origin.
Variable libm_sin libm_cos libm_tan : float -> float.
Variable libm_pow : float -> float -> result float.

Lemma origin_offsets (x y : float) :
  _lon_lat_to_unified libm_sin libm_cos libm_tan libm_pow 127.5 38.0
    = Ok (x, y) ->
  exists u v, zero_or_nan u /\ zero_or_nan v
    /\ x = (FALSE_EASTING + u)%float /\ y = (FALSE_NORTHING + v)%float.
Proof.
  unfold _lon_lat_to_unified. intros H.
  apply bind_Ok_inv in H as (m0 & Hm0 & H).
  apply bind_Ok_inv in H as (sin_phi & _ & H).
  apply bind_Ok_inv in H as (cos_phi & _ & H).
  apply bind_Ok_inv in H as (tan_phi & _ & H).
  apply bind_Ok_inv in H as (root & _ & H).
  apply bind_Ok_inv in H as (n & _ & H).
  apply bind_Ok_inv in H as (m & Hm & H).
  apply bind_Ok_inv in H as (a3 & Ha3 & H).
  apply bind_Ok_inv in H as (a5 & Ha5 & H).
  apply bind_Ok_inv in H as (a4 & Ha4 & H).
  apply bind_Ok_inv in H as (a6 & Ha6 & H).
  unfold M0, LAT0 in Hm0. rewrite Hm in Hm0. injection Hm0 as <-.
  assert (Ha : zero_or_nan (cos_phi * (math_radians 127.5 - LON0))).
  { apply zero_or_nan_mul_r. exact (zero_or_nan_sub_diag (math_radians 127.5)). }
  assert (Hpow : forall k r,
    float_pow libm_pow (cos_phi * (math_radians 127.5 - LON0)) k = Ok r ->
    forall coef d, zero_or_nan (coef * r / d)).
  { intros k r Hr coef d. apply zero_or_nan_div, zero_or_nan_mul_r.
    exact (zero_or_nan_pow _ _ _ _ Ha Hr). }
  injection H as <- <-. eexists _, _.
  split; [|split; [|split; reflexivity]].
  - apply zero_or_nan_mul_r. repeat apply zero_or_nan_add; eauto.
  - apply zero_or_nan_mul_r, zero_or_nan_add.
    + apply zero_or_nan_sub_diag.
    + apply zero_or_nan_mul_r. repeat apply zero_or_nan_add; eauto.
      apply zero_or_nan_div, zero_or_nan_mul_r, Ha.
Qed.

End Origin.

End ProjectionProofs.

(** The false origin is a nonzero number. *)
Lemma false_origin_finite :
  (exists s m e, Prim2SF Projection.FALSE_EASTING = S754_finite s m e)
  /\ (exists s m e, Prim2SF Projection.FALSE_NORTHING = S754_finite s m e).
Proof. split; vm_compute; eauto. Qed.

(** C7 (projection of the origin).  Whatever the C library's [sin], [cos],
    [tan] and [pow] return, a call of [_lon_lat_to_unified] on the origin
    (longitude 127.5, latitude 38.0) that returns two numbers (no NaN)
    returns the false origin (1000000.0, 2000000.0) bit for bit, hence
    within the tolerance 1e-6 in each coordinate. *)
Theorem lon_lat_to_unified_origin_exact
    (libm_sin libm_cos libm_tan : float -> float)
    (libm_pow : float -> float -> result float) (x y : float) :
  Projection._lon_lat_to_unified libm_sin libm_cos libm_tan libm_pow
    127.5 38.0 = Ok (x, y) ->
  is_nan x = false -> is_nan y = false ->
  x = Projection.FALSE_EASTING /\ y = Projection.FALSE_NORTHING
  /\ Projection.close_to x 1000000 = true
  /\ Projection.close_to y 2000000 = true.
Proof.
  intros H Hx Hy.
  apply ProjectionProofs.origin_offsets in H
    as (u & v & Hu & Hv & -> & ->).
  destruct false_origin_finite as [HE HN].
  rewrite (ProjectionProofs.add_zero_or_nan _ _ HE Hu Hx).
  rewrite (ProjectionProofs.add_zero_or_nan _ _ HN Hv Hy).
  repeat split; reflexivity.
Qed.

(** With the tabulated C library the call returns, and returns the false
    origin. *)
Lemma lon_lat_to_unified_origin_exact_witness :
  Projection._lon_lat_to_unified Projection.table_sin Projection.table_cos
    Projection.table_tan Projection.table_pow 127.5 38.0
    = Ok (1000000%float, 2000000%float)
  /\ (1000000%float = Projection.FALSE_EASTING
      /\ 2000000%float = Projection.FALSE_NORTHING
      /\ Projection.close_to 1000000 1000000 = true
      /\ Projection.close_to 2000000 2000000 = true).
Proof.
  split; [vm_compute; reflexivity|].
  apply (lon_lat_to_unified_origin_exact Projection.table_sin
           Projection.table_cos Projection.table_tan Projection.table_pow);
    vm_compute; reflexivity.
Defined.

(** ** More on the order of floats *)

Lemma float_ltb_asym (a b : float) :
  (a <? b)%float = true -> (b <? a)%float = false.
Proof.
  intros H. destruct (b <? a)%float eqn:Hba; [|reflexivity].
  pose proof (float_ltb_trans a b a H Hba) as Haa.
  by rewrite float_ltb_irrefl in Haa.
Qed.

(** What is not below [m] is not below anything below [m]. *)
Lemma float_ltb_not_below (x m m' : float) :
  (x <? m)%float = false -> (m' <? m)%float = true ->
  (x <? m')%float = false.
Proof.
  intros Hx Hm. destruct (x <? m')%float eqn:Hxm; [|reflexivity].
  by rewrite (float_ltb_trans x m' m Hxm Hm) in Hx.
Qed.

Lemma float_ltb_not_above (x m m' : float) :
  (m <? x)%float = false -> (m <? m')%float = true ->
  (m' <? x)%float = false.
Proof.
  intros Hx Hm. destruct (m' <? x)%float eqn:Hxm; [|reflexivity].
  by rewrite (float_ltb_trans m m' x Hm Hxm) in Hx.
Qed.

Lemma float_ltb_neq (a b : float) :
  (a <? b)%float = true -> (a =? b)%float = false.
Proof.
  rewrite ltb_spec, FloatAxioms.eqb_spec. unfold SFltb, SFeqb.
  by destruct (SFcompare _ _) as [[]|].
Qed.

(** The running minimum and maximum of [min(m, x)] and [max(m, x)]. *)
Lemma py_min_bound (m x : float) :
  (x <? py_min m x)%float = false
  /\ forall z, (z <? m)%float = false -> (z <? py_min m x)%float = false.
Proof.
  unfold py_min. destruct (x <? m)%float eqn:Hx.
  - split; [apply float_ltb_irrefl|].
    intros z Hz. by apply (float_ltb_not_below z m x).
  - split; [exact Hx | auto].
Qed.

Lemma py_max_bound (m x : float) :
  (py_max m x <? x)%float = false
  /\ forall z, (m <? z)%float = false -> (py_max m x <? z)%float = false.
Proof.
  unfold py_max. destruct (m <? x)%float eqn:Hx.
  - split; [apply float_ltb_irrefl|].
    intros z Hz. by apply (float_ltb_not_above z m x).
  - split; [exact Hx | auto].
Qed.

(** ** Lists *)

Lemma elem_of_concat {A : Type} (x : A) (ls : list (list A)) :
  x ∈ concat ls <-> exists l, x ∈ l /\ l ∈ ls.
Proof.
  induction ls as [|l ls IH]; cbn [concat].
  - split; [by intros ?%elem_of_nil|].
    by intros (l & _ & ?%elem_of_nil).
  - rewrite elem_of_app, IH. split.
    + intros [Hx|(l' & Hx & Hl')].
      * exists l. split; [done | apply list_elem_of_here].
      * exists l'. split; [done | by apply list_elem_of_further].
    + intros (l' & Hx & [->|Hl']%elem_of_cons); [by left|].
      right. eauto.
Qed.

(** ** Bounding boxes ([compute_bounds], [_merge_bounds]) *)

Lemma bounds_step_holds (acc : bounds) (p : point) :
  box_holds (Jeju.bounds_step acc p) p
  /\ forall q, box_holds acc q -> box_holds (Jeju.bounds_step acc p) q.
Proof.
  destruct acc as [[[min_x min_y] max_x] max_y], p as [x y].
  cbn [Jeju.bounds_step box_holds fst snd].
  destruct (py_min_bound min_x x) as [Hx0 Hx1].
  destruct (py_min_bound min_y y) as [Hy0 Hy1].
  destruct (py_max_bound max_x x) as [HX0 HX1].
  destruct (py_max_bound max_y y) as [HY0 HY1].
  split; [by repeat split|].
  intros [qx qy] (H1 & H2 & H3 & H4). cbn [fst snd] in *.
  repeat split; auto.
Qed.

Lemma bounds_fold_holds (l : list point) :
  forall acc,
    (forall p, p ∈ l -> box_holds (foldl Jeju.bounds_step acc l) p)
    /\ (forall q, box_holds acc q ->
                  box_holds (foldl Jeju.bounds_step acc l) q).
Proof.
  induction l as [|p l IH]; intros acc; cbn [foldl].
  - split; [|auto]. intros p Hp. by apply elem_of_nil in Hp.
  - destruct (IH (Jeju.bounds_step acc p)) as [IH1 IH2].
    destruct (bounds_step_holds acc p) as [Hp Hq].
    split.
    + intros p' [->|Hp']%elem_of_cons; auto.
    + auto.
Qed.

(** The two nested loops are one loop over all the points. *)
Lemma bounds_fold_concat (lines : list (list point)) :
  forall acc,
    foldl (fun acc line => foldl Jeju.bounds_step acc line) acc lines
    = foldl Jeju.bounds_step acc (concat lines).
Proof.
  induction lines as [|line lines IH]; intros acc; cbn [foldl concat];
    [reflexivity|].
  by rewrite IH, foldl_app.
Qed.

(** The first component of the loop is the running minimum of the [x]. *)
Lemma bounds_fold_min_x (l : list point) :
  forall acc,
    (foldl Jeju.bounds_step acc l).1.1.1 = foldl py_min acc.1.1.1 (fst <$> l).
Proof.
  induction l as [|p l IH]; intros acc; cbn [foldl fmap list_fmap];
    [reflexivity|].
  rewrite IH. by destruct acc as [[[min_x min_y] max_x] max_y], p as [x y].
Qed.

Lemma run_min_below (xs : list float) :
  forall m, (m <? infinity)%float = true ->
            (foldl py_min m xs <? infinity)%float = true.
Proof.
  induction xs as [|x xs IH]; intros m Hm; cbn [foldl]; [exact Hm|].
  apply IH. unfold py_min. destruct (x <? m)%float eqn:Hx; [|exact Hm].
  exact (float_ltb_trans _ _ _ Hx Hm).
Qed.

Lemma run_min_cases (xs : list float) :
  (Forall (fun x => (x <? infinity)%float = false) xs
   /\ foldl py_min infinity xs = infinity)
  \/ (Exists (fun x => (x <? infinity)%float = true) xs
      /\ (foldl py_min infinity xs <? infinity)%float = true).
Proof.
  induction xs as [|x xs IH]; cbn [foldl].
  - left. split; [constructor | reflexivity].
  - change (py_min infinity x)
      with (if (x <? infinity)%float then x else infinity).
    destruct (x <? infinity)%float eqn:Hx.
    + right. split; [by left | by apply run_min_below].
    + destruct IH as [[Hall Heq]|[Hex Hlt]].
      * left. split; [by constructor | exact Heq].
      * right. split; [by right | exact Hlt].
Qed.

Lemma run_min_attained (xs : list float) :
  forall m, foldl py_min m xs = m \/ foldl py_min m xs ∈ xs.
Proof.
  induction xs as [|x xs IH]; intros m; cbn [foldl]; [by left|].
  destruct (IH (py_min m x)) as [->|Hin].
  - unfold py_min.
    destruct (x <? m)%float; [right; apply list_elem_of_here | by left].
  - right. by apply list_elem_of_further.
Qed.

(** Unfolding [compute_bounds]. *)
Lemma compute_bounds_fold (lines : list (list point)) :
  let acc := foldl Jeju.bounds_step
               (infinity, infinity, neg_infinity, neg_infinity)
               (concat lines) in
  Jeju.compute_bounds lines
  = if (acc.1.1.1 =? infinity)%float then None else Some acc.
Proof.
  unfold Jeju.compute_bounds. rewrite bounds_fold_concat.
  by destruct (foldl _ _ _) as [[[min_x min_y] max_x] max_y].
Qed.

(** X1. [compute_bounds] returns a box that holds every point of every line,
    and whose [min_x] is the [x] of one of the points. *)
Theorem compute_bounds_encloses (lines : list (list point)) (b : bounds) :
  Jeju.compute_bounds lines = Some b ->
  (forall line p, line ∈ lines -> p ∈ line -> box_holds b p)
  /\ (exists line p, line ∈ lines /\ p ∈ line /\ p.1 = b.1.1.1).
Proof.
  rewrite compute_bounds_fold. cbv zeta.
  pose proof (bounds_fold_min_x (concat lines)
                (infinity, infinity, neg_infinity, neg_infinity)) as Hmin.
  destruct (bounds_fold_holds (concat lines)
              (infinity, infinity, neg_infinity, neg_infinity)) as [Hall _].
  destruct (_ =? _)%float eqn:Hinf; [discriminate|].
  intros [= <-]. split.
  - intros line p Hline Hp. apply Hall, elem_of_concat. eauto.
  - cbn [fst] in Hmin.
    destruct (run_min_attained (fst <$> concat lines) infinity) as [Heq|Hin].
    + rewrite Hmin, Heq in Hinf. discriminate.
    + rewrite <- Hmin in Hin.
      apply list_elem_of_fmap in Hin as (p & Hp & Hin).
      apply elem_of_concat in Hin as (line & Hin & Hline). eauto.
Qed.

Lemma compute_bounds_encloses_witness :
  let lines := [[(1, 5); (3, -2)]; []; [(-4, 0.5)]]%float in
  Jeju.compute_bounds lines = Some (-4, -2, 3, 5)%float
  /\ box_holds (-4, -2, 3, 5)%float (3, -2)%float.
Proof.
  intros lines. split; [reflexivity|].
  apply (proj1 (compute_bounds_encloses lines _ eq_refl) [(1, 5); (3, -2)]%float).
  - apply list_elem_of_here.
  - apply list_elem_of_further, list_elem_of_here.
Defined.

(** X2. [compute_bounds] raises exactly when no point has an [x] below
    [+inf]: on no points at all, and on points whose [x] are all [+inf] or
    NaN. *)
Theorem compute_bounds_fails (lines : list (list point)) :
  Jeju.compute_bounds lines = None
  <-> forall line p, line ∈ lines -> p ∈ line ->
                     (p.1 <? infinity)%float = false.
Proof.
  rewrite compute_bounds_fold. cbv zeta.
  rewrite bounds_fold_min_x. cbn [fst].
  destruct (run_min_cases (fst <$> concat lines)) as [[Hall ->]|[Hex Hlt]].
  - split; [|reflexivity]. intros _ line p Hline Hp.
    rewrite Forall_forall in Hall. apply Hall, list_elem_of_fmap.
    exists p. split; [reflexivity|]. apply elem_of_concat. eauto.
  - rewrite (float_ltb_neq _ _ Hlt). split; [discriminate|].
    intros Hall. apply Exists_exists in Hex as (x & Hx & Hlt').
    apply list_elem_of_fmap in Hx as (p & -> & Hp).
    apply elem_of_concat in Hp as (line & Hp & Hline).
    by rewrite (Hall line p Hline Hp) in Hlt'.
Qed.

(** X3. The merged box holds both boxes, and merging a box with itself gives
    it back. *)
Theorem merge_bounds_within (a b : bounds) :
  box_within a (Region._merge_bounds (Some a) b)
  /\ box_within b (Region._merge_bounds (Some a) b)
  /\ box_within b (Region._merge_bounds None b)
  /\ Region._merge_bounds (Some b) b = b.
Proof.
  destruct a as [[[a0 a1] a2] a3], b as [[[b0 b1] b2] b3].
  cbn [Region._merge_bounds box_within].
  pose proof (fun m x => proj1 (py_min_bound m x)) as Hmin_new.
  pose proof (fun m x => proj2 (py_min_bound m x) m (float_ltb_irrefl m))
    as Hmin_old.
  pose proof (fun m x => proj1 (py_max_bound m x)) as Hmax_new.
  pose proof (fun m x => proj2 (py_max_bound m x) m (float_ltb_irrefl m))
    as Hmax_old.
  repeat split; auto using float_ltb_irrefl.
  unfold py_min, py_max. by rewrite !float_ltb_irrefl.
Qed.

(** ** More on the exact simplifier *)

(** *** The squared distance is never negative *)

Lemma binary_round_aux_sign (m e : Z) (l : location) :
  not_negative (binary_round_aux prec emax false m e l).
Proof.
  unfold binary_round_aux.
  destruct (shr_fexp prec emax m e l) as [mrs' e'].
  destruct (shr_fexp prec emax _ e' loc_Exact) as [mrs'' e''].
  destruct (shr_m mrs''); [exact I | | exact I].
  destruct (e'' <=? emax - prec); reflexivity.
Qed.

Lemma SFadd_sign (x y : spec_float) :
  not_negative x -> not_negative y -> not_negative (SF64add x y).
Proof.
  unfold SF64add, SFadd.
  destruct x as [sx|sx| |sx mx ex], y as [sy|sy| |sy my ey];
    cbn [not_negative]; intros; subst; try done.
  - by destruct sx, sy.
  - cbn [cond_Zopp]. unfold binary_normalize.
    match goal with |- context [(Z.pos ?p + Z.pos ?q)%Z] =>
      change (Z.pos p + Z.pos q)%Z with (Z.pos (p + q)) end.
    unfold binary_round. destruct (shl_align _ _ _) as [mz ez].
    apply binary_round_aux_sign.
Qed.

Lemma not_negative_ltb (d : float) :
  not_negative (Prim2SF d) <-> (d <? 0)%float = false.
Proof.
  rewrite ltb_spec. change (Prim2SF 0) with (S754_zero false).
  destruct (Prim2SF d) as [s|s| |s m e]; cbn [not_negative];
    unfold SFltb, SFcompare; sf_signs; split; intros; sf_signs.
Qed.

Section NotNegative.

Variable libm_pow : float -> float -> result float.

(** The C library's [pow] returns no negative number at the exponent 2. *)
Hypothesis libm_pow_square :
  forall x r, libm_pow x 2 = Ok r -> (r <? 0)%float = false.

Lemma py_sq_sign (x u : float) :
  py_sq libm_pow x = Ok u -> not_negative (Prim2SF u).
Proof.
  unfold py_sq, Projection.float_pow.
  change (Z.odd 2) with false. rewrite andb_false_r. cbv iota.
  destruct (is_nan x) eqn:Hnan.
  { intros [= <-]. unfold is_nan in Hnan. apply negb_true_iff in Hnan.
    rewrite FloatAxioms.eqb_spec in Hnan.
    destruct (Prim2SF x) as [s|s| |s m e]; try exact I;
      exfalso; revert Hnan; unfold SFeqb, SFcompare; sf_signs; sf_compare. }
  destruct (is_infinity x).
  { intros [= <-]. rewrite abs_spec.
    by destruct (Prim2SF x) as [s|s| |s m e]. }
  destruct (x =? 0)%float; [by intros [= <-]|].
  destruct (_ =? 1)%float; [by intros [= <-]|].
  intros Hu. apply bind_Ok_inv in Hu as (r & Hr & [= <-]).
  apply not_negative_ltb. exact (libm_pow_square _ _ Hr).
Qed.

(** X4. Whatever the squared distance of a point to a segment is, it is not
    below zero, provided the C library's [pow] returns no negative number
    at the exponent 2. *)
Theorem distance_sq_not_negative (p a b : point) (d : float) :
  _distance_sq_point_to_segment libm_pow p a b = Ok d ->
  (d <? 0)%float = false.
Proof.
  intros H. apply not_negative_ltb.
  destruct p as [px py], a as [ax ay], b as [bx by_].
  unfold _distance_sq_point_to_segment in H.
  destruct (_ && _).
  - apply bind_Ok_inv in H as (u & Hu & H).
    apply bind_Ok_inv in H as (v & Hv & H). injection H as <-.
    rewrite add_spec. apply SFadd_sign; eapply py_sq_sign; eauto.
  - apply bind_Ok_inv in H as (t & _ & H).
    apply bind_Ok_inv in H as (u & Hu & H).
    apply bind_Ok_inv in H as (v & Hv & H). injection H as <-.
    rewrite add_spec. apply SFadd_sign; eapply py_sq_sign; eauto.
Qed.

End NotNegative.

(** The [pow] of the examples returns a rounded product. *)
Lemma square_pow_not_negative (x r : float) :
  square_pow x 2 = Ok r -> (r <? 0)%float = false.
Proof.
  unfold square_pow. change (2 =? 2)%float with true. cbv iota zeta.
  destruct (_ && _); [discriminate|]. intros [= <-].
  apply not_negative_ltb. rewrite mul_spec.
  pose proof (SFmul_square_sign (Prim2SF x)) as Hs.
  by destruct (SF64mul (Prim2SF x) (Prim2SF x)).
Qed.

Lemma distance_sq_not_negative_witness :
  _distance_sq_point_to_segment square_pow (1, 3)%float (0, 0)%float
    (4, 0)%float
    = Ok 9%float
  /\ (9 <? 0)%float = false.
Proof.
  split; [reflexivity|].
  exact (distance_sq_not_negative square_pow square_pow_not_negative
           (1, 3)%float (0, 0)%float (4, 0)%float 9 eq_refl).
Defined.

Section MoreOnSimplifier.

Variable libm_pow : float -> float -> result float.

(** *** The guard [len(simplified) < 2] of the callers *)

Lemma simplify_line_two (points out : list point) (tolerance : float) :
  (2 <= length points)%nat ->
  _simplify_line libm_pow points tolerance = Ok out ->
  (2 <= length out)%nat.
Proof.
  intros Hlen H.
  destruct (list_ends points Hlen) as (a & mid & b & ->).
  destruct (decide (mid = [])) as [->|Hmid].
  - injection H as <-. simpl. lia.
  - rewrite (simplify_line_mask libm_pow a b mid tolerance Hmid) in H.
    apply bind_Ok_inv in H as (mask & _ & H). injection H as <-.
    cbn [length]. rewrite length_app. simpl. lia.
Qed.

(** X5. A line of at least 2 points keeps at least 2 points: the callers'
    test [len(simplified) < 2] never holds on such a line. *)
Theorem simplify_line_at_least_two (points out : list point)
    (tolerance : float) :
  (2 <= length points)%nat ->
  _simplify_line libm_pow points tolerance = Ok out ->
  (2 <= length out)%nat.
Proof. apply simplify_line_two. Qed.

(** *** When only the two ends remain *)

Lemma dists_elem (a b : point) (mid : list point) :
  forall ds,
    dists libm_pow a b mid = Ok ds ->
    (forall d, d ∈ ds ->
       exists p, p ∈ mid
                 /\ _distance_sq_point_to_segment libm_pow p a b = Ok d)
    /\ (forall p d, p ∈ mid ->
          _distance_sq_point_to_segment libm_pow p a b = Ok d ->
          d ∈ ds).
Proof.
  induction mid as [|q mid IH]; intros ds H; cbn [dists] in H.
  - injection H as <-. split.
    + by intros d ?%elem_of_nil.
    + by intros p d ?%elem_of_nil.
  - apply bind_Ok_inv in H as (dq & Hdq & H).
    apply bind_Ok_inv in H as (ds' & Hds & H). injection H as <-.
    destruct (IH ds' Hds) as [IH1 IH2]. split.
    + intros d [->|Hd]%elem_of_cons.
      * exists q. split; [apply list_elem_of_here | done].
      * destruct (IH1 d Hd) as (p & Hp & Hpd).
        exists p. split; [by apply list_elem_of_further | done].
    + intros p d [->|Hp]%elem_of_cons Hpd.
      * rewrite Hdq in Hpd. injection Hpd as ->. apply list_elem_of_here.
      * apply list_elem_of_further. eauto.
Qed.

(** The squared tolerance is not below the initial maximum [-1]. *)
Lemma tol_sq_init (t : float) : (t * t <? -1)%float = false.
Proof.
  destruct (t * t <? -1)%float eqn:H; [|reflexivity].
  apply float_square_above_init in H. by rewrite float_ltb_irrefl in H.
Qed.

(** The first turn of the loop, on the distances the code computes: the
    ends alone remain exactly when no distance is above the squared
    tolerance, and otherwise a point at the greatest distance is kept. *)
Lemma simplify_line_first_turn (a b : point) (mid out : list point)
    (tolerance : float) :
  mid <> [] ->
  _simplify_line libm_pow (a :: mid ++ [b]) tolerance = Ok out ->
  (out = [a; b]
   <-> forall p d, p ∈ mid ->
         _distance_sq_point_to_segment libm_pow p a b = Ok d ->
         (tolerance * tolerance <? d)%float = false)
  /\ (out <> [a; b] ->
      exists p d,
        p ∈ mid /\ p ∈ out
        /\ _distance_sq_point_to_segment libm_pow p a b = Ok d
        /\ (tolerance * tolerance <? d)%float = true
        /\ forall q e, q ∈ mid ->
             _distance_sq_point_to_segment libm_pow q a b = Ok e ->
             (d <? e)%float = false).
Proof.
  intros Hmid H.
  rewrite (simplify_line_mask libm_pow a b mid tolerance Hmid) in H.
  apply bind_Ok_inv in H as (mask & Hmask & H). injection H as <-.
  cbn [simplify_mask] in Hmask.
  apply bind_Ok_inv in Hmask as (ds & Hds & Hmask).
  destruct (dists_elem a b mid ds Hds) as [Hfrom Hto].
  destruct (scan_floats ds 0 (-1)%float None) as [m idx] eqn:Hscan.
  apply scan_floats_char in Hscan
    as [(-> & -> & Hub)|(l & r & -> & -> & Hmax & Hub)].
  - (* nothing beat the initial maximum *)
    injection Hmask as <-. rewrite select_false.
    split; [|by intros []]. split; [|done].
    intros _ p d Hp Hd. rewrite Forall_forall in Hub.
    pose proof (Hub d (Hto p d Hp Hd)) as Hd1.
    destruct (tolerance * tolerance <? d)%float eqn:Hlt; [|done].
    apply float_square_above_init in Hlt. by rewrite Hlt in Hd1.
  - assert (Hgreatest : forall q e, q ∈ mid ->
              _distance_sq_point_to_segment libm_pow q a b = Ok e ->
              (m <? e)%float = false).
    { intros q e Hq He. apply Hto in He; [|done].
      apply elem_of_app in He as [He|[->|He]%elem_of_cons].
      - pose proof (run_max_ub l (-1)%float) as Hl.
        rewrite Forall_forall in Hl.
        by apply (float_ltb_not_above e (run_max (-1) l) m); auto.
      - apply float_ltb_irrefl.
      - rewrite Forall_forall in Hub. auto. }
    destruct (tolerance * tolerance <? m)%float eqn:Htol.
    + (* the farthest point is kept *)
      apply bind_Ok_inv in Hmask as (ps & Hps & Hmask).
      apply bind_Ok_inv in Hmask as (right & Hright & Hmask).
      apply bind_Ok_inv in Hmask as (left & Hleft & Hmask).
      injection Hmask as <-.
      apply get_Ok in Hps. apply simplify_mask_length in Hleft.
      assert (Hout : select (left ++ true :: right) mid
                     = select left (take (0 + length l) mid)
                       ++ ps :: select right (drop (S (0 + length l)) mid)).
      { rewrite <- (take_drop_middle mid _ ps Hps) at 1.
        by rewrite select_app by done. }
      rewrite Hout.
      assert (Hdist : _distance_sq_point_to_segment libm_pow ps a b = Ok m).
      { destruct (dists_lookup libm_pow a b mid _ Hds _ _ Hps)
          as (d & Hd & Hpd).
        cbn [Nat.add] in Hd. rewrite list_lookup_middle in Hd by done.
        by injection Hd as <-. }
      split; [split|].
      * intros Heq. apply (f_equal length) in Heq.
        cbn [length] in Heq. rewrite !length_app in Heq.
        cbn [length] in Heq. lia.
      * intros Hall. by rewrite (Hall ps m (list_elem_of_lookup_2 _ _ _ Hps)
                                   Hdist) in Htol.
      * intros _. exists ps, m.
        split; [exact (list_elem_of_lookup_2 _ _ _ Hps)|].
        split; [|done].
        apply list_elem_of_further, elem_of_app. left.
        apply elem_of_app. right. apply list_elem_of_here.
    + (* the maximum is within the tolerance, and so are all *)
      injection Hmask as <-. rewrite select_false.
      split; [|by intros []]. split; [|done].
      intros _ p d Hp Hd.
      destruct (tolerance * tolerance <? d)%float eqn:Hlt; [|done].
      by rewrite (float_ltb_above _ m _ d Hmax Hlt (Hgreatest p d Hp Hd))
        in Htol.
Qed.

(** X6. [_simplify_line] on a line with interior points returns the two ends
    alone exactly when no interior point has a squared distance to the
    segment between the ends above the squared tolerance; otherwise an
    interior point at the greatest distance is among the points it
    returns.  The distance is that of the specification,
    [spec_distance_sq]. *)
Theorem simplify_line_chord (a b : point) (mid out : list point)
    (tolerance : float) :
  mid <> [] ->
  _simplify_line libm_pow (a :: mid ++ [b]) tolerance = Ok out ->
  (out = [a; b]
   <-> forall p d, p ∈ mid -> spec_distance_sq libm_pow p a b = Ok d ->
         (tolerance * tolerance <? d)%float = false)
  /\ (out <> [a; b] ->
      exists p d,
        p ∈ mid /\ p ∈ out
        /\ spec_distance_sq libm_pow p a b = Ok d
        /\ (tolerance * tolerance <? d)%float = true
        /\ forall q e, q ∈ mid -> spec_distance_sq libm_pow q a b = Ok e ->
             (d <? e)%float = false).
Proof.
  intros Hmid H.
  destruct (simplify_line_first_turn a b mid out tolerance Hmid H)
    as [Hiff Hkept].
  split; [split|].
  - intros Hout p d Hp Hd. rewrite <- distance_sq_clamped in Hd.
    exact (proj1 Hiff Hout p d Hp Hd).
  - intros Hall. apply Hiff. intros p d Hp Hd.
    rewrite distance_sq_clamped in Hd. eauto.
  - intros Hout. destruct (Hkept Hout) as (p & d & Hp & Hpo & Hd & Htol & Hg).
    exists p, d. rewrite <- distance_sq_clamped.
    repeat split; try assumption.
    intros q e Hq He. rewrite <- distance_sq_clamped in He. eauto.
Qed.

End MoreOnSimplifier.

Lemma simplify_line_at_least_two_witness :
  let points := [(0, 0); (1, 0.25); (2, 0)]%float in
  (2 <= length points)%nat
  /\ _simplify_line square_pow points 1%float = Ok [(0, 0); (2, 0)]%float
  /\ (2 <= length [(0, 0); (2, 0)]%float)%nat.
Proof.
  intros points. split; [simpl; lia|]. split; [reflexivity|].
  apply (simplify_line_at_least_two square_pow points _ 1%float);
    [simpl; lia|reflexivity].
Defined.

(** The first line stays within the tolerance 1 of its chord; on the
    second the point [(2, 3)], the farthest, is kept. *)
Lemma simplify_line_chord_witness :
  let a := (0, 0)%float in
  let b := (4, 0)%float in
  let mid := [(1, 0.5); (2, -0.5); (3, 0.25)]%float in
  let far := [(1, 2); (2, 3); (3, 0.25)]%float in
  (mid <> []
   /\ _simplify_line square_pow (a :: mid ++ [b]) 1%float = Ok [a; b]
   /\ forall p d, p ∈ mid -> spec_distance_sq square_pow p a b = Ok d ->
        (1 * 1 <? d)%float = false)
  /\ (far <> []
      /\ _simplify_line square_pow (a :: far ++ [b]) 1%float
         = Ok [a; (2, 3); b]%float
      /\ exists p d,
           p ∈ far /\ p ∈ [a; (2, 3); b]%float
           /\ spec_distance_sq square_pow p a b = Ok d
           /\ (1 * 1 <? d)%float = true
           /\ forall q e, q ∈ far -> spec_distance_sq square_pow q a b = Ok e ->
                (d <? e)%float = false).
Proof.
  intros a b mid far. split.
  - split; [done|]. split; [reflexivity|].
    apply (simplify_line_chord square_pow a b mid [a; b] 1%float);
      [done | reflexivity | reflexivity].
  - split; [done|]. split; [vm_compute; reflexivity|].
    apply (simplify_line_chord square_pow a b far _ 1%float);
      [done | vm_compute; reflexivity | discriminate].
Defined.

(** ** More on the fast simplifier *)

Lemma SFeqb_trans (a b c : spec_float) :
  SFeqb a b = true -> SFeqb b c = true -> SFeqb a c = true.
Proof.
  unfold SFeqb, SFcompare.
  destruct a as [sa|sa| |sa ma ea], b as [sb|sb| |sb mb eb],
    c as [sc|sc| |sc mc ec]; sf_signs; intros; sf_compare.
Qed.

(** Equality of points by value is transitive. *)
Lemma point_eq_trans (p s q : point) :
  point_neq p s = false -> point_neq s q = false -> point_neq p q = false.
Proof.
  unfold point_neq. rewrite !negb_false_iff, !andb_true_iff.
  rewrite !FloatAxioms.eqb_spec. intros [H1 H2] [H3 H4].
  split; eapply SFeqb_trans; eauto.
Qed.

Lemma fast_shape_spacing (a b : point) (mid : list point)
    (min_spacing : float) :
  exists simplified,
    spacing_filter (a :: mid ++ [b]) min_spacing = Ok simplified
    /\ fast_shape_of a b simplified.
Proof.
  destruct (spacing_filter_ends a b mid min_spacing) as (s_last & Hs & ->).
  eexists. split; [reflexivity|].
  set (scanned := spacing_scan _ a mid) in *.
  destruct (point_neq s_last b) eqn:Hneq.
  - exists (scanned ++ [b]), b. repeat split.
    + change (a :: scanned ++ [b]) with ((a :: scanned) ++ [b]).
      apply last_snoc.
    + by left.
    + intros _. by destruct scanned.
  - exists scanned, s_last. repeat split; [done | by right |].
    intros Hab ->. cbn in Hs. injection Hs as <-. congruence.
Qed.

(** The stride pass keeps the shape. *)
Lemma fast_shape_stride (a b : point) (simplified sampled : list point)
    (t_last s_last : point) :
  fast_shape_of a b simplified ->
  get_last (a :: sampled) = Ok t_last ->
  get_last simplified = Ok s_last ->
  fast_shape_of a b
    (if point_neq t_last s_last then (a :: sampled) ++ [s_last]
     else a :: sampled).
Proof.
  intros (body & p_last & -> & Hlast & Hb & Hopen) Ht Hs.
  apply get_last_Ok in Ht, Hs. rewrite Hlast in Hs. injection Hs as ->.
  destruct (point_neq t_last s_last) eqn:Hneq.
  - exists (sampled ++ [s_last]), s_last. repeat split.
    + apply last_snoc.
    + exact Hb.
    + intros _. by destruct sampled.
  - assert (Htb : t_last = b \/ point_neq t_last b = false).
    { destruct Hb as [->|Hb]; [by right|].
      right. by apply (point_eq_trans _ s_last). }
    exists sampled, t_last. repeat split; [done..|].
    intros Hab ->. cbn in Ht. injection Ht as <-.
    destruct Htb as [->|Htb]; [|congruence].
    apply point_neq_self in Hneq. congruence.
Qed.

Lemma simplify_line_fast_shape (a b : point) (mid out : list point)
    (min_spacing : float) (max_points : Z) :
  mid <> [] ->
  _simplify_line_fast (a :: mid ++ [b]) min_spacing max_points = Ok out ->
  fast_shape_of a b out.
Proof.
  intros Hmid H.
  destruct (fast_shape_spacing a b mid min_spacing)
    as (simplified & Hsf & Hshape).
  unfold _simplify_line_fast in H.
  assert (Hlen : (length (a :: mid ++ [b]) <=? 2)%nat = false).
  { apply Nat.leb_gt. cbn [length]. rewrite length_app.
    destruct mid; [done|]. simpl. lia. }
  rewrite Hlen, Hsf in H. rsimpl.
  destruct (Z.of_nat (length simplified) <=? max_points);
    [by injection H as <-|].
  apply bind_Ok_inv in H as (q & _ & H).
  apply bind_Ok_inv in H as (first & Hfirst & H).
  apply bind_Ok_inv in H as (sampled & _ & H).
  apply bind_Ok_inv in H as (t_last & Ht & H).
  apply bind_Ok_inv in H as (s_last & Hs & H). injection H as <-.
  assert (first = a) as ->.
  { destruct Hshape as (body & ? & -> & _). by injection Hfirst. }
  exact (fast_shape_stride a b simplified sampled t_last s_last Hshape Ht Hs).
Qed.

(** X7. [_simplify_line_fast] keeps the first point, and its last point is the
    last point of the input or a point equal to it. *)
Theorem simplify_line_fast_ends (points out : list point)
    (min_spacing : float) (max_points : Z) :
  _simplify_line_fast points min_spacing max_points = Ok out ->
  head out = head points
  /\ (last out = last points
      \/ exists p q, last out = Some p /\ last points = Some q
                     /\ point_neq p q = false).
Proof.
  intros H.
  destruct (Nat.leb_spec (length points) 2) as [Hle|Hgt].
  { unfold _simplify_line_fast in H.
    rewrite (proj2 (Nat.leb_le _ _) Hle) in H. injection H as <-. auto. }
  destruct (list_ends points ltac:(lia)) as (a & mid & b & ->).
  assert (Hmid : mid <> []).
  { intros ->. simpl in Hgt. lia. }
  destruct (simplify_line_fast_shape a b mid out _ _ Hmid H)
    as (body & p_last & -> & Hlast & Hb & _).
  split; [reflexivity|].
  change (a :: mid ++ [b]) with ((a :: mid) ++ [b]). rewrite last_snoc.
  destruct Hb as [->|Hb]; [by left|]. right. eauto.
Qed.

Lemma simplify_line_fast_ends_witness :
  let points := [(0, 0); (1, 0); (2, 0); (3, 0); (3, 0)]%float in
  let out := [(0, 0); (2, 0); (3, 0)]%float in
  _simplify_line_fast points 2%float 10 = Ok out
  /\ head out = head points.
Proof.
  intros points out. split; [reflexivity|].
  exact (proj1 (simplify_line_fast_ends points out 2%float 10 eq_refl)).
Defined.

(** X8. A line whose two ends differ keeps at least 2 points. *)
Theorem simplify_line_fast_open (a b : point) (mid out : list point)
    (min_spacing : float) (max_points : Z) :
  point_neq a b = true ->
  _simplify_line_fast (a :: mid ++ [b]) min_spacing max_points = Ok out ->
  (2 <= length out)%nat.
Proof.
  intros Hab H.
  destruct (decide (mid = [])) as [->|Hmid].
  { injection H as <-. simpl. lia. }
  destruct (simplify_line_fast_shape a b mid out _ _ Hmid H)
    as (body & p_last & -> & _ & _ & Hopen).
  specialize (Hopen Hab). destruct body; [done|]. simpl. lia.
Qed.

Lemma simplify_line_fast_open_witness :
  let mid := [(1, 0); (2, 0); (3, 0)]%float in
  point_neq (0, 0)%float (4, 0)%float = true
  /\ _simplify_line_fast ((0, 0)%float :: mid ++ [(4, 0)%float]) 100%float 1
     = Ok [(0, 0); (4, 0)]%float
  /\ (2 <= length [(0, 0); (4, 0)]%float)%nat.
Proof.
  intros mid. split; [reflexivity|]. split; [reflexivity|].
  apply (simplify_line_fast_open (0, 0)%float (4, 0)%float mid _ 100%float 1);
    reflexivity.
Defined.

Lemma spacing_scan_none (spacing_sq : float) (a : point) (mid : list point) :
  (forall p, p ∈ mid ->
     (spacing_sq <=? spacing_dist_sq a p)%float = false) ->
  spacing_scan spacing_sq a mid = [].
Proof.
  induction mid as [|p mid IH]; intros H; cbn [spacing_scan]; [done|].
  rewrite (H p (list_elem_of_here _ _)).
  apply IH. intros q Hq. by apply H, list_elem_of_further.
Qed.

(** X9. A closed line, its last point equal to its first, all of whose
    interior points are nearer to the first than [min_spacing], comes back
    as that single point: the callers' test [len(simplified) < 2] can
    hold. *)
Theorem simplify_line_fast_closed (a b : point) (mid : list point)
    (min_spacing : float) (max_points : Z) :
  mid <> [] ->
  point_neq a b = false ->
  (forall p, p ∈ mid ->
     (min_spacing * min_spacing <=? spacing_dist_sq a p)%float = false) ->
  1 <= max_points ->
  _simplify_line_fast (a :: mid ++ [b]) min_spacing max_points = Ok [a].
Proof.
  intros Hmid Hab Hnear Hmax. unfold _simplify_line_fast.
  assert (Hlen : (length (a :: mid ++ [b]) <=? 2)%nat = false).
  { apply Nat.leb_gt. cbn [length]. rewrite length_app.
    destruct mid; [done|]. simpl. lia. }
  rewrite Hlen.
  destruct (spacing_filter_ends a b mid min_spacing) as (s_last & Hs & ->).
  rewrite (spacing_scan_none _ a mid Hnear) in *.
  cbn in Hs. injection Hs as <-. rewrite Hab. rsimpl.
  cbn [length]. by rewrite (proj2 (Z.leb_le _ _)) by lia.
Qed.

Lemma simplify_line_fast_closed_witness :
  let a := (5, 5)%float in
  let mid := [(6, 5); (6, 6); (5, 6)]%float in
  _simplify_line_fast (a :: mid ++ [a]) 22%float 150 = Ok [a].
Proof.
  intros a mid.
  apply (simplify_line_fast_closed a a mid 22%float 150);
    [done | reflexivity | | lia].
  intros p Hp. repeat (apply elem_of_cons in Hp as [->|Hp]; [reflexivity|]).
  by apply elem_of_nil in Hp.
Defined.

(** ** From the GeoPackage blob to the route *)

(** A comprehension over a function that may raise returns when the
    function returns on every element, with the results in order. *)
Lemma mapM_Ok {A B : Type} (f : A -> result B) (l : list A) (l' : list B) :
  mapM f l = Ok l' <-> Forall2 (fun x y => f x = Ok y) l l'.
Proof.
  revert l'. induction l as [|x l IH]; intros l'; cbn [mapM].
  - split; [intros [= <-]; constructor | by inversion 1].
  - split.
    + intros H. apply bind_Ok_inv in H as (y & Hy & H).
      apply bind_Ok_inv in H as (ys & Hys & H). injection H as <-.
      constructor; [done | by apply IH].
    + inversion 1 as [|? y ? ys Hy Hys]; subst.
      rewrite Hy. rsimpl. apply IH in Hys. by rewrite Hys.
Qed.

(** The extractor on a blob laid out as the format says: magic, version,
    flags, the 4 bytes of the SRS id, the envelope, the payload. *)
Lemma gpkg_blob_payload (version flags : byte) (srs envelope payload : bytes)
    (n : nat) :
  length srs = 4%nat ->
  envelope_table (Z.land (Z.shiftr (byte_val flags) 1) 7) = Some n ->
  length envelope = n ->
  _gpkg_blob_to_wkb ([x47; x50; version; flags] ++ srs ++ envelope ++ payload)
  = Ok payload.
Proof.
  intros Hsrs Htable Henv. unfold _gpkg_blob_to_wkb.
  destruct srs as [|s0 [|s1 [|s2 [|s3 [|]]]]]; try discriminate.
  cbn [app length Nat.ltb Nat.leb slice take drop Nat.sub fmap list_fmap].
  rewrite bool_decide_eq_true_2 by reflexivity.
  cbn [orb negb byte_at lookup list_lookup]. rsimpl. rewrite Htable.
  f_equal. cbn [Nat.add drop]. rewrite <- Henv. apply drop_app_length.
Qed.

Lemma parse_lines_from_wkb_encode (g : wkb_geometry) (suf : bytes) :
  valid_geometry g ->
  _parse_lines_from_wkb (encode_geometry g ++ suf) 0
  = Ok (geometry_lines g, length (encode_geometry g)).
Proof.
  intros Hvalid. unfold _parse_lines_from_wkb.
  assert (Hlen : exists f, length (encode_geometry g ++ suf) = S f).
  { destruct (encode_geometry_cons g) as (b & rest & ->). cbn. eauto. }
  destruct Hlen as [f ->].
  exact (parse_geometry_encode f _ 0 g suf Hvalid eq_refl).
Qed.

(** X10. The two decoders in a row, as [load_route_lines] and [load_contours]
    call them: a GeoPackage blob whose payload is the encoding of a valid
    geometry decodes to the polylines of the geometry, whatever its
    envelope. *)
Theorem gpkg_blob_wkb_roundtrip (version flags : byte)
    (srs envelope : bytes) (n : nat) (g : wkb_geometry) :
  length srs = 4%nat ->
  envelope_table (Z.land (Z.shiftr (byte_val flags) 1) 7) = Some n ->
  length envelope = n ->
  valid_geometry g ->
  (wkb ← _gpkg_blob_to_wkb
           ([x47; x50; version; flags] ++ srs ++ envelope
            ++ encode_geometry g);
   _parse_lines_from_wkb wkb 0)
  = Ok (geometry_lines g, length (encode_geometry g)).
Proof.
  intros Hsrs Htable Henv Hvalid.
  rewrite (gpkg_blob_payload _ _ _ _ _ n Hsrs Htable Henv). rsimpl.
  rewrite <- (app_nil_r (encode_geometry g)) at 1.
  by apply parse_lines_from_wkb_encode.
Qed.

Lemma gpkg_blob_wkb_roundtrip_witness :
  let g := GLineString
             (LineString true XY
                [Vertex 0 0 []; Vertex 0x3FF0000000000000 0x4000000000000000 []]) in
  (wkb ← _gpkg_blob_to_wkb
           ([x47; x50; x00; x03] ++ [x00; x00; x00; x00] ++ repeat x00 32
            ++ encode_geometry g);
   _parse_lines_from_wkb wkb 0)
  = Ok ([[(0, 0); (1, 2)]%float], 41%nat).
Proof.
  intros g.
  apply (gpkg_blob_wkb_roundtrip x00 x03 [x00; x00; x00; x00]
           (repeat x00 32) 32 g); try reflexivity.
  split; [simpl; lia|]. repeat constructor; simpl; lia.
Defined.

(** X11. [load_route_lines] on such a blob projects the points of the geometry
    one by one: it returns exactly when the projection returns on every
    point, with the images line by line and in order. *)
Theorem load_route_lines_projects
    (libm_sin libm_cos libm_tan : float -> float)
    (libm_pow : float -> float -> result float)
    (version flags : byte) (srs envelope : bytes) (n : nat)
    (g : wkb_geometry) (projected : list (list (float * float))) :
  length srs = 4%nat ->
  envelope_table (Z.land (Z.shiftr (byte_val flags) 1) 7) = Some n ->
  length envelope = n ->
  valid_geometry g ->
  Jeju.load_route_lines libm_sin libm_cos libm_tan libm_pow
    ([x47; x50; version; flags] ++ srs ++ envelope ++ encode_geometry g)
  = Ok projected
  <-> Forall2
        (Forall2 (fun (p : point) q =>
                    Projection._lon_lat_to_unified libm_sin libm_cos
                      libm_tan libm_pow p.1 p.2 = Ok q))
        (geometry_lines g) projected.
Proof.
  intros Hsrs Htable Henv Hvalid. unfold Jeju.load_route_lines.
  rewrite (gpkg_blob_payload _ _ _ _ _ n Hsrs Htable Henv). rsimpl.
  rewrite <- (app_nil_r (encode_geometry g)) at 1.
  rewrite (parse_lines_from_wkb_encode g [] Hvalid). rsimpl.
  rewrite mapM_Ok.
  split; intros H; (eapply Forall2_impl; [exact H|]); intros l l';
    apply mapM_Ok.
Qed.

Lemma load_route_lines_projects_witness :
  let g := GLineString
             (LineString true XY
                [Vertex 0x405FE00000000000 0x4043000000000000 []]) in
  Jeju.load_route_lines Projection.table_sin Projection.table_cos
    Projection.table_tan Projection.table_pow
    ([x47; x50; x00; x01] ++ [x00; x00; x00; x00] ++ [] ++ encode_geometry g)
  = Ok [[(1000000, 2000000)%float]].
Proof.
  intros g.
  apply (load_route_lines_projects Projection.table_sin Projection.table_cos
           Projection.table_tan Projection.table_pow x00 x01
           [x00; x00; x00; x00] [] 0 g).
  - reflexivity.
  - reflexivity.
  - reflexivity.
  - split; [simpl; lia|]. repeat constructor; simpl; lia.
  - repeat constructor.
Defined.

(** ** What the WKB decoder consumes and rejects *)

Lemma unpack_uint_bound (little : bool) (n : nat) (data : bytes)
    (offset : nat) (v : Z) :
  (0 < n)%nat ->
  unpack_uint little n data offset = Ok v -> (offset + n <= length data)%nat.
Proof.
  intros Hn H. unfold unpack_uint, unpack_bytes in H.
  destruct (length _ =? n)%nat eqn:Hlen; [|discriminate].
  apply Nat.eqb_eq in Hlen. rewrite length_take, length_drop in Hlen. lia.
Qed.

Lemma parse_points_bound (little has_z has_m : bool) (data : bytes)
    (n : nat) :
  forall offset points points' offset',
    parse_points little has_z has_m data n offset points
    = Ok (points', offset') ->
    (offset <= length data + 16)%nat -> (offset' <= length data + 16)%nat.
Proof.
  induction n as [|n IH]; intros offset points points' offset' H Hoff;
    cbn [parse_points] in H.
  - injection H as _ <-. lia.
  - apply bind_Ok_inv in H as (x & _ & H).
    apply bind_Ok_inv in H as (y & Hy & H).
    unfold unpack_double in Hy.
    apply bind_Ok_inv in Hy as (v & Hv & _).
    apply unpack_uint_bound in Hv; [|lia].
    apply IH in H; [done|]. destruct has_z, has_m; lia.
Qed.

Lemma parse_children_bound
    (parse : nat -> result (list (list point) * nat)) (bound n : nat) :
  (forall offset lines offset',
     parse offset = Ok (lines, offset') -> (offset' <= bound)%nat) ->
  forall offset lines lines' offset',
    parse_children parse n offset lines = Ok (lines', offset') ->
    (offset <= bound)%nat -> (offset' <= bound)%nat.
Proof.
  intros Hparse. induction n as [|n IH];
    intros offset lines lines' offset' H Hoff; cbn [parse_children] in H.
  - injection H as _ <-. lia.
  - apply bind_Ok_inv in H as ([child offset1] & Hchild & H).
    apply Hparse in Hchild. by apply IH in H.
Qed.

Lemma parse_lines_consumed (fuel : nat) (data : bytes) :
  forall offset lines offset',
    parse_lines_from_wkb fuel data offset = Ok (lines, offset') ->
    (offset + 9 <= offset' <= length data + 16)%nat.
Proof.
  induction fuel as [|fuel IH]; intros offset lines offset' H;
    [discriminate|].
  cbn [parse_lines_from_wkb] in H.
  apply bind_Ok_inv in H as (bo & _ & H).
  destruct (negb _); [discriminate|].
  apply bind_Ok_inv in H as (ty & _ & H).
  destruct (if 3000 <=? ty then _ else _) as [[base has_z] has_m].
  destruct (base =? 2).
  - apply bind_Ok_inv in H as (n & Hn & H).
    apply unpack_uint_bound in Hn; [|lia].
    apply bind_Ok_inv in H as ([points off] & Hpp & H).
    injection H as _ <-.
    pose proof (parse_points_offset _ _ _ _ _ _ _ _ _ Hpp).
    apply parse_points_bound in Hpp; lia.
  - destruct (base =? 5); [|discriminate].
    apply bind_Ok_inv in H as (n & Hn & H).
    apply unpack_uint_bound in Hn; [|lia].
    pose proof (parse_children_offset _ _ (parse_lines_offset fuel data)
                  _ _ _ _ H).
    apply (parse_children_bound _ (length data + 16)) in H; [lia| |lia].
    intros o l o' Ho. apply IH in Ho. lia.
Qed.

(** X12. A geometry takes at least 9 bytes, and the offset the decoder returns
    is at most 16 bytes past the end of the data: the Z and M of the last
    point are skipped without being read. *)
Theorem parse_lines_from_wkb_consumed (data : bytes) (offset offset' : nat)
    (lines : list (list point)) :
  _parse_lines_from_wkb data offset = Ok (lines, offset') ->
  (offset + 9 <= offset' <= length data + 16)%nat.
Proof. apply parse_lines_consumed. Qed.

Lemma parse_lines_from_wkb_consumed_witness :
  let data := encode_linestring
                (LineString true XYZM [Vertex 0 0 (repeat x00 16)]) in
  _parse_lines_from_wkb (take 25 data) 0 = Ok ([[(0, 0)%float]], 41%nat)
  /\ length (take 25 data) = 25%nat
  /\ (0 + 9 <= 41 <= length (take 25 data) + 16)%nat.
Proof.
  intros data. split; [reflexivity|]. split; [reflexivity|].
  exact (parse_lines_from_wkb_consumed (take 25 data) 0 41 _ eq_refl).
Defined.

(** X13. The header a decoding starts with: the decoder raises [IndexError] at
    the end of the data, "Invalid WKB byte order" on a first byte other
    than 0 and 1, [struct.error] when fewer than 4 bytes follow it, and
    "Unsupported base geometry type" with the type less its thousands (3
    at most) when that is neither 2 nor 5. *)
Theorem parse_lines_from_wkb_rejects (data : bytes) (offset : nat) :
  ((length data <= offset)%nat ->
   _parse_lines_from_wkb data offset = Raise IndexError)
  /\ (forall b, data !! offset = Some b ->
        byte_val b <> 0 -> byte_val b <> 1 ->
        _parse_lines_from_wkb data offset = Raise InvalidWkbByteOrder)
  /\ (forall b, data !! offset = Some b ->
        byte_val b = 0 \/ byte_val b = 1 ->
        (length data < offset + 5)%nat ->
        _parse_lines_from_wkb data offset = Raise StructError)
  /\ (forall b geom_type,
        data !! offset = Some b ->
        byte_val b = 0 \/ byte_val b = 1 ->
        unpack_uint (byte_val b =? 1) 4 data (offset + 1) = Ok geom_type ->
        let base_type := geom_type - 1000 * Z.min 3 (geom_type / 1000) in
        base_type <> 2 -> base_type <> 5 ->
        _parse_lines_from_wkb data offset
        = Raise (UnsupportedBaseGeometryType base_type)).
Proof.
  unfold _parse_lines_from_wkb. cbn [parse_lines_from_wkb]. unfold byte_at.
  split; [|split; [|split]].
  - intros Hlen. by rewrite (lookup_ge_None_2 data offset Hlen).
  - intros b -> H0 H1. rsimpl.
    apply Z.eqb_neq in H0, H1. by rewrite H0, H1.
  - intros b -> Hb Hlen. rsimpl.
    assert (Hok : negb ((byte_val b =? 0) || (byte_val b =? 1)) = false).
    { destruct Hb as [->| ->]; reflexivity. }
    rewrite Hok.
    assert (Hty : unpack_uint (byte_val b =? 1) 4 data (offset + 1)
                  = Raise StructError).
    { unfold unpack_uint, unpack_bytes.
      destruct (length _ =? 4)%nat eqn:H4; [|reflexivity].
      apply Nat.eqb_eq in H4. rewrite length_take, length_drop in H4. lia. }
    by rewrite Hty.
  - intros b geom_type -> Hb Hty H2 H5. rsimpl.
    set (base_type := geom_type - 1000 * Z.min 3 (geom_type / 1000)) in *.
    assert (Hok : negb ((byte_val b =? 0) || (byte_val b =? 1)) = false).
    { destruct Hb as [->| ->]; reflexivity. }
    rewrite Hok, Hty. rsimpl.
    assert (Hbase :
      (if 3000 <=? geom_type then (geom_type - 3000, true, true)
       else if 2000 <=? geom_type then (geom_type - 2000, false, true)
       else if 1000 <=? geom_type then (geom_type - 1000, true, false)
       else (geom_type, false, false)).1.1 = base_type).
    { assert (0 <= geom_type).
      { unfold unpack_uint in Hty. apply bind_Ok_inv in Hty as (bs & _ & Hty).
        injection Hty as <-. destruct (byte_val b =? 1);
          [|unfold be_val]; apply le_val_range. }
      subst base_type.
      destruct (Z.leb_spec 3000 geom_type); cbn [fst].
      { rewrite Z.min_l; [lia|]. apply Z.div_le_lower_bound; lia. }
      destruct (Z.leb_spec 2000 geom_type); cbn [fst].
      { replace (geom_type / 1000) with 2; [lia|].
        apply Z.div_unique with (r := geom_type - 2000); lia. }
      destruct (Z.leb_spec 1000 geom_type); cbn [fst].
      { replace (geom_type / 1000) with 1; [lia|].
        apply Z.div_unique with (r := geom_type - 1000); lia. }
      rewrite Z.div_small by lia. lia. }
    destruct (if 3000 <=? geom_type then _ else _) as [[base has_z] has_m].
    cbn [fst] in Hbase. subst base.
    apply Z.eqb_neq in H2, H5. by rewrite H2, H5.
Qed.

Lemma parse_lines_from_wkb_rejects_witness :
  (* a Point Z, type 1001, in big-endian order *)
  _parse_lines_from_wkb [x00; x00; x00; x03; xe9; x00] 0
  = Raise (UnsupportedBaseGeometryType 1).
Proof.
  destruct (parse_lines_from_wkb_rejects [x00; x00; x00; x03; xe9; x00] 0)
    as (_ & _ & _ & H).
  apply (H x00 1001); try reflexivity; [by left | discriminate..].
Defined.

(** ** The shapefile as a whole ([read_shp_polylines]) *)

Lemma be_val_pack (n : nat) (v : Z) :
  0 <= v < 256 ^ Z.of_nat n -> be_val (pack_uint false n v) = v.
Proof. exact (val_pack_uint false n v). Qed.

Lemma slice_middle (l1 l2 l3 : bytes) (i j : nat) :
  length l1 = i -> j = (i + length l2)%nat ->
  slice (l1 ++ l2 ++ l3) i j = l2.
Proof.
  intros <- ->. unfold slice. rewrite drop_app_length.
  replace (length l1 + length l2 - length l1)%nat with (length l2) by lia.
  apply take_app_length.
Qed.

(** The record loop on whole records followed by a truncated one. *)
Lemma read_shp_records_frames (file : bytes) :
  forall (records : list (Z * bytes)) shapes fuel pos shapes0 tail,
    drop pos file
    = concat ((fun r : Z * bytes => encode_shp_frame r.1 r.2) <$> records)
      ++ tail ->
    Forall (fun r : Z * bytes => shp_framed r.2) records ->
    Forall2 (fun (r : Z * bytes) s => parse_shp_record r.2 = Ok s)
      records shapes ->
    shp_truncated tail ->
    (length records < fuel)%nat ->
    read_shp_records fuel file pos shapes0 = Ok (shapes0 ++ shapes).
Proof.
  induction records as [|[number content] records IH];
    intros shapes fuel pos shapes0 tail Hdrop Hframed Hparse Htail Hfuel.
  - inversion Hparse; subst. rewrite app_nil_r.
    destruct fuel as [|fuel]; [simpl in Hfuel; lia|].
    cbn [fmap list_fmap concat app] in Hdrop.
    cbn [read_shp_records]. rewrite file_read_Ok by lia. rsimpl.
    cbn [file_window]. change (8 <? 0) with false. cbv iota.
    rewrite Hdrop.
    destruct Htail as [Hshort|(nb & words & partial & -> & Hw & Hpart)].
    + rewrite take_ge by lia.
      by rewrite (proj2 (Nat.ltb_lt _ _) Hshort).
    + rewrite app_assoc.
      rewrite take_app_length' by (by rewrite length_app, !pack_uint_length).
      rewrite length_app, !pack_uint_length. cbn [Nat.add Nat.ltb Nat.leb].
      rewrite drop_app_length' by (by rewrite pack_uint_length).
      rewrite be_val_pack by (change (256 ^ Z.of_nat 4) with (2 ^ 32); lia).
      rewrite to_signed_small by done.
      rewrite file_read_Ok by lia. rsimpl. cbn [file_window].
      rewrite (proj2 (Z.ltb_ge (words * 2) 0)) by lia.
      replace (drop (pos + 8) file) with partial.
      2:{ rewrite <- drop_drop, Hdrop, app_assoc.
          by rewrite drop_app_length'
            by (by rewrite length_app, !pack_uint_length). }
      rewrite take_ge by lia.
      by rewrite (proj2 (Z.ltb_lt _ _)) by lia.
  - inversion Hparse as [|? s ? shapes' Hs Hrest]; subst.
    inversion Hframed as [|? ? [Heven Hwords] Hframed']; subst.
    cbn [fst snd] in *.
    destruct fuel as [|fuel]; [simpl in Hfuel; lia|].
    cbn [fmap list_fmap concat] in Hdrop. unfold encode_shp_frame in Hdrop.
    cbn [fst snd] in Hdrop. rewrite <- !app_assoc in Hdrop.
    set (words := Z.of_nat (length content) / 2) in *.
    assert (Hlen : words * 2 = Z.of_nat (length content)).
    { subst words. pose proof (Z.div_mod (Z.of_nat (length content)) 2). lia. }
    cbn [read_shp_records]. rewrite file_read_Ok by lia. rsimpl.
    cbn [file_window]. change (8 <? 0) with false. cbv iota.
    rewrite Hdrop, app_assoc.
    rewrite take_app_length' by (by rewrite length_app, !pack_uint_length).
    rewrite length_app, !pack_uint_length. cbn [Nat.add Nat.ltb Nat.leb].
    rewrite drop_app_length' by (by rewrite pack_uint_length).
    rewrite be_val_pack
      by (change (256 ^ Z.of_nat 4) with (2 ^ 32); subst words; lia).
    rewrite to_signed_small by (subst words; lia).
    rewrite file_read_Ok by lia. rsimpl. cbn [file_window].
    rewrite (proj2 (Z.ltb_ge (words * 2) 0)) by lia.
    assert (Hdrop8 : drop (pos + 8) file
                     = content ++ concat ((fun r : Z * bytes =>
                                             encode_shp_frame r.1 r.2)
                                          <$> records) ++ tail).
    { rewrite <- drop_drop, Hdrop, app_assoc.
      by rewrite drop_app_length'
        by (by rewrite length_app, !pack_uint_length). }
    rewrite Hdrop8, Hlen, Nat2Z.id, take_app_length.
    rewrite (proj2 (Z.ltb_ge _ _)) by lia.
    rewrite Hs. rsimpl.
    rewrite (IH shapes' fuel _ (shapes0 ++ [s]) tail); try done; try lia.
    + by rewrite <- app_assoc.
    + by rewrite <- drop_drop, Hdrop8, drop_app_length.
    + cbn [length] in Hfuel. lia.
Qed.

Lemma frames_count (records : list (Z * bytes)) :
  (length records
   <= length (concat ((fun r : Z * bytes => encode_shp_frame r.1 r.2)
                      <$> records)))%nat.
Proof.
  induction records as [|r records IH]; cbn [fmap list_fmap concat length];
    [lia|].
  unfold encode_shp_frame at 1. rewrite !length_app, !pack_uint_length. lia.
Qed.

Lemma shp_header_layout (pre post : bytes) (shape_type b0 b1 b2 b3 : Z) :
  length pre = 32%nat -> length post = 32%nat ->
  let header := encode_shp_header pre shape_type (b0, b1, b2, b3) post in
  length header = 100%nat
  /\ slice header 32 36 = pack_uint true 4 shape_type
  /\ slice header 36 44 = pack_uint true 8 b0
  /\ slice header 44 52 = pack_uint true 8 b1
  /\ slice header 52 60 = pack_uint true 8 b2
  /\ slice header 60 68 = pack_uint true 8 b3.
Proof.
  intros Hpre Hpost header. subst header. unfold encode_shp_header.
  set (pt := pack_uint true 4 shape_type).
  set (p0 := pack_uint true 8 b0). set (p1 := pack_uint true 8 b1).
  set (p2 := pack_uint true 8 b2). set (p3 := pack_uint true 8 b3).
  assert (Ht : length pt = 4%nat) by apply pack_uint_length.
  assert (H0 : length p0 = 8%nat) by apply pack_uint_length.
  assert (H1 : length p1 = 8%nat) by apply pack_uint_length.
  assert (H2 : length p2 = 8%nat) by apply pack_uint_length.
  assert (H3 : length p3 = 8%nat) by apply pack_uint_length.
  split; [rewrite !length_app; lia|].
  split; [apply slice_middle; lia|].
  split.
  { replace (pre ++ pt ++ p0 ++ p1 ++ p2 ++ p3 ++ post)
      with ((pre ++ pt) ++ p0 ++ p1 ++ p2 ++ p3 ++ post)
      by (by rewrite <- !app_assoc).
    apply slice_middle; rewrite ?length_app; lia. }
  split.
  { replace (pre ++ pt ++ p0 ++ p1 ++ p2 ++ p3 ++ post)
      with ((pre ++ pt ++ p0) ++ p1 ++ p2 ++ p3 ++ post)
      by (by rewrite <- !app_assoc).
    apply slice_middle; rewrite ?length_app; lia. }
  split.
  { replace (pre ++ pt ++ p0 ++ p1 ++ p2 ++ p3 ++ post)
      with ((pre ++ pt ++ p0 ++ p1) ++ p2 ++ p3 ++ post)
      by (by rewrite <- !app_assoc).
    apply slice_middle; rewrite ?length_app; lia. }
  replace (pre ++ pt ++ p0 ++ p1 ++ p2 ++ p3 ++ post)
    with ((pre ++ pt ++ p0 ++ p1 ++ p2) ++ p3 ++ post)
    by (by rewrite <- !app_assoc).
  apply slice_middle; rewrite ?length_app; lia.
Qed.

(** X14. [read_shp_polylines] on a file made of a header of a polyline type,
    whole records and a truncated rest: the four bounds of the header, and
    one entry for each whole record, in order, the polylines of its
    content; the record numbers are not looked at and the truncated rest
    is dropped. *)
Theorem read_shp_polylines_records (pre post : bytes)
    (shape_type b0 b1 b2 b3 : Z) (records : list (Z * bytes))
    (shapes : list (list (list point))) (tail : bytes) :
  length pre = 32%nat -> length post = 32%nat ->
  shape_type = 3 \/ shape_type = 13 \/ shape_type = 23 ->
  0 <= b0 < 2 ^ 64 -> 0 <= b1 < 2 ^ 64 ->
  0 <= b2 < 2 ^ 64 -> 0 <= b3 < 2 ^ 64 ->
  Forall (fun r : Z * bytes => shp_framed r.2) records ->
  Forall2 (fun (r : Z * bytes) s => parse_shp_record r.2 = Ok s)
    records shapes ->
  shp_truncated tail ->
  read_shp_polylines
    (encode_shp_header pre shape_type (b0, b1, b2, b3) post
     ++ concat ((fun r : Z * bytes => encode_shp_frame r.1 r.2) <$> records)
     ++ tail)
  = Ok ((double_of_bits b0, double_of_bits b1, double_of_bits b2,
         double_of_bits b3), shapes).
Proof.
  intros Hpre Hpost Htype Hb0 Hb1 Hb2 Hb3 Hframed Hparse Htail.
  destruct (shp_header_layout pre post shape_type b0 b1 b2 b3 Hpre Hpost)
    as (Hlen & Hst & Hs0 & Hs1 & Hs2 & Hs3).
  set (header := encode_shp_header pre shape_type (b0, b1, b2, b3) post) in *.
  set (frames := concat _).
  unfold read_shp_polylines. rewrite file_read_Ok by lia. rsimpl.
  cbn [file_window]. change (100 <? 0) with false.
  cbv iota. rewrite drop_0.
  rewrite take_app_length' by done. rewrite Hlen.
  cbn [Nat.ltb Nat.leb Nat.add]. rewrite Hst.
  rewrite unpack_le_int32_pack by lia. rsimpl.
  assert (Hok : negb ((shape_type =? 3) || (shape_type =? 13)
                      || (shape_type =? 23)) = false).
  { destruct Htype as [->|[->| ->]]; reflexivity. }
  rewrite Hok.
  rewrite (read_shp_records_frames _ records shapes _ 100 [] tail);
    try done.
  - rsimpl. cbn [Nat.add Nat.mul]. rewrite Hs0, Hs1, Hs2, Hs3.
    rewrite !le_val_pack by (change (256 ^ Z.of_nat 8) with (2 ^ 64); lia).
    reflexivity.
  - by rewrite drop_app_length'.
  - pose proof (frames_count records). fold frames in H.
    rewrite !length_app. lia.
Qed.

Lemma read_shp_polylines_records_witness :
  let one := 0x3FF0000000000000 in
  let line := encode_shp_record 3 (repeat x00 32) [[(0, 0); (one, one)]] [] in
  let null := [x00; x00; x00; x00] in
  read_shp_polylines
    (encode_shp_header (repeat x00 32) 3 (0, 0, one, one) (repeat x00 32)
     ++ concat ((fun r : Z * bytes => encode_shp_frame r.1 r.2)
                <$> [(1, line); (2, null)])
     ++ [x00; x00; x00])
  = Ok ((0, 0, 1, 1)%float, [[[(0, 0); (1, 1)]%float]; []]).
Proof.
  intros one line null.
  apply (read_shp_polylines_records (repeat x00 32) (repeat x00 32)
           3 0 0 one one [(1, line); (2, null)]);
    try reflexivity; try (subst one; lia); auto;
    try (repeat constructor; fail); left; simpl; lia.
Defined.

(** The record loop raises [struct.error], from the content of a record,
    or the [ValueError] of a read of a negative size. *)
Lemma read_shp_records_Raise (fuel : nat) (file : bytes) :
  forall pos shapes e,
    read_shp_records fuel file pos shapes = Raise e ->
    e = StructError \/ e = ValueError \/ e = OutOfFuel.
Proof.
  induction fuel as [|fuel IH]; intros pos shapes e H;
    cbn [read_shp_records] in H.
  - injection H as <-. auto.
  - rewrite file_read_Ok in H by lia. rsimpl.
    destruct (file_window file pos 8) as [rec_header pos1].
    destruct (length rec_header <? 8)%nat; [discriminate|].
    unfold file_read in H.
    destruct (_ <? -1); rsimpl; [injection H as <-; auto|].
    destruct (file_window file pos1 _) as [content pos2].
    destruct (Z.of_nat (length content) <? _); [discriminate|].
    destruct (parse_shp_record content) as [lines|e'] eqn:Hrec; rsimpl.
    + eauto.
    + injection H as <-. left. by apply parse_shp_record_Raise in Hrec.
Qed.

(** A shapefile whose first record declares the content length [-1]. *)
Lemma read_shp_polylines_negative_length :
  read_shp_polylines
    (encode_shp_header (repeat x00 32) 3 (0, 0, 0, 0) (repeat x00 32)
     ++ [x00; x00; x00; x01; xff; xff; xff; xff] ++ repeat x00 8)
  = Raise ValueError.
Proof. vm_compute. reflexivity. Qed.

(** X15. The exceptions of [read_shp_polylines]: "Invalid shapefile header"
    exactly on a file of fewer than 100 bytes, "Unsupported shapefile
    type" exactly when the signed integer at offset 32 is none of 3, 13
    and 23, and beyond these nothing but [struct.error], from the content
    of a record, and [ValueError], from the read of a record whose header
    declares a negative content length (the file after the header made of
    the record header [00 00 00 01 ff ff ff ff] raises it). *)
Theorem read_shp_polylines_errors (file : bytes) :
  let shape_type := to_signed 32 (le_val (slice file 32 36)) in
  (read_shp_polylines file = Raise InvalidShapefileHeader
   <-> (length file < 100)%nat)
  /\ (forall t,
        read_shp_polylines file = Raise (UnsupportedShapefileType t)
        <-> (100 <= length file)%nat /\ t = shape_type
            /\ t <> 3 /\ t <> 13 /\ t <> 23)
  /\ (forall e,
        read_shp_polylines file = Raise e ->
        e = InvalidShapefileHeader
        \/ e = UnsupportedShapefileType shape_type
        \/ e = StructError
        \/ e = ValueError)
  /\ (exists tail,
        read_shp_polylines
          (encode_shp_header (repeat x00 32) 3 (0, 0, 0, 0) (repeat x00 32)
           ++ [x00; x00; x00; x01; xff; xff; xff; xff] ++ tail)
        = Raise ValueError).
Proof.
  intros shape_type.
  assert (Hcases :
    ((length file < 100)%nat
     /\ read_shp_polylines file = Raise InvalidShapefileHeader)
    \/ ((100 <= length file)%nat
        /\ (shape_type <> 3 /\ shape_type <> 13 /\ shape_type <> 23)
        /\ read_shp_polylines file
           = Raise (UnsupportedShapefileType shape_type))
    \/ ((100 <= length file)%nat
        /\ (shape_type = 3 \/ shape_type = 13 \/ shape_type = 23)
        /\ ((exists v, read_shp_polylines file = Ok v)
            \/ read_shp_polylines file = Raise StructError
            \/ read_shp_polylines file = Raise ValueError))).
  { pose proof (read_shp_polylines_total file) as Htotal.
    revert Htotal.
    unfold read_shp_polylines. rewrite file_read_Ok by lia. rsimpl.
    cbn [file_window]. change (100 <? 0) with false.
    cbv iota. rewrite drop_0. change (Z.to_nat 100) with 100%nat.
    destruct (Nat.ltb_spec (length (take 100 file)) 100)
      as [Hshort|Hlong]; rewrite length_take in *.
    { intros _. left. split; [|done]. clear -Hshort. lia. }
    rewrite (slice_take file 100 32 36) by lia.
    unfold unpack_le_int32.
    assert (H4 : length (slice file 32 36) = 4%nat).
    { unfold slice. rewrite length_take, length_drop. lia. }
    rewrite unpack_exact_Ok by exact H4.
    rsimpl. fold shape_type.
    destruct (negb _) eqn:Hbad.
    - intros _. right. left.
      apply negb_true_iff in Hbad. rewrite !orb_false_iff in Hbad.
      destruct Hbad as [[H3 H13] H23]. apply Z.eqb_neq in H3, H13, H23.
      repeat split; try done. lia.
    - intros Htotal. right. right.
      apply negb_false_iff in Hbad. rewrite !orb_true_iff in Hbad.
      rewrite !Z.eqb_eq in Hbad.
      split; [lia|]. split; [tauto|].
      match goal with
      | |- context [read_shp_records ?f ?d ?p ?s] =>
          pose proof (read_shp_records_Raise f d p s) as Hrec;
            destruct (read_shp_records f d p s) as [shapes|e']; rsimpl
      end.
      + left. eauto.
      + right. destruct (Hrec e' eq_refl) as [->|[->| ->]]; [auto | auto |].
        rsimpl. by destruct Htotal. }
  split; [|split; [|split]].
  4:{ exists (repeat x00 8). exact read_shp_polylines_negative_length. }
  all: destruct Hcases
         as [[Hlen ->]|[(Hlen & Hbad & ->)|(Hlen & Hgood & Hres)]].
  - done.
  - split; [discriminate | lia].
  - destruct Hres as [[v ->]|[->| ->]]; (split; [discriminate | lia]).
  - intros t. split; [discriminate | lia].
  - intros t. split; [by intros [= <-] | by intros (_ & -> & _)].
  - assert (Hnot : forall t,
              t = shape_type /\ t <> 3 /\ t <> 13 /\ t <> 23 -> False).
    { intros t (-> & ? & ? & ?). destruct Hgood as [?|[?|?]]; done. }
    intros t.
    destruct Hres as [[v ->]|[->| ->]];
      (split; [discriminate|]; intros [_ H]; destruct (Hnot t H)).
  - intros e [= <-]; auto.
  - intros e [= <-]; auto.
  - destruct Hres as [[v ->]|[->| ->]]; [discriminate | |];
      intros e [= <-]; auto.
Qed.

(** ** Marking a record of the attribute file deleted *)

Lemma window_insert_after {A : Type} (l : list A) (p pos n : nat) (x : A) :
  (pos + n <= p)%nat ->
  take n (drop pos (<[p := x]> l)) = take n (drop pos l).
Proof.
  intros Hp. rewrite drop_insert_ge by lia. apply take_insert_ge. lia.
Qed.

Lemma file_window_insert_after (file : bytes) (p pos : nat) (size : Z)
    (x : byte) :
  0 <= size -> (pos + Z.to_nat size <= p)%nat ->
  file_window (<[p := x]> file) pos size = file_window file pos size.
Proof.
  intros Hsize Hp. unfold file_window.
  rewrite (proj2 (Z.ltb_ge size 0)) by lia.
  by rewrite window_insert_after.
Qed.

Lemma file_read_insert_before (file : bytes) (p pos : nat) (size : Z)
    (x : byte) :
  (p < pos)%nat ->
  file_read (<[p := x]> file) pos size = file_read file pos size.
Proof.
  intros Hp. unfold file_read, file_window. by rewrite drop_insert_lt.
Qed.

Section Mark.

Variable int_round_float : bytes -> result Z.
Variable file : bytes.
Variable record_len : Z.
Variable fields : list dbf_field.
Variable cont_idx : nat.

Let records (file : bytes) (n pos : nat) (contours : list Z) :=
  read_records int_round_float n file pos record_len fields cont_idx contours.

(** The entries the loop appends do not depend on those it starts with. *)
Lemma read_records_acc_at (data : bytes) (n : nat) :
  forall pos contours,
    records data n pos contours
    = (rest ← records data n pos []; Ok (contours ++ rest)).
Proof.
  subst records. cbv beta. 
  induction n as [|n IH]; intros pos contours; cbn [read_records].
  - rsimpl. by rewrite app_nil_r.
  - destruct (file_read data pos record_len) as [[rec pos']|e]; rsimpl;
      [|done].
    destruct (_ <? record_len); [rsimpl; by rewrite app_nil_r|].
    destruct (byte_at rec 0) as [first|e]; rsimpl; [|done].
    destruct (first =? 42).
    + rewrite (IH pos' (contours ++ [0])), (IH pos' ([] ++ [0])).
      destruct (read_records _ n data pos' _ _ _ []); rsimpl; [|done].
      by rewrite <- app_assoc.
    + destruct (record_value _ _ _ rec) as [v|e]; rsimpl; [|done].
      rewrite (IH pos' (contours ++ [v])), (IH pos' ([] ++ [v])).
      destruct (read_records _ n data pos' _ _ _ []); rsimpl; [|done].
      by rewrite <- app_assoc.
Qed.

Lemma read_records_acc (n : nat) :
  forall pos contours,
    records file n pos contours
    = (rest ← records file n pos []; Ok (contours ++ rest)).
Proof. apply read_records_acc_at. Qed.

(** A byte changed before the position of the loop is not read. *)
Lemma read_records_insert_before (p : nat) (x : byte) (n : nat) :
  forall pos contours,
    (p < pos)%nat ->
    records (<[p := x]> file) n pos contours = records file n pos contours.
Proof.
  subst records. cbv beta.
  induction n as [|n IH]; intros pos contours Hp; cbn [read_records];
    [done|].
  rewrite file_read_insert_before by done.
  destruct (file_read file pos record_len) as [[rec pos']|e] eqn:Hfr;
    rsimpl; [|done].
  assert (pos <= pos')%nat.
  { unfold file_read, file_window in Hfr.
    destruct (record_len <? -1); [discriminate|].
    injection Hfr as _ <-. lia. }
  destruct (_ <? record_len); [done|].
  destruct (byte_at rec 0) as [first|e]; rsimpl; [|done].
  destruct (first =? 42); [apply IH; lia|].
  destruct (record_value _ _ _ rec) as [v|e]; rsimpl; [|done].
  apply IH. lia.
Qed.

(** When the loop over [file] returns, the loop over the file with the
    first byte of the slot [j] set to [0x2A] returns the same entries but
    for the entry of that slot, which is 0. *)
Lemma read_records_mark (base j : nat) (n : nat) :
  0 <= record_len ->
  forall c rest,
    (c <= j)%nat ->
    records file n (base + c * Z.to_nat record_len) [] = Ok rest ->
    records (<[(base + j * Z.to_nat record_len)%nat := x2a]> file) n
      (base + c * Z.to_nat record_len) []
    = Ok (<[(j - c)%nat := 0]> rest).
Proof.
  intros Hrl.
  pose proof read_records_acc as Hacc.
  pose proof read_records_acc_at as Hacc_at.
  pose proof read_records_insert_before as Hbefore.
  subst records. cbv beta in *.
  set (rl := Z.to_nat record_len) in *.
  set (p := (base + j * rl)%nat).
  induction n as [|n IH]; intros c rest Hc H; cbn [read_records] in *.
  { by injection H as <-. }
  set (pos := (base + c * rl)%nat) in *.
  rewrite file_read_Ok in H by lia. rewrite file_read_Ok by lia. rsimpl.
  destruct (file_window file pos record_len) as [rec pos'] eqn:Hfr.
  destruct (Z.of_nat (length rec) <? record_len) eqn:Hshort.
  - (* the slot is cut short by the end of the file *)
    injection H as <-.
    destruct (file_window (<[p := x2a]> file) pos record_len)
      as [rec' pos''] eqn:Hfr'.
    assert (Hlen : length rec' = length rec).
    { unfold file_window in Hfr, Hfr'.
      rewrite (proj2 (Z.ltb_ge record_len 0)) in Hfr, Hfr' by lia.
      injection Hfr as <- _. injection Hfr' as <- _.
      by rewrite !length_take, !length_drop, length_insert. }
    by rewrite Hlen, Hshort.
  - destruct (file_window_full _ _ _ _ _ Hrl Hfr Hshort)
      as (Hrec & Hlen & -> & Hbound). fold rl in Hrec, Hlen, Hbound, H, Hfr |- *.
    apply bind_Ok_inv in H as (first & Hfirst & H).
    assert (Hpos_len : (0 < rl)%nat).
    { unfold byte_at in Hfirst.
      destruct (rec !! 0%nat) eqn:Hr0; [|discriminate].
      apply lookup_lt_Some in Hr0. lia. }
    assert (Hnext : (pos + rl = base + S c * rl)%nat) by (subst pos; lia).
    (* the entries after this slot, in the file as it is *)
    assert (Hrest : exists v rest1,
              read_records int_round_float n file (pos + rl) record_len
                fields cont_idx [] = Ok rest1
              /\ rest = v :: rest1
              /\ ((first =? 42) = false ->
                  record_value int_round_float fields cont_idx rec = Ok v)).
    { destruct (first =? 42).
      - rewrite (Hacc n (pos + rl)%nat ([] ++ [0])) in H.
        apply bind_Ok_inv in H as (rest1 & Hrest1 & H). injection H as <-.
        exists 0, rest1. by repeat split.
      - apply bind_Ok_inv in H as (v & Hv & H).
        rewrite (Hacc n (pos + rl)%nat ([] ++ [v])) in H.
        apply bind_Ok_inv in H as (rest1 & Hrest1 & H). injection H as <-.
        exists v, rest1. by repeat split. }
    destruct Hrest as (v & rest1 & Hrest1 & -> & Hv).
    destruct (decide (c = j)) as [->|Hne].
    + (* the marked slot *)
      replace (j - j)%nat with 0%nat by lia. cbn [insert list_insert].
      assert (Hfr' : file_window (<[p := x2a]> file) pos record_len
                     = (<[0%nat := x2a]> rec, (pos + rl)%nat)).
      { unfold file_window. rewrite (proj2 (Z.ltb_ge record_len 0)) by lia.
        fold rl. subst p pos. rewrite drop_insert_ge by lia.
        rewrite Nat.sub_diag, take_insert_lt by lia.
        rewrite length_insert, Hrec. unfold slice.
        replace (base + j * rl + rl - (base + j * rl))%nat with rl by lia.
        f_equal. rewrite length_take, length_drop. lia. }
      rewrite Hfr', length_insert, Hshort.
      assert (Hmark : byte_at (<[0%nat := x2a]> rec) 0 = Ok 42).
      { unfold byte_at. rewrite list_lookup_insert_eq by lia. reflexivity. }
      rewrite Hmark. rsimpl. change (42 =? 42) with true. cbv iota.
      rewrite (Hacc_at (<[p := x2a]> file) n (pos + rl)%nat ([] ++ [0])).
      rewrite Hbefore by (subst p pos; lia).
      by rewrite Hrest1.
    + (* a slot before the marked one *)
      rewrite file_window_insert_after by (subst p pos; fold rl; nia).
      rewrite Hfr, Hshort, Hfirst. rsimpl.
      rewrite Hnext in *.
      pose proof (IH (S c) rest1 ltac:(lia) Hrest1) as Hmarked.
      replace (j - c)%nat with (S (j - S c)) by lia.
      cbn [insert list_insert].
      destruct (first =? 42).
      * rewrite (Hacc n _ ([] ++ [0])) in H.
        rewrite Hrest1 in H. injection H as <-.
        rewrite (Hacc_at (<[p := x2a]> file) n _ ([] ++ [0])).
        by rewrite Hmarked.
      * rewrite (Hv eq_refl). rsimpl.
        rewrite (Hacc_at (<[p := x2a]> file) n _ ([] ++ [v])).
        by rewrite Hmarked.
Qed.

End Mark.

Lemma read_fields_grow (fuel : nat) (file : bytes) :
  forall pos acc fields,
    read_fields fuel file pos acc = Ok fields ->
    (length acc <= length fields)%nat.
Proof.
  induction fuel as [|fuel IH]; intros pos acc fields H;
    cbn [read_fields] in H; [discriminate|].
  rewrite file_read_Ok in H by lia. rsimpl.
  destruct (file_window file pos 32) as [desc pos'].
  destruct (length desc =? 0)%nat; [discriminate|].
  apply bind_Ok_inv in H as (first & _ & H).
  destruct (first =? 13); [injection H as <-; lia|].
  apply bind_Ok_inv in H as (ft & _ & H).
  apply bind_Ok_inv in H as (fl & _ & H).
  apply bind_Ok_inv in H as (dc & _ & H).
  apply IH in H. rewrite length_app in H. simpl in H. lia.
Qed.

(** The descriptors do not depend on a byte past their terminator. *)
Lemma read_fields_insert (fuel : nat) (file : bytes) (p : nat) (x : byte) :
  forall pos acc fields,
    read_fields fuel file pos acc = Ok fields ->
    (pos + 32 * (length fields - length acc) < p)%nat ->
    read_fields fuel (<[p := x]> file) pos acc = Ok fields.
Proof.
  induction fuel as [|fuel IH]; intros pos acc fields H Hp;
    cbn [read_fields] in *; [discriminate|].
  rewrite file_read_Ok in H by lia. rewrite file_read_Ok by lia. rsimpl.
  unfold file_window in *. change (32 <? 0) with false in *. cbv iota in *.
  change (Z.to_nat 32) with 32%nat in *.
  set (desc := take 32 (drop pos file)) in *.
  set (desc' := take 32 (drop pos (<[p := x]> file))).
  assert (Hlen : length desc' = length desc).
  { subst desc desc'. by rewrite !length_take, !length_drop, length_insert. }
  assert (Hfirst : byte_at desc' 0 = byte_at desc 0).
  { unfold byte_at. subst desc desc'.
    rewrite !lookup_take, !lookup_drop by lia.
    by rewrite list_lookup_insert_ne by lia. }
  rewrite Hlen, Hfirst.
  destruct (length desc =? 0)%nat; [discriminate|].
  destruct (byte_at desc 0) as [first|e]; rsimpl; [|discriminate].
  destruct (first =? 13); [done|].
  assert (Hgrow : (length acc < length fields)%nat).
  { apply bind_Ok_inv in H as (ft & _ & H).
    apply bind_Ok_inv in H as (fl & _ & H).
    apply bind_Ok_inv in H as (dc & _ & H).
    apply read_fields_grow in H. rewrite length_app in H. simpl in H. lia. }
  assert (Hsame : desc' = desc).
  { subst desc desc'. apply window_insert_after. lia. }
  rewrite Hsame.
  destruct (byte_at desc 11) as [ft|e]; rsimpl; [|discriminate].
  destruct (byte_at desc 16) as [fl|e]; rsimpl; [|discriminate].
  destruct (byte_at desc 17) as [dc|e]; rsimpl; [|discriminate].
  apply IH; [exact H|].
  rewrite length_app. cbn [length].
  assert (length desc <= 32)%nat by (subst desc; rewrite length_take; lia).
  lia.
Qed.

(** X16. Setting the first byte of the record [j] to the deletion marker turns
    the entry [j] of the result into 0 and changes no other entry, in a
    file whose records start past the terminator of its field
    descriptors. *)
Theorem dbf_mark_deleted (int_round_float : bytes -> result Z)
    (file : bytes) (vals : list Z) (j : nat) :
  read_dbf_contours int_round_float file = Ok vals ->
  let header_len := Z.to_nat (le_val (slice file 8 10)) in
  let record_len := Z.to_nat (le_val (slice file 10 12)) in
  (forall fields,
     read_fields (S (length file)) file 32 [] = Ok fields ->
     (32 + 32 * length fields < header_len)%nat) ->
  read_dbf_contours int_round_float
    (<[(header_len + j * record_len)%nat := x2a]> file)
  = Ok (<[j := 0]> vals).
Proof.
  intros Hread header_len record_len Hpast.
  set (p := (header_len + j * record_len)%nat).
  rewrite read_dbf_contours_header in Hread |- *.
  apply bind_Ok_inv in Hread as (nr & Hnr & Hread).
  apply bind_Ok_inv in Hnr as (bs_nr & Hbs_nr & Hnr).
  apply bind_Ok_inv in Hread as (hl & Hhl & Hread).
  apply bind_Ok_inv in Hhl as (bs_hl & Hbs_hl & Hhl).
  apply bind_Ok_inv in Hread as (rl & Hrl & Hread).
  apply bind_Ok_inv in Hrl as (bs_rl & Hbs_rl & Hrl).
  apply bind_Ok_inv in Hread as (fields & Hfields & Hread).
  specialize (Hpast fields Hfields).
  assert (Hp : (32 < p)%nat) by (subst p; lia).
  assert (Hslice : forall i k, (i <= k <= 32)%nat ->
            slice (<[p := x2a]> file) i k = slice file i k).
  { intros i k Hik. unfold slice. apply window_insert_after. lia. }
  rewrite !Hslice by lia.
  injection Hnr as <-. injection Hhl as <-. injection Hrl as <-.
  rewrite Hbs_nr, Hbs_hl, Hbs_rl. rsimpl.
  rewrite length_insert.
  rewrite (read_fields_insert _ file p x2a 32 [] fields Hfields)
    by (cbn [length]; subst p; lia).
  rsimpl.
  destruct (find_cont fields 0) as [cont_idx|]; [|discriminate].
  unfold unpack_exact in Hbs_hl, Hbs_rl.
  destruct (_ =? 2)%nat; [|discriminate].
  destruct (_ =? 2)%nat; [|discriminate].
  injection Hbs_hl as <-. injection Hbs_rl as <-.
  fold header_len in Hread |- *.
  pose proof (read_records_mark int_round_float file
                (le_val (slice file 10 12)) fields cont_idx header_len j
                (Z.to_nat (le_val bs_nr)) (proj1 (le_val_range _)) 0 vals
                ltac:(lia)) as Hmark.
  cbn [Nat.mul] in Hmark. rewrite Nat.add_0_r, Nat.sub_0_r in Hmark.
  exact (Hmark Hread).
Qed.

Lemma dbf_mark_deleted_witness :
  read_dbf_contours decimal_value example_dbf = Ok [120; 0; 140]
  /\ read_dbf_contours decimal_value (<[(65 + 2 * 5)%nat := x2a]> example_dbf)
     = Ok [120; 0; 0].
Proof.
  split; [reflexivity|].
  apply (dbf_mark_deleted decimal_value example_dbf [120; 0; 140] 2);
    [reflexivity|].
  intros fields Hfields. vm_compute in Hfields. injection Hfields as <-.
  vm_compute. lia.
Defined.

(** ** The exceptions of the attribute reader *)

Lemma read_fields_Raise (fuel : nat) (file : bytes) :
  forall pos acc e,
    read_fields fuel file pos acc = Raise e ->
    e = UnexpectedEofInDbfFields \/ e = IndexError \/ e = OutOfFuel.
Proof.
  induction fuel as [|fuel IH]; intros pos acc e H; cbn [read_fields] in H.
  { injection H as <-. auto. }
  rewrite file_read_Ok in H by lia. rsimpl.
  destruct (file_window file pos 32) as [desc pos'].
  destruct (length desc =? 0)%nat; [injection H as <-; auto|].
  unfold byte_at in H.
  destruct (desc !! 0%nat); rsimpl; [|injection H as <-; auto].
  destruct (_ =? 13); [discriminate|].
  destruct (desc !! 11%nat); rsimpl; [|injection H as <-; auto].
  destruct (desc !! 16%nat); rsimpl; [|injection H as <-; auto].
  destruct (desc !! 17%nat); rsimpl; [|injection H as <-; auto].
  eauto.
Qed.

Lemma read_records_Raise_conv (int_round_float : bytes -> result Z)
    (n : nat) (file : bytes) (record_len : Z) (fields : list dbf_field)
    (cont_idx : nat) :
  0 <= record_len ->
  forall pos contours e,
    read_records int_round_float n file pos record_len fields cont_idx
      contours = Raise e ->
    e = IndexError
    \/ (e <> ValueError /\ exists s, int_round_float s = Raise e).
Proof.
  intros Hrl.
  induction n as [|n IH]; intros pos contours e H;
    cbn [read_records] in H; [discriminate|].
  rewrite file_read_Ok in H by lia. rsimpl.
  destruct (file_window file pos record_len) as [rec pos'].
  destruct (Z.of_nat (length rec) <? record_len); [discriminate|].
  unfold byte_at in H. destruct (rec !! 0%nat); rsimpl;
    [|left; congruence].
  destruct (_ =? 42); [eauto|].
  unfold record_value in H.
  destruct (int_round_float _) as [v|e'] eqn:Hv; rsimpl; [eauto|].
  destruct e'; rsimpl; eauto; injection H as <-; right; split; eauto;
    discriminate.
Qed.

(** X17. What [read_dbf_contours] raises: [struct.error] on a file of fewer
    than 12 bytes, and otherwise "Unexpected EOF while reading DBF fields",
    "DBF field CONT not found", [IndexError] (a descriptor cut short, a
    record of no bytes) or what the conversion of a field raises; never
    the [ValueError] of the conversion, which counts as 0. *)
Theorem read_dbf_contours_errors (int_round_float : bytes -> result Z)
    (file : bytes) :
  ((length file < 12)%nat ->
   read_dbf_contours int_round_float file = Raise StructError)
  /\ (forall e,
        read_dbf_contours int_round_float file = Raise e ->
        ((length file < 12)%nat /\ e = StructError)
        \/ e = UnexpectedEofInDbfFields
        \/ e = DbfFieldContNotFound
        \/ e = IndexError
        \/ (e <> ValueError /\ exists s, int_round_float s = Raise e)).
Proof.
  rewrite read_dbf_contours_header. unfold unpack_exact, slice.
  rewrite !length_take, !length_drop.
  destruct (Nat.eqb_spec ((8 - 4) `min` (length file - 4)) 4) as [H8|H8];
    rsimpl.
  2:{ split; [done|]. intros e [= <-]. left. split; [lia|done]. }
  destruct (Nat.eqb_spec ((10 - 8) `min` (length file - 8)) 2) as [H10|H10];
    rsimpl.
  2:{ split; [done|]. intros e [= <-]. left. split; [lia|done]. }
  destruct (Nat.eqb_spec ((12 - 10) `min` (length file - 10)) 2)
    as [H12|H12]; rsimpl.
  2:{ split; [done|]. intros e [= <-]. left. split; [lia|done]. }
  split; [lia|]. intros e H.
  pose proof (read_fields_fuel (S (length file)) file 32 []) as Hfuel.
  destruct (read_fields _ file 32 []) as [fields|e'] eqn:Hfields; rsimpl.
  - destruct (find_cont fields 0) as [cont_idx|];
      [|injection H as <-; auto].
    apply read_records_Raise_conv in H as [->|H];
      [auto 10 | auto 10 | apply le_val_range].
  - injection H as <-.
    apply read_fields_Raise in Hfields as [->|[->| ->]]; auto.
    exfalso. apply Hfuel; [lia | reflexivity].
Qed.

Lemma read_dbf_contours_errors_witness :
  (* a header without any field descriptor *)
  read_dbf_contours decimal_value (take 32 example_dbf)
  = Raise UnexpectedEofInDbfFields
  /\ read_dbf_contours decimal_value (take 11 example_dbf)
     = Raise StructError.
Proof.
  split; [reflexivity|].
  apply (proj1 (read_dbf_contours_errors decimal_value (take 11 example_dbf))).
  simpl. lia.
Defined.

(** ** The builders *)

(** *** What the shapefile reader hands over *)

Lemma split_parts_long (points : list point) (num_points : Z)
    (parts : list Z) :
  Forall (fun line : list point => (2 <= length line)%nat)
    (split_parts points num_points parts).
Proof.
  induction parts as [|start rest IH]; cbn [split_parts]; [constructor|].
  apply Forall_app. split; [|exact IH].
  destruct (Nat.leb_spec 2 (length (py_slice points start
                                      match rest with
                                      | [] => num_points
                                      | next :: _ => next
                                      end))); by repeat constructor.
Qed.

Lemma parse_shp_record_long (content : bytes) (lines : list (list point)) :
  parse_shp_record content = Ok lines ->
  Forall (fun line : list point => (2 <= length line)%nat) lines.
Proof.
  unfold parse_shp_record. intros H.
  apply bind_Ok_inv in H as (ty & _ & H).
  destruct (ty =? 0); [injection H as <-; constructor|].
  destruct (negb _); [injection H as <-; constructor|].
  apply bind_Ok_inv in H as (np & _ & H).
  apply bind_Ok_inv in H as (npt & _ & H).
  apply bind_Ok_inv in H as (parts & _ & H).
  apply bind_Ok_inv in H as (points & _ & H).
  injection H as <-. apply split_parts_long.
Qed.

Lemma read_shp_records_long (fuel : nat) (file : bytes) :
  forall pos shapes out,
    Forall (Forall (fun line : list point => (2 <= length line)%nat)) shapes ->
    read_shp_records fuel file pos shapes = Ok out ->
    Forall (Forall (fun line : list point => (2 <= length line)%nat)) out.
Proof.
  induction fuel as [|fuel IH]; intros pos shapes out Hacc H;
    cbn [read_shp_records] in H; [discriminate|].
  destruct (file_read file pos 8) as [[rec_header pos1]|e]; rsimpl;
    [|discriminate].
  destruct (length rec_header <? 8)%nat; [by injection H as <-|].
  destruct (file_read file pos1 _) as [[content pos2]|e]; rsimpl;
    [|discriminate].
  destruct (Z.of_nat (length content) <? _); [by injection H as <-|].
  apply bind_Ok_inv in H as (lines & Hlines & H).
  apply IH in H; [done|].
  apply Forall_app. split; [done|].
  constructor; [|constructor]. by apply parse_shp_record_long in Hlines.
Qed.

(** Every line [read_shp_polylines] returns has at least 2 points. *)
Lemma read_shp_polylines_long (file : bytes) (box : bounds)
    (shapes : list (list (list point))) :
  read_shp_polylines file = Ok (box, shapes) ->
  Forall (Forall (fun line : list point => (2 <= length line)%nat)) shapes.
Proof.
  unfold read_shp_polylines. intros H.
  destruct (file_read file 0 100) as [[header pos]|e]; rsimpl;
    [|discriminate].
  destruct (length header <? 100)%nat; [discriminate|].
  apply bind_Ok_inv in H as (ty & _ & H).
  destruct (negb _); [discriminate|].
  apply bind_Ok_inv in H as (out & Hout & H). injection H as _ <-.
  by apply read_shp_records_long in Hout.
Qed.

(** *** The padded attribute list *)

Lemma pad_contours_get (contours : list Z) (shapes idx : nat) :
  (idx < shapes)%nat ->
  get (Overlay.pad_contours contours shapes) idx
  = Ok (default 0 (contours !! idx)).
Proof.
  intros Hidx. unfold Overlay.pad_contours, get.
  destruct (Nat.ltb_spec (length contours) shapes) as [Hshort|Hlong].
  - destruct (decide (idx < length contours)%nat) as [Hin|Hout].
    + rewrite lookup_app_l by done.
      destruct (lookup_lt_is_Some_2 contours idx Hin) as [v ->]. done.
    + rewrite lookup_app_r by lia.
      rewrite (lookup_ge_None_2 contours idx) by lia.
      rewrite lookup_replicate_2 by lia. done.
  - destruct (lookup_lt_is_Some_2 contours idx ltac:(lia)) as [v ->]. done.
Qed.

(** *** [build_overlay] *)

Section SeoulProofs.
Import Overlay.

Variable libm_pow : float -> float -> result float.
Variable int_round_float : bytes -> result Z.
Variable round : float -> Z -> float.
Variable elev_step major_step : Z.
Variable major_tolerance minor_tolerance bounds_padding : float.

Let keep (elev : Z) : bool :=
  negb ((0 <? elev_step) && negb (elev mod elev_step =? 0)).
Let is_major (elev : Z) : bool :=
  (0 <? major_step) && (elev mod major_step =? 0).
Let tolerance (elev : Z) : float :=
  if is_major elev then major_tolerance else minor_tolerance.

(** The contour written for a line of a shape of elevation [sel.1]. *)
Let contour_of (sel : Z * list point) (c : contour) : Prop :=
  elev c = sel.1 /\ major c = is_major sel.1
  /\ exists simplified,
       _simplify_line libm_pow sel.2 (tolerance sel.1) = Ok simplified
       /\ line c = _round_line round simplified 2.

Lemma seoul_shape_lines (e : Z) (lines : list (list point)) :
  Forall (fun line : list point => (2 <= length line)%nat) lines ->
  forall acc out,
    Seoul.shape_lines libm_pow round lines e (is_major e) (tolerance e) acc = Ok out
    <-> exists new,
          out = acc ++ new
          /\ Forall2 (fun line c => contour_of (e, line) c) lines new.
Proof.
  subst contour_of. cbv beta. cbn [fst snd].
  induction 1 as [|line lines Hline Hlines IH]; intros acc out;
    cbn [Seoul.shape_lines].
  - split.
    + intros [= <-]. exists []. by rewrite app_nil_r.
    + intros (new & -> & Hnew). inversion Hnew. by rewrite app_nil_r.
  - destruct (_simplify_line libm_pow line (tolerance e)) as [simplified|err] eqn:Hs;
      rsimpl.
    + pose proof (simplify_line_two _ _ _ _ Hline Hs) as Hlen.
      rewrite (proj2 (Nat.ltb_ge _ _) Hlen). rewrite IH. split.
      * intros (new & -> & Hnew).
        exists (Contour e (is_major e) (_round_line round simplified 2)
                :: new).
        split; [by rewrite <- app_assoc|].
        constructor; [|done]. cbn. eauto.
      * intros (new & -> & Hnew).
        inversion Hnew as [|? c ? new' (He & Hm & s & Hs' & Hl) Hnew'];
          subst.
        exists new'. split; [|done].
        rewrite <- app_assoc. cbn [app]. do 2 f_equal.
        destruct c as [ce cm cl]. cbn in *. subst.
        rewrite Hs in Hs'. by injection Hs' as <-.
    + split; [discriminate|].
      intros (new & _ & Hnew).
      inversion Hnew as [|? c ? new' (_ & _ & s & Hs' & _) _]; subst.
      rewrite Hs in Hs'. discriminate.
Qed.

Lemma seoul_shapes_loop (vals : list Z) (total : nat)
    (shapes : list (list (list point))) :
  Forall (Forall (fun line : list point => (2 <= length line)%nat)) shapes ->
  forall idx acc out,
    (idx + length shapes <= total)%nat ->
    Seoul.shapes_loop libm_pow round elev_step major_step major_tolerance
      minor_tolerance shapes idx (pad_contours vals total) acc = Ok out
    <-> exists new,
          out = acc ++ new
          /\ Forall2 contour_of (selected_lines keep shapes idx vals) new.
Proof.
  induction 1 as [|lines shapes Hlines Hshapes IH]; intros idx acc out Hidx;
    cbn [Seoul.shapes_loop selected_lines].
  - split.
    + intros [= <-]. exists []. by rewrite app_nil_r.
    + intros (new & -> & Hnew). inversion Hnew. by rewrite app_nil_r.
  - cbn [length] in Hidx.
    rewrite pad_contours_get by lia. rsimpl.
    set (e := default 0 (vals !! idx)).
    fold (is_major e). fold (tolerance e).
    assert (Hkeep : (0 <? elev_step) && negb (e mod elev_step =? 0)
                    = negb (keep e)).
    { subst keep. cbv beta. by rewrite negb_involutive. }
    rewrite Hkeep. destruct (keep e); cbn [negb].
    + destruct (Seoul.shape_lines libm_pow round lines e (is_major e) (tolerance e)
                  acc) as [acc1|err] eqn:Hinner; rsimpl.
      * apply (seoul_shape_lines e lines Hlines) in Hinner
          as (new1 & -> & Hnew1).
        rewrite IH by lia. split.
        -- intros (new2 & -> & Hnew2). exists (new1 ++ new2).
           split; [by rewrite app_assoc|].
           apply Forall2_app; [|done]. by apply Forall2_fmap_l.
        -- intros (new & -> & Hnew).
           apply Forall2_app_inv_l in Hnew
             as (k1 & k2 & Hk1 & Hk2 & ->).
           apply Forall2_fmap_l in Hk1.
           assert (Heq : acc ++ k1 = acc ++ new1).
           { assert (Hboth : Seoul.shape_lines libm_pow round lines e (is_major e)
                               (tolerance e) acc = Ok (acc ++ k1)).
             { apply (seoul_shape_lines e lines Hlines). eauto. }
             assert (Hone : Seoul.shape_lines libm_pow round lines e (is_major e)
                              (tolerance e) acc = Ok (acc ++ new1)).
             { apply (seoul_shape_lines e lines Hlines). eauto. }
             congruence. }
           apply app_inv_head in Heq as ->.
           exists k2. split; [by rewrite app_assoc | done].
      * split; [discriminate|].
        intros (new & -> & Hnew).
        apply Forall2_app_inv_l in Hnew as (k1 & k2 & Hk1 & _ & ->).
        apply Forall2_fmap_l in Hk1.
        assert (Hboth : Seoul.shape_lines libm_pow round lines e (is_major e)
                          (tolerance e) acc = Ok (acc ++ k1)).
        { apply (seoul_shape_lines e lines Hlines). eauto. }
        congruence.
    + cbn [app]. apply IH. lia.
Qed.

End SeoulProofs.

(** X18. [build_overlay] on two files the readers accept writes one contour for
    each line of each shape whose elevation is a multiple of [elev_step]
    (any elevation when [elev_step] is not positive), in order: the line
    simplified with the tolerance of its class and rounded, [major] when
    the elevation is a multiple of a positive [major_step].  The elevation
    of the shape [idx] is the entry [idx] of the attribute file, 0 when it
    has none.  No line is dropped, and the builder returns exactly when
    the simplifier returns on each of these lines. *)
Theorem build_overlay_contours (libm_pow : float -> float -> result float)
    (int_round_float : bytes -> result Z)
    (round : float -> Z -> float) (elev_step major_step : Z)
    (major_tolerance minor_tolerance bounds_padding : float)
    (shp dbf : bytes) (box : bounds) (shapes : list (list (list point)))
    (vals : list Z) (out : list Overlay.contour) :
  read_shp_polylines shp = Ok (box, shapes) ->
  read_dbf_contours int_round_float dbf = Ok vals ->
  (exists b,
     Seoul.build_overlay libm_pow int_round_float round elev_step major_step
       major_tolerance minor_tolerance bounds_padding shp dbf = Ok (b, out))
  <-> Forall2
        (fun (sel : Z * list point) (c : Overlay.contour) =>
           let is_major := (0 <? major_step) && (sel.1 mod major_step =? 0) in
           Overlay.elev c = sel.1 /\ Overlay.major c = is_major
           /\ exists simplified,
                _simplify_line libm_pow sel.2
                  (if is_major then major_tolerance else minor_tolerance)
                = Ok simplified
                /\ Overlay.line c = Overlay._round_line round simplified 2)
        (selected_lines
           (fun elev =>
              negb ((0 <? elev_step) && negb (elev mod elev_step =? 0)))
           shapes 0 vals)
        out.
Proof.
  intros Hshp Hdbf. unfold Seoul.build_overlay. rewrite Hshp, Hdbf. rsimpl.
  pose proof (seoul_shapes_loop libm_pow round elev_step major_step major_tolerance
                minor_tolerance vals (length shapes) shapes
                (read_shp_polylines_long shp box shapes Hshp) 0 [] out
                ltac:(lia)) as Hloop.
  cbn [app] in Hloop.
  destruct box as [[[min_x min_y] max_x] max_y].
  destruct (Seoul.shapes_loop _ _ _ _ _ _ _ _ _ _) as [lines|err]; rsimpl.
  - split.
    + intros [b [= _ <-]].
      destruct (proj1 Hloop eq_refl) as (new & -> & Hnew). exact Hnew.
    + intros Hall. eexists. do 2 f_equal.
      assert (Hok : Ok lines = Ok out) by (apply Hloop; eauto).
      by injection Hok.
  - split; [by intros [b ?]|].
    intros Hall. assert (Hok : Raise err = Ok out) by (apply Hloop; eauto).
    discriminate.
Qed.

Lemma build_overlay_contours_witness :
  exists b,
    Seoul.build_overlay square_pow decimal_value round_exact 20 100 8 12 2000
      example_shp example_dbf
    = Ok (b, [Overlay.Contour 120 false [(0, 0); (1, 1)]%float]).
Proof.
  apply (build_overlay_contours square_pow decimal_value round_exact 20 100 8 12 2000
           example_shp example_dbf (0, 0, 1, 1)%float
           [[[(0, 0); (1, 1)]%float]; []] [120; 0; 140]);
    [reflexivity | reflexivity |].
  repeat constructor. cbn. eauto.
Defined.

(** *** [build_region] *)

Section RegionProofs.
Import Overlay.

Variable int_round_float : bytes -> result Z.
Variable round : float -> Z -> float.

Let is_major (e : Z) : bool := e mod 100 =? 0.
Let min_spacing (e : Z) : float := (if is_major e then 22 else 32)%float.
Let max_points (e : Z) : Z := if is_major e then 150 else 110.

(** The loop over the lines of a shape never raises: the budget is 110 or
    150. *)
Lemma region_shape_lines (e : Z) (lines : list (list point)) :
  forall acc,
    exists new,
      Region.shape_lines round lines e (is_major e) (min_spacing e)
        (max_points e) acc = Ok (acc ++ new)
      /\ Forall (fun c => exists line, line ∈ lines
                          /\ region_contour_of round e line c) new.
Proof.
  induction lines as [|line lines IH]; intros acc; cbn [Region.shape_lines].
  - exists []. rewrite app_nil_r. split; [done | constructor].
  - destruct (simplify_line_fast_bound line (min_spacing e) (max_points e))
      as (simplified & Hs & Hbound).
    { subst max_points is_major. cbv beta. destruct (_ =? 0); lia. }
    rewrite Hs. rsimpl.
    destruct (Nat.ltb_spec (length simplified) 2) as [Hshort|Hlong].
    + destruct (IH acc) as (new & -> & Hnew). exists new.
      split; [done|].
      eapply Forall_impl; [exact Hnew|].
      intros c (l & Hl & Hc). exists l.
      split; [by apply list_elem_of_further | done].
    + destruct (IH (acc ++ [Contour e (is_major e)
                              (_round_line round simplified 2)]))
        as (new & -> & Hnew).
      eexists (_ :: new). split; [by rewrite <- app_assoc|].
      constructor.
      * exists line. split; [apply list_elem_of_here|].
        unfold region_contour_of. cbn.
        repeat split; try done. exists simplified. by repeat split.
      * eapply Forall_impl; [exact Hnew|].
        intros c (l & Hl & Hc). exists l.
        split; [by apply list_elem_of_further | done].
Qed.

Lemma region_shapes_loop (vals : list Z) (total : nat)
    (shapes : list (list (list point))) :
  forall idx acc,
    (idx + length shapes <= total)%nat ->
    exists new,
      Region.shapes_loop round shapes idx (pad_contours vals total) acc
      = Ok (acc ++ new)
      /\ Forall (fun c => exists k lines line,
                   shapes !! k = Some lines /\ line ∈ lines
                   /\ default 0 (vals !! (idx + k)%nat) mod 20 = 0
                   /\ region_contour_of round
                        (default 0 (vals !! (idx + k)%nat)) line c) new.
Proof.
  induction shapes as [|lines shapes IH]; intros idx acc Hidx;
    cbn [Region.shapes_loop].
  - exists []. rewrite app_nil_r. split; [done | constructor].
  - cbn [length] in Hidx. rewrite pad_contours_get by lia. rsimpl.
    set (e := default 0 (vals !! idx)).
    assert (Hshift : forall new : list contour,
      Forall (fun c => exists k lines line,
                shapes !! k = Some lines /\ line ∈ lines
                /\ default 0 (vals !! (S idx + k)%nat) mod 20 = 0
                /\ region_contour_of round
                     (default 0 (vals !! (S idx + k)%nat)) line c) new ->
      Forall (fun c => exists k ls line,
                (lines :: shapes) !! k = Some ls /\ line ∈ ls
                /\ default 0 (vals !! (idx + k)%nat) mod 20 = 0
                /\ region_contour_of round
                     (default 0 (vals !! (idx + k)%nat)) line c) new).
    { intros new Hf. eapply Forall_impl; [exact Hf|].
      intros c (k & ls & l & Hk & Hl & Hmod & Hc).
      exists (S k), ls, l. rewrite Nat.add_succ_r. cbn [Nat.add] in *.
      split; [done|]. split; [done|]. split; done. }
    destruct (Z.eqb_spec (e mod 20) 0) as [Hmod|Hmod]; cbn [negb].
    + destruct (region_shape_lines e lines acc) as (new1 & Hinner & Hnew1).
      subst is_major min_spacing max_points. cbv beta in *.
      rewrite Hinner. rsimpl.
      destruct (IH (S idx) (acc ++ new1) ltac:(lia)) as (new2 & -> & Hnew2).
      exists (new1 ++ new2). split; [by rewrite app_assoc|].
      apply Forall_app. split; [|by apply Hshift].
      eapply Forall_impl; [exact Hnew1|].
      intros c (l & Hl & Hc). exists 0%nat, lines, l.
      rewrite Nat.add_0_r. split; [done|]. split; [done|]. split; done.
    + destruct (IH (S idx) acc ltac:(lia)) as (new & -> & Hnew).
      exists new. split; [done | by apply Hshift].
Qed.

(** The loop over the codes returns when the readers return on every
    file. *)
Lemma region_codes_loop (files : list (bytes * bytes)) :
  Forall (fun f : bytes * bytes =>
            is_ok (read_shp_polylines f.1) = true
            /\ is_ok (read_dbf_contours int_round_float f.2) = true) files ->
  forall merged acc,
    exists merged' new,
      Region.codes_loop int_round_float round files merged acc
      = Ok (merged', acc ++ new)
      /\ (merged' = None <-> merged = None /\ files = [])
      /\ Forall (region_contour_from int_round_float round files) new.
Proof.
  induction 1 as [|[shp dbf] files [Hshp Hdbf] Hfiles IH]; intros merged acc;
    cbn [Region.codes_loop].
  - exists merged, []. rewrite app_nil_r.
    split; [done|]. split; [tauto | constructor].
  - cbn [fst snd] in *.
    destruct (read_shp_polylines shp) as [[box shapes]|] eqn:Hs;
      [|discriminate].
    destruct (read_dbf_contours int_round_float dbf) as [vals|] eqn:Hd;
      [|discriminate].
    rsimpl.
    destruct (region_shapes_loop vals (length shapes) shapes 0 acc
                ltac:(lia)) as (new1 & -> & Hnew1).
    rsimpl.
    destruct (IH (Some (Region._merge_bounds merged box)) (acc ++ new1))
      as (merged' & new2 & -> & Hnone & Hnew2).
    exists merged', (new1 ++ new2). split; [by rewrite app_assoc|].
    split.
    { split; [intros Hm; apply Hnone in Hm as [? _]; done | by intros [_ ?]]. }
    apply Forall_app. split.
    + eapply Forall_impl; [exact Hnew1|].
      intros c (k & lines & l & Hk & Hl & Hmod & Hc).
      exists shp, dbf, box, shapes, vals, k, lines, l.
      cbn [Nat.add] in *. split; [apply list_elem_of_here|].
      do 5 (split; [done|]). done.
    + eapply Forall_impl; [exact Hnew2|].
      intros c (shp' & dbf' & box' & shapes' & vals' & k & lines & l
                & Hin & Hrest).
      exists shp', dbf', box', shapes', vals', k, lines, l.
      split; [by apply list_elem_of_further | done].
Qed.

(** The loop returns only when the readers do. *)
Lemma region_codes_loop_Ok (files : list (bytes * bytes)) :
  forall merged acc res,
    Region.codes_loop int_round_float round files merged acc = Ok res ->
    Forall (fun f : bytes * bytes =>
              is_ok (read_shp_polylines f.1) = true
              /\ is_ok (read_dbf_contours int_round_float f.2) = true) files.
Proof.
  induction files as [|[shp dbf] files IH]; intros merged acc res H;
    cbn [Region.codes_loop] in H; [constructor|].
  apply bind_Ok_inv in H as ([box shapes] & Hs & H).
  apply bind_Ok_inv in H as (vals & Hd & H).
  apply bind_Ok_inv in H as (lines & _ & H).
  constructor; [|by eapply IH].
  cbn [fst snd]. by rewrite Hs, Hd.
Qed.

End RegionProofs.

(** X19. [build_region] returns whenever the two readers return on the files of
    every code: the simplification raises nothing, as the budgets are 110
    and 150.  It fails with "No bounds parsed" exactly on no code. *)
Theorem build_region_returns (int_round_float : bytes -> result Z)
    (round : float -> Z -> float) (files : list (bytes * bytes)) :
  Forall (fun f : bytes * bytes =>
            is_ok (read_shp_polylines f.1) = true
            /\ is_ok (read_dbf_contours int_round_float f.2) = true) files ->
  exists res,
    Region.build_region int_round_float round files = Ok res
    /\ (res = None <-> files = []).
Proof.
  intros Hfiles. unfold Region.build_region.
  destruct (region_codes_loop int_round_float round files Hfiles None [])
    as (merged & new & -> & Hnone & _).
  rsimpl. destruct merged as [[[[min_x min_y] max_x] max_y]|].
  - eexists. split; [reflexivity|].
    split; [discriminate|]. intros ->.
    pose proof (proj2 Hnone (conj eq_refl eq_refl)). discriminate.
  - exists None. split; [reflexivity|].
    split; [|done]. intros _. by apply Hnone.
Qed.

Lemma build_region_returns_witness :
  exists res,
    Region.build_region decimal_value round_exact
      [(example_shp, example_dbf)] = Ok res
    /\ (res = None <-> [(example_shp, example_dbf)] = []).
Proof.
  apply (build_region_returns decimal_value round_exact
           [(example_shp, example_dbf)]).
  repeat constructor.
Defined.

(** X20. Every contour [build_region] writes is the rounded simplification of a
    line of a shape of one of its files, with the elevation of the record
    of the shape, a multiple of 20; it is major exactly on a multiple of
    100, and has at least 2 points and at most 150, 110 when it is not
    major. *)
Theorem build_region_contours (int_round_float : bytes -> result Z)
    (round : float -> Z -> float) (files : list (bytes * bytes))
    (b : list float) (out : list Overlay.contour) :
  Region.build_region int_round_float round files = Ok (Some (b, out)) ->
  Forall (fun c =>
            region_contour_from int_round_float round files c
            /\ Overlay.elev c mod 20 = 0
            /\ Overlay.major c = (Overlay.elev c mod 100 =? 0)
            /\ (2 <= length (Overlay.line c))%nat
            /\ Z.of_nat (length (Overlay.line c))
               <= (if Overlay.major c then 150 else 110)) out.
Proof.
  unfold Region.build_region. intros H.
  apply bind_Ok_inv in H as ([merged all_lines] & Hloop & H).
  pose proof (region_codes_loop_Ok int_round_float round files _ _ _ Hloop)
    as Hfiles.
  destruct (region_codes_loop int_round_float round files Hfiles None [])
    as (merged' & new & Hloop' & _ & Hnew).
  rewrite Hloop in Hloop'. injection Hloop' as -> ->.
  destruct merged' as [[[[min_x min_y] max_x] max_y]|]; [|discriminate].
  injection H as _ <-. cbn [app].
  eapply Forall_impl; [exact Hnew|].
  intros c Hc. split; [exact Hc|].
  destruct Hc as (shp & dbf & box & shapes & vals & idx & lines & l
                  & _ & _ & _ & _ & _ & Hmod & Hc).
  destruct Hc as (He & Hm & simplified & _ & Hl & H2 & Hmax).
  rewrite He, Hm, Hl. unfold Overlay._round_line. rewrite length_fmap.
  by repeat split.
Qed.

Lemma build_region_contours_witness :
  Region.build_region decimal_value round_exact [(example_shp, example_dbf)]
  = Ok (Some ([-2000; -2000; 2001; 2001]%float,
              [Overlay.Contour 120 false [(0, 0); (1, 1)]%float]))
  /\ (2 <= length [(0, 0); (1, 1)]%float)%nat.
Proof.
  split; [reflexivity|].
  pose proof (build_region_contours decimal_value round_exact
                [(example_shp, example_dbf)] _ _ eq_refl) as H.
  inversion H as [|c l (_ & _ & _ & Hlen & _) _]; subst. exact Hlen.
Defined.

(** *** [load_contours] *)

Section JejuProofs.
Import Overlay.

Variable libm_pow : float -> float -> result float.
Variable value : Type.
Variable int_round_float : value -> result Z.
Variable simplify_minor simplify_major : float.

Lemma jeju_row_lines (e : Z) (lines : list (list point)) :
  let tolerance :=
    if e mod 100 =? 0 then simplify_major else simplify_minor in
  forall acc out,
    Jeju.row_lines libm_pow lines e (e mod 100 =? 0) tolerance acc = Ok out
    <-> exists new,
          out = acc ++ new
          /\ Forall2 (jeju_contour_of libm_pow simplify_minor simplify_major)
               (row_selected (lines, e)) new.
Proof.
  intros tolerance. unfold row_selected. cbn [fst snd].
  induction lines as [|line lines IH]; intros acc out;
    cbn [Jeju.row_lines List.filter fmap list_fmap].
  - split.
    + intros [= <-]. exists []. by rewrite app_nil_r.
    + intros (new & -> & Hnew). inversion Hnew. by rewrite app_nil_r.
  - destruct (Nat.ltb_spec (length line) 2) as [Hshort|Hlong].
    { rewrite (proj2 (Nat.leb_gt _ _) Hshort). apply IH. }
    rewrite (proj2 (Nat.leb_le _ _) Hlong). cbn [fmap list_fmap].
    destruct (_simplify_line libm_pow line tolerance) as [simplified|err] eqn:Hs;
      rsimpl.
    + pose proof (simplify_line_two _ _ _ _ Hlong Hs) as Hlen.
      rewrite (proj2 (Nat.ltb_ge _ _) Hlen), IH. split.
      * intros (new & -> & Hnew).
        exists (Contour e (e mod 100 =? 0) simplified :: new).
        split; [by rewrite <- app_assoc|].
        constructor; [|done]. by repeat split.
      * intros (new & -> & Hnew).
        inversion Hnew as [|? c ? new' (He & Hm & Hs') Hnew']; subst.
        exists new'. split; [|done].
        rewrite <- app_assoc. cbn [app]. do 2 f_equal.
        destruct c as [ce cm cl]. cbn in *. subst.
        fold tolerance in Hs'. rewrite Hs in Hs'. by injection Hs' as <-.
    + split; [discriminate|].
      intros (new & _ & Hnew).
      inversion Hnew as [|? c ? new' (_ & _ & Hs') _]; subst.
      cbn in Hs'. fold tolerance in Hs'. rewrite Hs in Hs'. discriminate.
Qed.

Lemma jeju_rows_loop (rows : list (bytes * value)) :
  forall acc out,
    Jeju.rows_loop libm_pow value int_round_float rows simplify_minor simplify_major
      acc = Ok out
    <-> exists decoded new,
          Forall2
            (fun (row : bytes * value) (d : list (list point) * Z) =>
               (exists offset,
                  (wkb ← _gpkg_blob_to_wkb row.1;
                   _parse_lines_from_wkb wkb 0) = Ok (d.1, offset))
               /\ int_round_float row.2 = Ok d.2)
            rows decoded
          /\ out = acc ++ new
          /\ Forall2 (jeju_contour_of libm_pow simplify_minor simplify_major)
               (concat (row_selected <$> decoded)) new.
Proof.
  induction rows as [|[blob v] rows IH]; intros acc out;
    cbn [Jeju.rows_loop].
  - split.
    + intros [= <-]. exists [], []. rewrite app_nil_r.
      repeat split; constructor.
    + intros (decoded & new & Hdec & -> & Hnew).
      inversion Hdec; subst. cbn in Hnew. inversion Hnew.
      by rewrite app_nil_r.
  - cbn [fst snd].
    destruct (_gpkg_blob_to_wkb blob) as [wkb|err] eqn:Hwkb; rsimpl.
    2:{ split; [discriminate|].
        intros (decoded & new & Hdec & _).
        inversion Hdec as [|? d ? ? [[off Hd] _] _]; subst.
        cbn [fst] in Hd. rewrite Hwkb in Hd. discriminate. }
    destruct (_parse_lines_from_wkb wkb 0) as [[lines off]|err] eqn:Hparse;
      rsimpl.
    2:{ split; [discriminate|].
        intros (decoded & new & Hdec & _).
        inversion Hdec as [|? d ? ? [[off Hd] _] _]; subst.
        cbn [fst] in Hd. rewrite Hwkb in Hd. rsimpl.
        rewrite Hparse in Hd. discriminate. }
    destruct (int_round_float v) as [e|err] eqn:He; rsimpl.
    2:{ split; [discriminate|].
        intros (decoded & new & Hdec & _).
        inversion Hdec as [|? d ? ? [_ Hd] _]; subst.
        cbn [snd] in Hd. congruence. }
    pose proof (jeju_row_lines e lines acc) as Hinner. cbv zeta in Hinner.
    assert (Hrow : forall d,
              (exists offset,
                 (wkb ← _gpkg_blob_to_wkb blob; _parse_lines_from_wkb wkb 0)
                 = Ok (d.1, offset))
              /\ int_round_float v = Ok d.2 -> d = (lines, e)).
    { intros [l' e'] [[off' Hd] He']. cbn [fst snd] in Hd, He'.
      rewrite He in He'. injection He' as <-.
      rewrite Hwkb in Hd. rsimpl. rewrite Hparse in Hd.
      by injection Hd as <- _. }
    destruct (Jeju.row_lines libm_pow lines e _ _ acc) as [acc1|err] eqn:Hlines;
      rsimpl.
    + destruct (proj1 (Hinner acc1) eq_refl) as (new1 & -> & Hnew1).
      rewrite IH. split.
      * intros (decoded & new2 & Hdec & -> & Hnew2).
        exists ((lines, e) :: decoded), (new1 ++ new2).
        split; [constructor; [|done]|].
        { cbn [fst snd]. rewrite Hwkb. rsimpl. rewrite Hparse. eauto. }
        split; [by rewrite app_assoc|].
        cbn [fmap list_fmap concat]. by apply Forall2_app.
      * intros (decoded & new & Hdec & -> & Hnew).
        inversion Hdec as [|? d ? decoded' Hd Hdec']; subst.
        cbn [fst snd] in Hd. apply Hrow in Hd as ->.
        cbn [fmap list_fmap concat] in Hnew.
        apply Forall2_app_inv_l in Hnew as (k1 & k2 & Hk1 & Hk2 & ->).
        assert (Heq : Ok (acc ++ new1) = Ok (acc ++ k1))
          by (apply Hinner; eauto).
        injection Heq as Heq. apply app_inv_head in Heq as ->.
        exists decoded', k2. split; [done|].
        split; [by rewrite app_assoc | done].
    + split; [discriminate|].
      intros (decoded & new & Hdec & -> & Hnew).
      inversion Hdec as [|? d ? decoded' Hd Hdec']; subst.
      cbn [fst snd] in Hd. apply Hrow in Hd as ->.
      cbn [fmap list_fmap concat] in Hnew.
      apply Forall2_app_inv_l in Hnew as (k1 & k2 & Hk1 & _ & ->).
      assert (Heq : Raise err = Ok (acc ++ k1)) by (apply Hinner; eauto).
      discriminate.
Qed.

End JejuProofs.

(** X21. [load_contours] returns exactly when every row decodes, its elevation
    converts and the simplifier returns on each of its lines of at least 2
    points; it then holds one contour for each of these lines, row by row
    and in order: the line simplified with [simplify_major] when the
    elevation is a multiple of 100 and [simplify_minor] otherwise, with at
    least 2 points. *)
Theorem load_contours_contours (libm_pow : float -> float -> result float)
    (value : Type)
    (int_round_float : value -> result Z) (rows : list (bytes * value))
    (simplify_minor simplify_major : float) (out : list Overlay.contour) :
  Jeju.load_contours libm_pow value int_round_float rows simplify_minor simplify_major
  = Ok out
  <-> exists decoded,
        Forall2
          (fun (row : bytes * value) (d : list (list point) * Z) =>
             (exists offset,
                (wkb ← _gpkg_blob_to_wkb row.1;
                 _parse_lines_from_wkb wkb 0) = Ok (d.1, offset))
             /\ int_round_float row.2 = Ok d.2)
          rows decoded
        /\ Forall2 (jeju_contour_of libm_pow simplify_minor simplify_major)
             (concat (row_selected <$> decoded)) out
        /\ Forall (fun c => (2 <= length (Overlay.line c))%nat) out.
Proof.
  unfold Jeju.load_contours. rewrite jeju_rows_loop. cbn [app]. split.
  - intros (decoded & new & Hdec & -> & Hnew).
    exists decoded. split; [done|]. split; [done|].
    assert (Hsel : Forall (fun sel : Z * list point =>
                             (2 <= length sel.2)%nat)
                     (concat (row_selected <$> decoded))).
    { clear. induction decoded as [|d decoded IH];
        cbn [fmap list_fmap concat]; [constructor|].
      apply Forall_app. split; [|exact IH].
      unfold row_selected. apply Forall_fmap, Forall_forall.
      intros l Hl. apply list_elem_of_In, filter_In in Hl as [_ Hl].
      cbn. by apply Nat.leb_le in Hl. }
    clear Hdec. induction Hnew as [|sel c sels cs (_ & _ & Hs) _ IH];
      [constructor|].
    inversion Hsel; subst. constructor; [|by apply IH].
    by eapply simplify_line_two.
  - intros (decoded & Hdec & Hnew & _). eauto.
Qed.

Lemma load_contours_contours_witness :
  let g := GLineString
             (LineString true XY
                [Vertex 0 0 []; Vertex 0x3FF0000000000000 0x4000000000000000 []]) in
  let blob := [x47; x50; x00; x01; x00; x00; x00; x00] ++ encode_geometry g in
  Jeju.load_contours square_pow bytes decimal_value [(blob, [x34; x30; x30])] 12 8
  = Ok [Overlay.Contour 400 true [(0, 0); (1, 2)]%float].
Proof.
  intros g blob.
  apply (load_contours_contours square_pow bytes decimal_value [(blob, [x34; x30; x30])]
           12 8).
  exists [([[(0, 0); (1, 2)]%float], 400)].
  split; [|split].
  - repeat constructor. exists 41%nat. reflexivity.
  - repeat constructor.
  - repeat constructor.
Defined.

(** ** The central meridian *)

(** On the central meridian the longitude difference is a zero, and the
    easting is the false easting plus a product with that zero. *)
Lemma meridian_offset (libm_sin libm_cos libm_tan : float -> float)
    (libm_pow : float -> float -> result float) (lat_deg x y : float) :
  Projection._lon_lat_to_unified libm_sin libm_cos libm_tan libm_pow
    127.5 lat_deg = Ok (x, y) ->
  exists u, Projection.zero_or_nan u
            /\ x = (Projection.FALSE_EASTING + u)%float.
Proof.
  unfold Projection._lon_lat_to_unified. intros H.
  apply bind_Ok_inv in H as (m0 & _ & H).
  apply bind_Ok_inv in H as (sin_phi & _ & H).
  apply bind_Ok_inv in H as (cos_phi & _ & H).
  apply bind_Ok_inv in H as (tan_phi & _ & H).
  apply bind_Ok_inv in H as (root & _ & H).
  apply bind_Ok_inv in H as (n & _ & H).
  apply bind_Ok_inv in H as (m & _ & H).
  apply bind_Ok_inv in H as (a3 & Ha3 & H).
  apply bind_Ok_inv in H as (a5 & Ha5 & H).
  apply bind_Ok_inv in H as (a4 & _ & H).
  apply bind_Ok_inv in H as (a6 & _ & H).
  assert (Ha : Projection.zero_or_nan
                 (cos_phi * (Projection.math_radians 127.5
                             - Projection.LON0))).
  { apply ProjectionProofs.zero_or_nan_mul_r.
    exact (ProjectionProofs.zero_or_nan_sub_diag
             (Projection.math_radians 127.5)). }
  assert (Hpow : forall k r,
    Projection.float_pow libm_pow
      (cos_phi * (Projection.math_radians 127.5 - Projection.LON0)) k = Ok r ->
    forall coef d, Projection.zero_or_nan (coef * r / d)).
  { intros k r Hr coef d.
    apply ProjectionProofs.zero_or_nan_div,
      ProjectionProofs.zero_or_nan_mul_r.
    exact (ProjectionProofs.zero_or_nan_pow _ _ _ _ Ha Hr). }
  injection H as <- _. eexists. split; [|reflexivity].
  apply ProjectionProofs.zero_or_nan_mul_r.
  repeat apply ProjectionProofs.zero_or_nan_add; eauto.
Qed.

(** X22. A point of the central meridian (longitude 127.5) projects to the
    false easting, bit for bit, at every latitude and whatever the C
    library returns, unless the easting comes out as a NaN. *)
Theorem lon_lat_to_unified_central_meridian
    (libm_sin libm_cos libm_tan : float -> float)
    (libm_pow : float -> float -> result float) (lat_deg x y : float) :
  Projection._lon_lat_to_unified libm_sin libm_cos libm_tan libm_pow
    127.5 lat_deg = Ok (x, y) ->
  is_nan x = false ->
  x = Projection.FALSE_EASTING.
Proof.
  intros H Hx. apply meridian_offset in H as (u & Hu & ->).
  exact (ProjectionProofs.add_zero_or_nan _ _ (proj1 false_origin_finite)
           Hu Hx).
Qed.

Lemma lon_lat_to_unified_central_meridian_witness :
  Projection._lon_lat_to_unified equator_sin equator_cos equator_tan
    Projection.table_pow 127.5 0
  = Ok (1000000, -2205815.0199426645)%float
  /\ 1000000%float = Projection.FALSE_EASTING.
Proof.
  split; [reflexivity|].
  exact (lon_lat_to_unified_central_meridian equator_sin equator_cos
           equator_tan Projection.table_pow 0 1000000 (-2205815.0199426645)
           eq_refl eq_refl).
Defined.

